(** * MinecraftSimulator: the order-statistics AVL tree ([avl.py] over [bst.py])

    A shallow embedding of [BinarySearchTree], [BSTInOrderIterator] and
    [AVLTree].  Python integers are [Z]; keys are a totally ordered type,
    taken to be [Z]; items are an arbitrary type [I].

    The tree owns its nodes hierarchically (no node has two parents), so the
    object graph under a node is written as an inductive tree and an in-place
    assignment [n.f = v] becomes the rebuilt node.  Where the source updates
    an object that sits below another one (for instance [current] after
    [child.left = current]), the update is applied at that position. *)

From Stdlib Require Import ZArith List Lia Bool Sorted Permutation.
Import ListNotations.
Open Scope Z_scope.

(** ** Exceptions and outcomes *)

(** The exceptions that leave the tree code: [ValueError] (explicit
    [raise], also the re-raised assertion of [range_between]),
    [AttributeError] (an attribute of [None] is read) and [RecursionError]
    (a call is made with no frame left under the interpreter's recursion
    limit). *)
Inductive exn : Type := ValueError | AttributeError | RecursionError.

(** Result of a read-only style call; the state is returned beside it. *)
Inductive result (A : Type) : Type :=
| Ok (a : A)
| Err (e : exn).
Arguments Ok {A} a.
Arguments Err {A} e.

(** Result of a mutating call.
    - [Done a]: normal return.
    - [Failed e a]: an exception left the call during the descent; [a] is the
      state the call leaves behind (the graph under the argument node and
      [self.length]).
    - [Crashed e]: an exception left [rebalance] or a rotation.  Nodes have
      been re-linked at that point and the graph under the caller's pointer
      is not tracked.
    - [Exhausted]: the recursion budget of [rebalance] is spent. *)
Inductive outcome (A : Type) : Type :=
| Done (a : A)
| Failed (e : exn) (a : A)
| Crashed (e : exn)
| Exhausted.
Arguments Done {A} a.
Arguments Failed {A} e a.
Arguments Crashed {A} e.
Arguments Exhausted {A}.

Section Model.
Context {I : Type}.

(** ** Nodes *)

(** A reference to an [AVLTreeNode]: [Absent] is Python's [None]. *)
Inductive AVLTreeNode : Type :=
| Absent
| Node (left : AVLTreeNode) (key : Z) (item : I) (height size : Z)
       (right : AVLTreeNode).

(** Modelled from the spec: [node.py] is not part of the sources; by the
    data model a node is created as a leaf with height = size = 1. *)
Definition new_node (key : Z) (item : I) : AVLTreeNode :=
  Node Absent key item 1 1 Absent.

Definition left_of (t : AVLTreeNode) : AVLTreeNode :=
  match t with Absent => Absent | Node l _ _ _ _ _ => l end.
Definition right_of (t : AVLTreeNode) : AVLTreeNode :=
  match t with Absent => Absent | Node _ _ _ _ _ r => r end.
Definition size_of (t : AVLTreeNode) : Z :=
  match t with Absent => 0 | Node _ _ _ _ s _ => s end.

Definition set_left (l t : AVLTreeNode) : AVLTreeNode :=
  match t with Absent => Absent | Node _ k v h s r => Node l k v h s r end.
Definition set_right (r t : AVLTreeNode) : AVLTreeNode :=
  match t with Absent => Absent | Node l k v h s _ => Node l k v h s r end.
Definition set_height (h : Z) (t : AVLTreeNode) : AVLTreeNode :=
  match t with Absent => Absent | Node l k v _ s r => Node l k v h s r end.

(** ** [bst.py]: [BinarySearchTree] *)

(** [is_leaf]: [current.left is None and current.right is None]. *)
Definition is_leaf (current : AVLTreeNode) : bool :=
  match current with
  | Node Absent _ _ _ _ Absent => true
  | _ => false
  end.

(** [get_minimal]: walk left while a left child exists. *)
Fixpoint get_minimal (current : AVLTreeNode) : AVLTreeNode :=
  match current with
  | Absent => Absent
  | Node Absent _ _ _ _ _ => current
  | Node l _ _ _ _ _ => get_minimal l
  end.

(** [get_maximal]: walk right while a right child exists. *)
Fixpoint get_maximal (current : AVLTreeNode) : AVLTreeNode :=
  match current with
  | Absent => Absent
  | Node _ _ _ _ _ Absent => current
  | Node _ _ _ _ _ r => get_maximal r
  end.

(** [get_successor]: the minimum of the right subtree, [None] without one. *)
Definition get_successor (current : AVLTreeNode) : AVLTreeNode :=
  match current with
  | Absent => Absent
  | Node _ _ _ _ _ Absent => Absent
  | Node _ _ _ _ _ r => get_minimal r
  end.

(** [get_tree_node_by_key_aux]: [KeyError] is rendered as [None]. *)
Fixpoint get_tree_node_by_key_aux (current : AVLTreeNode) (key : Z)
  : option AVLTreeNode :=
  match current with
  | Absent => None
  | Node l k _ _ _ r =>
      if key =? k then Some current
      else if key <? k then get_tree_node_by_key_aux l key
      else get_tree_node_by_key_aux r key
  end.

(** ** [avl.py]: heights, sizes and rotations *)

Definition get_height (current : AVLTreeNode) : Z :=
  match current with
  | Node _ _ _ h _ _ => h
  | Absent => 0
  end.

Definition get_balance (current : AVLTreeNode) : Z :=
  match current with
  | Absent => 0
  | Node l _ _ _ _ r => get_height r - get_height l
  end.

(** [size]: stores the recomputed size in [current.size] and returns it; the
    children contribute their stored [size] fields. *)
Definition size (current : AVLTreeNode) : AVLTreeNode * Z :=
  match current with
  | Absent => (Absent, 0)
  | Node l k v h _ r =>
      let s :=
        if is_leaf current then 1
        else match l, r with
             | Absent, _ => size_of r + 1
             | _, Absent => size_of l + 1
             | _, _ => size_of l + size_of r + 1
             end in
      (Node l k v h s r, s)
  end.

(** [n.height = max(get_height(n.left), get_height(n.right)) + 1]. *)
Definition update_height (n : AVLTreeNode) : AVLTreeNode :=
  set_height (Z.max (get_height (left_of n)) (get_height (right_of n)) + 1) n.

(** [n.size = self.size(n)]. *)
Definition update_size (n : AVLTreeNode) : AVLTreeNode := fst (size n).

(** [left_rotate], with the [rebalance] it ends in passed as [reb].  After
    [child.left = current] the object [current] is [child]'s left child. *)
Definition left_rotate_with (reb : AVLTreeNode -> outcome AVLTreeNode)
  (current : AVLTreeNode) : outcome AVLTreeNode :=
  match current with
  | Absent => Crashed ValueError
  | Node _ _ _ _ _ Absent => Crashed ValueError
  | Node _ _ _ _ _ (Node center _ _ _ _ _ as child) =>
      (* child.left = current; current.right = center *)
      let child := set_left (set_right center current) child in
      (* current.height = ... *)
      let child := set_left (update_height (left_of child)) child in
      (* child.height = ... *)
      let child := update_height child in
      (* child.size = self.size(child) *)
      let child := update_size child in
      (* current.size = self.size(current) *)
      let child := set_left (update_size (left_of child)) child in
      reb child
  end.

(** [right_rotate].  After [child.right = current] the object [current] is
    [child]'s right child; the source assigns [child.height] before
    [current.height]. *)
Definition right_rotate_with (reb : AVLTreeNode -> outcome AVLTreeNode)
  (current : AVLTreeNode) : outcome AVLTreeNode :=
  match current with
  | Absent => Crashed ValueError
  | Node Absent _ _ _ _ _ => Crashed ValueError
  | Node (Node _ _ _ _ _ center as child) _ _ _ _ _ =>
      (* child.right = current; current.left = center *)
      let child := set_right (set_left center current) child in
      (* child.height = ... *)
      let child := update_height child in
      (* current.height = ... *)
      let child := set_right (update_height (right_of child)) child in
      (* child.size = self.size(child) *)
      let child := update_size child in
      (* current.size = self.size(current) *)
      let child := set_right (update_size (right_of child)) child in
      reb child
  end.

(** The body of [rebalance]; [reb] is the recursive call made at the end of
    each rotation.  [None.size = ...] and [None.left] raise
    [AttributeError]. *)
Definition rebalance_with (reb : AVLTreeNode -> outcome AVLTreeNode)
  (current : AVLTreeNode) : outcome AVLTreeNode :=
  match current with
  | Absent => Crashed AttributeError
  | Node _ _ _ _ _ _ =>
      let current := update_size current in
      if get_balance current >=? 2 then
        match right_of current with
        | Absent => Crashed AttributeError
        | Node cl _ _ _ _ cr as child =>
            if get_height cl >? get_height cr then
              match right_rotate_with reb child with
              | Done child' => left_rotate_with reb (set_right child' current)
              | o => o
              end
            else left_rotate_with reb current
        end
      else if get_balance current <=? -2 then
        match left_of current with
        | Absent => Crashed AttributeError
        | Node cl _ _ _ _ cr as child =>
            if get_height cr >? get_height cl then
              match left_rotate_with reb child with
              | Done child' => right_rotate_with reb (set_left child' current)
              | o => o
              end
            else right_rotate_with reb current
        end
      else Done current
  end.

(** [rebalance] and the rotations call each other; [fuel] bounds the depth
    of that recursion. *)
Fixpoint rebalance (fuel : nat) (current : AVLTreeNode) : outcome AVLTreeNode :=
  match fuel with
  | O => Exhausted
  | S fuel' => rebalance_with (rebalance fuel') current
  end.

Definition left_rotate (fuel : nat) : AVLTreeNode -> outcome AVLTreeNode :=
  left_rotate_with (rebalance fuel).
Definition right_rotate (fuel : nat) : AVLTreeNode -> outcome AVLTreeNode :=
  right_rotate_with (rebalance fuel).

(** ** [avl.py]: insertion and deletion *)

(** [return self.rebalance(current)] at the end of [insert_aux] and
    [delete_aux], with [self.length] carried along. *)
Definition return_rebalance (fuel : nat) (current : AVLTreeNode) (length : Z)
  : outcome (AVLTreeNode * Z) :=
  match rebalance fuel current with
  | Done t => Done (t, length)
  | Failed e _ => Crashed e
  | Crashed e => Crashed e
  | Exhausted => Exhausted
  end.

(** [insert_aux]; [length] is [self.length].  The source tests
    [key > current.key] first. *)
Fixpoint insert_aux (fuel : nat) (current : AVLTreeNode) (length : Z)
  (key : Z) (item : I) : outcome (AVLTreeNode * Z) :=
  match current with
  | Absent =>
      let current := new_node key item in
      let length := length + 1 in
      return_rebalance fuel (update_size (update_height current)) length
  | Node l k v h s r =>
      if key >? k then
        match insert_aux fuel r length key item with
        | Done (r', length) =>
            return_rebalance fuel
              (update_size (update_height (Node l k v h s r'))) length
        | Failed e (r', length) => Failed e (Node l k v h s r', length)
        | Crashed e => Crashed e
        | Exhausted => Exhausted
        end
      else if key <? k then
        match insert_aux fuel l length key item with
        | Done (l', length) =>
            return_rebalance fuel
              (update_size (update_height (Node l' k v h s r))) length
        | Failed e (l', length) => Failed e (Node l' k v h s r, length)
        | Crashed e => Crashed e
        | Exhausted => Exhausted
        end
      else Failed ValueError (current, length)
  end.

(** [delete_aux].  In the two-children case [current.key] and
    [current.item] are overwritten before the recursive call. *)
Fixpoint delete_aux (fuel : nat) (current : AVLTreeNode) (length : Z)
  (key : Z) : outcome (AVLTreeNode * Z) :=
  match current with
  | Absent => Failed ValueError (Absent, length)
  | Node l k v h s r =>
      if key <? k then
        match delete_aux fuel l length key with
        | Done (l', length) =>
            return_rebalance fuel (update_height (Node l' k v h s r)) length
        | Failed e (l', length) => Failed e (Node l' k v h s r, length)
        | Crashed e => Crashed e
        | Exhausted => Exhausted
        end
      else if key >? k then
        match delete_aux fuel r length key with
        | Done (r', length) =>
            return_rebalance fuel (update_height (Node l k v h s r')) length
        | Failed e (r', length) => Failed e (Node l k v h s r', length)
        | Crashed e => Crashed e
        | Exhausted => Exhausted
        end
      else if is_leaf current then Done (Absent, length - 1)
      else
        match l, r with
        | Absent, _ => Done (r, length - 1)
        | _, Absent => Done (l, length - 1)
        | _, _ =>
            match get_successor current with
            | Absent => Failed AttributeError (current, length)
            | Node _ sk sv _ _ _ =>
                match delete_aux fuel r length sk with
                | Done (r', length) =>
                    return_rebalance fuel
                      (update_height (update_size (Node l sk sv h s r')))
                      length
                | Failed e (r', length) =>
                    Failed e (Node l sk sv h s r', length)
                | Crashed e => Crashed e
                | Exhausted => Exhausted
                end
            end
        end
  end.

(** ** [avl.py]: rank queries *)

(** [lookup] on a node whose [size] field currently holds [sz].  The call
    made on [node.left] sees the size that [self.size(node.left)] has just
    stored there; [lookup_unfold] below restates the function with the
    recursive calls of the source. *)
Fixpoint lookup_at (node : AVLTreeNode) (sz : Z) (index : Z)
  : AVLTreeNode * result AVLTreeNode :=
  match node with
  | Absent => (Absent, Err AttributeError)
  | Node l k v h _ r =>
      let (l1, s1) := size l in
      if index =? s1 then (Node l1 k v h sz r, Ok (Node l1 k v h sz r))
      else
        let (l2, s2) := size l1 in
        if index <? s2 then
          let (l3, found) := lookup_at l (size_of l2) index in
          (Node l3 k v h sz r, found)
        else
          let (l3, s3) := size l2 in
          let (r', found) := lookup_at r (size_of r) (index - s3 - 1) in
          (Node l3 k v h sz r', found)
  end.

(** [lookup]: returns the graph under [node] as the call leaves it (each
    [self.size(node.left)] stores into [node.left.size]) and the node found. *)
Definition lookup (node : AVLTreeNode) (index : Z)
  : AVLTreeNode * result AVLTreeNode :=
  lookup_at node (size_of node) index.

Definition item_of (t : AVLTreeNode) : option I :=
  match t with Absent => None | Node _ _ v _ _ _ => Some v end.
Definition key_of (t : AVLTreeNode) : option Z :=
  match t with Absent => None | Node _ k _ _ _ _ => Some k end.

(** [range_aux]: [current] is [self.root] in every call; [n] counts the
    ranks still to visit, [Z.to_nat (j + 1 - i)], so [n = 0] is [i > j].
    The interpreter's recursion limit is not part of this definition:
    [range_aux] takes one frame per rank, and where a call of the source
    has no frame left and raises [RecursionError], the definition goes on.
    The only assignments of [range_aux] and [lookup] are those of [size]
    to the cached sizes, which in a reachable state rewrite each with the
    value it has, so such a call leaves the tree as it was, as the calls
    followed here do; what is proved about a returned list holds for the
    calls that return. *)
Fixpoint range_aux_n (n : nat) (root : AVLTreeNode) (i : Z) (res : list I)
  {struct n} : AVLTreeNode * result (list I) :=
  match root, n with
  | Absent, _ => (root, Ok res)
  | _, O => (root, Ok res)
  | _, S n' =>
      match lookup root i with
      | (root', Ok (Node _ _ v _ _ _)) => range_aux_n n' root' (i + 1) (res ++ [v])
      | (root', Ok Absent) => (root', Err AttributeError)
      | (root', Err e) => (root', Err e)
      end
  end.

Definition range_aux (root : AVLTreeNode) (i j : Z) (res : list I)
  : AVLTreeNode * result (list I) :=
  range_aux_n (Z.to_nat (j + 1 - i)) root i res.

(** ** The tree object *)

Record AVLTree : Type := { root : AVLTreeNode; length : Z }.

(** [BinarySearchTree.__init__]. *)
Definition init : AVLTree := {| root := Absent; length := 0 |}.

Definition is_empty (self : AVLTree) : bool :=
  match root self with Absent => true | _ => false end.

Definition __len__ (self : AVLTree) : Z := length self.

Definition get_tree_node_by_key (self : AVLTree) (key : Z) : option AVLTreeNode :=
  get_tree_node_by_key_aux (root self) key.

(** [__getitem__]: [None] stands for the [KeyError]. *)
Definition __getitem__ (self : AVLTree) (key : Z) : option I :=
  match get_tree_node_by_key self key with
  | Some n => item_of n
  | None => None
  end.

Definition __contains__ (self : AVLTree) (key : Z) : bool :=
  match __getitem__ self key with Some _ => true | None => false end.

Definition store (o : outcome (AVLTreeNode * Z)) : outcome AVLTree :=
  match o with
  | Done (t, n) => Done {| root := t; length := n |}
  | Failed e (t, n) => Failed e {| root := t; length := n |}
  | Crashed e => Crashed e
  | Exhausted => Exhausted
  end.

(** [self.root = self.insert_aux(self.root, key, item)]. *)
Definition __setitem__ (fuel : nat) (self : AVLTree) (key : Z) (item : I)
  : outcome AVLTree :=
  store (insert_aux fuel (root self) (length self) key item).

(** [self.root = self.delete_aux(self.root, key)]. *)
Definition __delitem__ (fuel : nat) (self : AVLTree) (key : Z) : outcome AVLTree :=
  store (delete_aux fuel (root self) (length self) key).

(** Rank lookup on the whole tree: [self.lookup(self.root, index)]. *)
Definition lookup_root (self : AVLTree) (index : Z) : AVLTree * result AVLTreeNode :=
  let (t, found) := lookup (root self) index in
  ({| root := t; length := length self |}, found).

(** [range_between]: the assertion compares against [N + 1]. *)
Definition range_between (self : AVLTree) (i j : Z) : AVLTree * result (list I) :=
  let (t, N) := size (root self) in
  if ((i >=? 0) && (i <=? N + 1)) && ((j >=? 0) && (j <=? N + 1)) && (j >=? i)
  then
    let (t', res) := range_aux t i j [] in
    ({| root := t'; length := length self |}, res)
  else ({| root := t; length := length self |}, Err ValueError).

(** ** [bst.py]: [BSTInOrderIterator] *)

(** Modelled from the spec: [linked_stack.py] is not part of the sources; a
    last-in-first-out stack is a list whose head is the top. *)
Record BSTInOrderIterator : Type :=
  { stack : list AVLTreeNode; current : AVLTreeNode }.

(** [__iter__] of the tree: [BSTInOrderIterator(self.root)]. *)
Definition __iter__ (self : AVLTree) : BSTInOrderIterator :=
  {| stack := []; current := root self |}.

(** The [while self.current] loop of [__next__]. *)
Fixpoint push_left_spine (current : AVLTreeNode) (stack : list AVLTreeNode)
  : list AVLTreeNode :=
  match current with
  | Absent => stack
  | Node l _ _ _ _ _ => push_left_spine l (current :: stack)
  end.

(** [__next__]: [None] is [StopIteration]; only nodes are ever pushed. *)
Definition __next__ (it : BSTInOrderIterator) : option (Z * BSTInOrderIterator) :=
  match push_left_spine (current it) (stack it) with
  | [] => None
  | Absent :: _ => None
  | (Node _ k _ _ _ r) :: stack' => Some (k, {| stack := stack'; current := r |})
  end.

(** Running the iterator to [StopIteration]; [None] when [n] calls of
    [__next__] are not enough. *)
Fixpoint drain (n : nat) (it : BSTInOrderIterator) : option (list Z) :=
  match n with
  | O => None
  | S n' =>
      match __next__ it with
      | None => Some []
      | Some (k, it') => option_map (cons k) (drain n' it')
      end
  end.

End Model.
Arguments AVLTreeNode I : clear implicits.
Arguments AVLTree I : clear implicits.
Arguments BSTInOrderIterator I : clear implicits.

(** ** Specification vocabulary *)

Section Vocabulary.
Context {I : Type}.
Local Abbreviation tree := (AVLTreeNode I).

(** In-order sequence of (key, item) pairs, and of keys. *)
Fixpoint elements (t : tree) : list (Z * I) :=
  match t with
  | Absent => []
  | Node l k v _ _ r => elements l ++ (k, v) :: elements r
  end.

Definition keys (t : tree) : list Z := map fst (elements t).

(** Number of nodes. *)
Fixpoint nodes (t : tree) : nat :=
  match t with
  | Absent => O
  | Node l _ _ _ _ r => S (nodes l + nodes r)
  end.

Definition count (t : tree) : Z := Z.of_nat (nodes t).

Definition is_node (t : tree) : Prop :=
  match t with Absent => False | Node _ _ _ _ _ _ => True end.

(** Height as the structure has it, independent of the [height] fields. *)
Fixpoint true_height (t : tree) : Z :=
  match t with
  | Absent => 0
  | Node l _ _ _ _ r => 1 + Z.max (true_height l) (true_height r)
  end.

(** Invariant 4: the AVL balance condition on true heights. *)
Fixpoint avl_balanced (t : tree) : bool :=
  match t with
  | Absent => true
  | Node l _ _ _ _ r =>
      (Z.abs (true_height l - true_height r) <=? 1)
      && avl_balanced l && avl_balanced r
  end.

(** Invariant 3: every [height] field is 1 + the larger of the children's
    [height] fields. *)
Fixpoint heights_consistent (t : tree) : bool :=
  match t with
  | Absent => true
  | Node l _ _ h _ r =>
      (h =? 1 + Z.max (get_height l) (get_height r))
      && heights_consistent l && heights_consistent r
  end.

(** Invariant 2: every [size] field is the number of nodes below it. *)
Fixpoint sizes_ok (t : tree) : Prop :=
  match t with
  | Absent => True
  | Node l _ _ _ s r => s = count t /\ sizes_ok l /\ sizes_ok r
  end.

(** What the code does keep of invariant 3: every [height] field exceeds
    the fields of both children. *)
Fixpoint dominated (t : tree) : Prop :=
  match t with
  | Absent => True
  | Node l _ _ h _ r =>
      get_height l < h /\ get_height r < h /\ dominated l /\ dominated r
  end.

(** Invariants 1 and 5: keys strictly ascending in in-order. *)
Definition bst (t : tree) : Prop := StronglySorted Z.lt (keys t).

(** *** Measures for the termination of [rebalance] *)

(** Sum of the [height] fields of a subtree, and of the proper descendants
    of a node. *)
Fixpoint label_sum (t : tree) : Z :=
  match t with
  | Absent => 0
  | Node l _ _ h _ r => h + label_sum l + label_sum r
  end.

Definition below (t : tree) : Z :=
  label_sum (left_of t) + label_sum (right_of t).

(** The height a node would be given from its children's fields. *)
Definition fresh (t : tree) : Z :=
  1 + Z.max (get_height (left_of t)) (get_height (right_of t)).

(** [reb'] returns whatever [reb] returns. *)
Definition extends (reb reb' : tree -> outcome tree) : Prop :=
  forall t t', reb t = Done t' -> reb' t = Done t'.

(** How [t'] relates to [t] when [rebalance] turns [t] into [t'] without
    lowering [below]. *)
Definition shape (t t' : tree) : Prop :=
  (-1 <= get_balance t <= 1 /\ t' = update_size t)
  \/ (2 <= get_balance t
      /\ get_height (left_of t') = get_height (right_of t)
      /\ get_height (left_of (left_of t')) = get_height (left_of t)
      /\ get_height (right_of (left_of t')) = get_height (right_of t) - 1
      /\ get_height (right_of t') = get_height (right_of t) - 1)
  \/ (get_balance t <= -2
      /\ get_height (right_of t') = get_height (left_of t)
      /\ get_height (right_of (right_of t')) = get_height (right_of t)
      /\ get_height (left_of (right_of t')) = get_height (left_of t) - 1
      /\ get_height (left_of t') = get_height (left_of t) - 1).

(** What [rebalance] achieves on a node with dominated children. *)
Definition settled (t t' : tree) : Prop :=
  is_node t' /\ nodes t' = nodes t
  /\ dominated (left_of t') /\ dominated (right_of t')
  /\ -1 <= get_balance t' <= 1
  /\ below t' <= below t /\ fresh t' <= fresh t
  /\ (fresh t <= get_height t -> fresh t' <= get_height t')
  /\ (below t' = below t -> shape t t').

(** *** Sizes *)

Definition kids_sized (t : tree) : Prop :=
  sizes_ok (left_of t) /\ sizes_ok (right_of t).

(** What [rebalance] keeps whatever the [height] fields are. *)
Definition rebalanced (t t' : tree) : Prop :=
  elements t' = elements t /\ (kids_sized t -> sizes_ok t').

Definition with_size (sz : Z) (t : tree) : tree :=
  match t with Absent => Absent | Node l k v h _ r => Node l k v h sz r end.

(** Items at the [n] ranks starting with rank [i]. *)
Definition items_from (t : tree) (i : Z) (n : nat) : list I :=
  map snd (firstn n (skipn (Z.to_nat i) (elements t))).

(** *** The iterator *)

(** Keys still to be produced from the stack, and a bound on the calls
    needed to produce them. *)
Fixpoint pending (st : list tree) : list Z :=
  match st with
  | [] => []
  | Absent :: st' => pending st'
  | Node _ k _ _ _ r :: st' => k :: keys r ++ pending st'
  end.

Fixpoint weight (st : list tree) : nat :=
  match st with
  | [] => O
  | n :: st' => S (nodes (right_of n) + weight st')
  end.

(** *** Reachable states *)

(** Tree states reachable from the empty tree by public operations that
    return normally. *)
Inductive reachable : AVLTree I -> Prop :=
| reach_init : reachable init
| reach_setitem fuel self key item self' :
    reachable self -> __setitem__ fuel self key item = Done self' ->
    reachable self'
| reach_delitem fuel self key self' :
    reachable self -> __delitem__ fuel self key = Done self' ->
    reachable self'
| reach_lookup self index self' node :
    reachable self -> lookup_root self index = (self', Ok node) ->
    reachable self'
| reach_range_between self i j self' res :
    reachable self -> range_between self i j = (self', Ok res) ->
    reachable self'.

(** What the proofs carry along reachable states. *)
Definition invariant (self : AVLTree I) : Prop :=
  bst (root self) /\ sizes_ok (root self) /\ dominated (root self)
  /\ length self = count (root self).

(** Successive insertions and deletions. *)
Inductive op : Type := Ins (k : Z) (v : I) | Del (k : Z).

Definition apply_op (fuel : nat) (o : outcome (AVLTree I)) (c : op)
  : outcome (AVLTree I) :=
  match o with
  | Done self =>
      match c with
      | Ins k v => __setitem__ fuel self k v
      | Del k => __delitem__ fuel self k
      end
  | _ => o
  end.

Definition run_from (fuel : nat) (self : AVLTree I) (cs : list op)
  : outcome (AVLTree I) :=
  fold_left (apply_op fuel) cs (Done self).

Definition run (fuel : nat) (cs : list op) : outcome (AVLTree I) :=
  run_from fuel init cs.

End Vocabulary.
Arguments op I : clear implicits.

(** *** Further vocabulary *)

Section Further.
Context {I : Type}.
Local Abbreviation tree := (AVLTreeNode I).

(** Every [height] field is at least the true height of its subtree. *)
Fixpoint height_covers (t : tree) : Prop :=
  match t with
  | Absent => True
  | Node l _ _ h _ r => true_height t <= h /\ height_covers l /\ height_covers r
  end.

(** The AVL tree as invariants 3 and 4 have it: every [height] field is
    1 + the larger of the children's fields, and the children's fields
    differ by at most 1. *)
Fixpoint exact (t : tree) : Prop :=
  match t with
  | Absent => True
  | Node l _ _ h _ r =>
      h = 1 + Z.max (get_height l) (get_height r)
      /\ -1 <= get_height r - get_height l <= 1
      /\ exact l /\ exact r
  end.

(** [n] successive calls of [__next__] that each return a key: the keys in
    the order returned and the iterator they leave; [None] when one of the
    calls raises [StopIteration]. *)
Fixpoint next_n (n : nat) (it : BSTInOrderIterator I)
  : option (list Z * BSTInOrderIterator I) :=
  match n with
  | O => Some ([], it)
  | S n' =>
      match __next__ it with
      | None => None
      | Some (k, it') =>
          match next_n n' it' with
          | None => None
          | Some (ks, it'') => Some (k :: ks, it'')
          end
      end
  end.

(** [reb'] does what [reb] does wherever [reb] does not run out of its
    allowance. *)
Definition persists (reb reb' : tree -> outcome tree) : Prop :=
  forall t, reb t <> Exhausted -> reb' t = reb t.

(** The insertions [tree[k] = v] for the pairs of a list, in its order. *)
Definition inserts (kvs : list (Z * I)) : list (op I) :=
  map (fun p => Ins (fst p) (snd p)) kvs.

(** Number of keys of a list that are smaller than [key]. *)
Definition rank_of (key : Z) (ks : list Z) : Z :=
  Z.of_nat (List.length (filter (fun x => x <? key) ks)).

(** Numbers of insertions and of deletions in a list of operations. *)
Fixpoint insertions (cs : list (op I)) : Z :=
  match cs with
  | [] => 0
  | Ins _ _ :: cs' => 1 + insertions cs'
  | Del _ :: cs' => insertions cs'
  end.

Fixpoint deletions (cs : list (op I)) : Z :=
  match cs with
  | [] => 0
  | Ins _ _ :: cs' => deletions cs'
  | Del _ :: cs' => 1 + deletions cs'
  end.

End Further.

(** ** [bst.py]: [BinarySearchTree] without the overrides of [AVLTree] *)

(** The methods of the base class that [AVLTree] overrides, [insert_aux] and
    [delete_aux], run on plain [TreeNode]s and never rebalance, so the tree
    can be as deep as it has nodes and [insert_aux], which calls itself once
    per level, can run into the recursion limit. *)
Module BinarySearchTree.
Section Base.
Context {I : Type}.

(** Modelled from the spec: [node.py] is not part of the sources; a
    [TreeNode] holds a key, an item and its two children and is created
    without children.  [Empty] is Python's [None]. *)
Inductive TreeNode : Type :=
| Empty
| TNode (left : TreeNode) (key : Z) (item : I) (right : TreeNode).

Definition is_leaf (current : TreeNode) : bool :=
  match current with
  | TNode Empty _ _ Empty => true
  | _ => false
  end.

Fixpoint get_minimal (current : TreeNode) : TreeNode :=
  match current with
  | Empty => Empty
  | TNode Empty _ _ _ => current
  | TNode l _ _ _ => get_minimal l
  end.

Definition get_successor (current : TreeNode) : TreeNode :=
  match current with
  | Empty => Empty
  | TNode _ _ _ Empty => Empty
  | TNode _ _ _ r => get_minimal r
  end.

(** Number of levels of a tree. *)
Fixpoint levels (t : TreeNode) : nat :=
  match t with
  | Empty => O
  | TNode l _ _ r => S (Nat.max (levels l) (levels r))
  end.

(** [BinarySearchTree.insert_aux]; [length] is [self.length].  [depth] is
    the number of frames the interpreter still allows when [insert_aux] is
    called (the recursion limit less the frames in use): every call of
    [insert_aux] takes one, and so does the constructor call
    [TreeNode(key, item)].  A call made with none left raises
    [RecursionError]; the exception passes through the pending calls before
    any of them assigns to [current.left], [current.right] or
    [self.length]. *)
Fixpoint insert_aux (depth : nat) (current : TreeNode) (length : Z)
  (key : Z) (item : I) : outcome (TreeNode * Z) :=
  match depth with
  | O => Failed RecursionError (current, length)
  | S depth' =>
      match current with
      | Empty =>
          match depth' with
          | O => Failed RecursionError (current, length)
          | S _ => Done (TNode Empty key item Empty, length + 1)
          end
      | TNode l k v r =>
          if key <? k then
            match insert_aux depth' l length key item with
            | Done (l', length') => Done (TNode l' k v r, length')
            | Failed e (l', length') => Failed e (TNode l' k v r, length')
            | Crashed e => Crashed e
            | Exhausted => Exhausted
            end
          else if key >? k then
            match insert_aux depth' r length key item with
            | Done (r', length') => Done (TNode l k v r', length')
            | Failed e (r', length') => Failed e (TNode l k v r', length')
            | Crashed e => Crashed e
            | Exhausted => Exhausted
            end
          else Failed ValueError (current, length)
      end
  end.

(** [BinarySearchTree.delete_aux].  It calls itself once per level and, in
    its last call, [is_leaf] or [get_successor] and [get_minimal] (a loop):
    on a tree of n levels at most n + 1 frames, which the insertion that
    made the deepest node took as well.  Called from where the insertions
    were called it is not the call that runs out of frames, and no frame
    allowance is kept for it. *)
Fixpoint delete_aux (current : TreeNode) (length : Z) (key : Z)
  : outcome (TreeNode * Z) :=
  match current with
  | Empty => Failed ValueError (Empty, length)
  | TNode l k v r =>
      if key <? k then
        match delete_aux l length key with
        | Done (l', length') => Done (TNode l' k v r, length')
        | Failed e (l', length') => Failed e (TNode l' k v r, length')
        | Crashed e => Crashed e
        | Exhausted => Exhausted
        end
      else if key >? k then
        match delete_aux r length key with
        | Done (r', length') => Done (TNode l k v r', length')
        | Failed e (r', length') => Failed e (TNode l k v r', length')
        | Crashed e => Crashed e
        | Exhausted => Exhausted
        end
      else if is_leaf current then Done (Empty, length - 1)
      else
        match l, r with
        | Empty, _ => Done (r, length - 1)
        | _, Empty => Done (l, length - 1)
        | _, _ =>
            match get_successor current with
            | Empty => Failed AttributeError (current, length)
            | TNode _ sk sv _ =>
                match delete_aux r length sk with
                | Done (r', length') => Done (TNode l sk sv r', length')
                | Failed e (r', length') => Failed e (TNode l sk sv r', length')
                | Crashed e => Crashed e
                | Exhausted => Exhausted
                end
            end
        end
  end.

Record BinarySearchTree : Type := { root : TreeNode; length : Z }.

Definition init : BinarySearchTree := {| root := Empty; length := 0 |}.

Definition store (o : outcome (TreeNode * Z)) : outcome BinarySearchTree :=
  match o with
  | Done (t, n) => Done {| root := t; length := n |}
  | Failed e (t, n) => Failed e {| root := t; length := n |}
  | Crashed e => Crashed e
  | Exhausted => Exhausted
  end.

(** [self.root = self.insert_aux(self.root, key, item)], called with
    [depth] frames left. *)
Definition __setitem__ (depth : nat) (self : BinarySearchTree) (key : Z)
  (item : I) : outcome BinarySearchTree :=
  store (insert_aux depth (root self) (length self) key item).

Definition __delitem__ (self : BinarySearchTree) (key : Z)
  : outcome BinarySearchTree :=
  store (delete_aux (root self) (length self) key).

(** In-order sequence of (key, item) pairs. *)
Fixpoint elements (t : TreeNode) : list (Z * I) :=
  match t with
  | Empty => []
  | TNode l k v r => elements l ++ (k, v) :: elements r
  end.

Definition keys (t : TreeNode) : list Z := map fst (elements t).

(** Keys strictly ascending in in-order. *)
Definition bst (t : TreeNode) : Prop := StronglySorted Z.lt (keys t).

(** Successive insertions and deletions, each insertion called with
    [depth] frames left. *)
Definition apply_op (depth : nat) (o : outcome BinarySearchTree) (c : op I)
  : outcome BinarySearchTree :=
  match o with
  | Done self =>
      match c with
      | Ins k v => __setitem__ depth self k v
      | Del k => __delitem__ self k
      end
  | _ => o
  end.

Definition run_from (depth : nat) (self : BinarySearchTree) (cs : list (op I))
  : outcome BinarySearchTree :=
  fold_left (apply_op depth) cs (Done self).

Definition run (depth : nat) (cs : list (op I)) : outcome BinarySearchTree :=
  run_from depth init cs.

End Base.
Arguments TreeNode I : clear implicits.
Arguments BinarySearchTree I : clear implicits.
End BinarySearchTree.

(** The trees of the two classes hold the same pairs and the same count. *)
Definition same_contents {I : Type}
  (self : AVLTree I) (b : BinarySearchTree.BinarySearchTree I) : Prop :=
  BinarySearchTree.elements (BinarySearchTree.root b) = elements (root self)
  /\ BinarySearchTree.length b = length self.

(** ** [bst.py]: [draw] *)

Section Drawing.
Context {I : Type}.

(** Python's [prefix[:-2]] on a string given as its characters. *)
Definition drop_last2 (s : list Z) : list Z :=
  firstn (List.length s - 2) s.

(** [draw_aux]: the lines it prints, first to last.  A line is the
    characters of [real_prefix] (code points) and, for a node, the key that
    [str(current.key)] prints after them.  A node object is true in
    [current.left or current.right], as it is in the iterator's
    [while self.current]. *)
Fixpoint draw_aux (current : AVLTreeNode I) (prefix final : list Z)
  : list (list Z * option Z) :=
  match current with
  | Absent => [(drop_last2 prefix ++ final, None)]
  | Node l k _ _ _ r =>
      (drop_last2 prefix ++ final, Some k)
      :: match l, r with
         | Absent, Absent => []
         | _, _ =>
             draw_aux l (prefix ++ [9553; 32]) [9567; 9472]
             ++ draw_aux r (prefix ++ [32; 32]) [9561; 9472]
         end
  end.

(** [draw]: [self.draw_aux(self.root, prefix='', final='')]. *)
Definition draw (self : AVLTree I) : list (list Z * option Z) :=
  draw_aux (root self) [] [].

(** The keys of the printed lines, in the order printed. *)
Definition printed_keys (lines : list (list Z * option Z)) : list Z :=
  flat_map (fun ln => match snd ln with Some k => [k] | None => [] end) lines.

(** Keys in pre-order: a node, then its left subtree, then its right one. *)
Fixpoint preorder (t : AVLTreeNode I) : list Z :=
  match t with
  | Absent => []
  | Node l k _ _ _ r => k :: preorder l ++ preorder r
  end.

(** Depth of the node or absent position each line is printed for, in the
    order of [draw_aux]. *)
Fixpoint drawn_depths (t : AVLTreeNode I) (d : nat) : list nat :=
  match t with
  | Absent => [d]
  | Node l _ _ _ _ r =>
      d :: match l, r with
           | Absent, Absent => []
           | _, _ => drawn_depths l (S d) ++ drawn_depths r (S d)
           end
  end.

End Drawing.

(** *** Concrete scenarios *)

(** Insertion of a key with the key itself as item. *)
Definition ins (k : Z) : op Z := Ins k k.

(** The tree state of a run that returned ([init] otherwise). *)
Definition state_of (o : outcome (AVLTree Z)) : AVLTree Z :=
  match o with Done self => self | _ => init end.

(** Scenario 1 of the spec: keys 5, 3, 8, 1, 4 inserted in this order. *)
Definition scenario1 : list (op Z) := [ins 5; ins 3; ins 8; ins 1; ins 4].

Definition tree1 : AVLTree Z := Eval vm_compute in state_of (run 3 scenario1).

(** Keys 3, 2, 1 inserted in this order: one right rotation at the root. *)
Definition descending3 : list (op Z) := [ins 3; ins 2; ins 1].

(** Eleven insertions after which the tree is not AVL-balanced. *)
Definition unbalancing : list (op Z) :=
  [ins 3; ins 1; ins 2; ins 10; ins 12; ins 5; ins 8; ins 0; ins 4; ins 11;
   ins 9].

(** The states these two runs return. *)
Definition rotated3 : AVLTree Z := Eval vm_compute in state_of (run 3 descending3).

Definition unbalanced : AVLTree Z := Eval vm_compute in state_of (run 3 unbalancing).

(** A right-leaning chain of three nodes, as [insert_aux] hands it to
    [rebalance] after the third of three ascending insertions. *)
Definition chain3 : AVLTreeNode Z :=
  Node Absent 10 10 3 3 (Node Absent 20 20 2 2 (Node Absent 30 30 1 1 Absent)).

(** Scenario 1 on the base class, and a tree of three nodes. *)
Definition base_tree1 : BinarySearchTree.BinarySearchTree Z :=
  Eval vm_compute in
    match BinarySearchTree.run 10 scenario1 with
    | Done b => b
    | _ => BinarySearchTree.init
    end.

Definition three : AVLTreeNode Z :=
  Node (Node Absent 3 3 1 1 Absent) 5 5 2 3 (Node Absent 8 8 1 1 Absent).

(** * Proofs *)

(** ** Strictly ascending lists *)

Lemma ascending_app_inv (l1 l2 : list Z) (x : Z) :
  StronglySorted Z.lt (l1 ++ x :: l2) ->
  StronglySorted Z.lt l1 /\ StronglySorted Z.lt l2
  /\ Forall (fun y => y < x) l1 /\ Forall (fun y => x < y) l2.
Proof.
  induction l1 as [|a l1 IH]; simpl; intros H.
  - inversion H; subst. repeat split; auto. constructor.
  - inversion H as [|? ? Hs Hf]; subst.
    destruct (IH Hs) as (S1 & S2 & F1 & F2).
    rewrite Forall_app in Hf. destruct Hf as [Hf1 Hf2].
    inversion Hf2; subst.
    repeat split; auto.
    constructor; auto.
Qed.

Lemma ascending_app (l1 l2 : list Z) :
  StronglySorted Z.lt l1 -> StronglySorted Z.lt l2 ->
  (forall a b, In a l1 -> In b l2 -> a < b) ->
  StronglySorted Z.lt (l1 ++ l2).
Proof.
  induction l1 as [|a l1 IH]; simpl; intros S1 S2 H; auto.
  inversion S1; subst.
  constructor.
  - apply IH; auto.
  - rewrite Forall_app. split; auto.
    rewrite Forall_forall. intros b Hb. apply H; auto.
Qed.

Lemma ascending_cons_inv (l : list Z) (x : Z) :
  StronglySorted Z.lt (x :: l) ->
  StronglySorted Z.lt l /\ Forall (fun y => x < y) l.
Proof. intros H; inversion H; subst; auto. Qed.

Lemma ascending_middle (l1 l2 : list Z) (x : Z) :
  StronglySorted Z.lt l1 -> StronglySorted Z.lt l2 ->
  Forall (fun y => y < x) l1 -> Forall (fun y => x < y) l2 ->
  StronglySorted Z.lt (l1 ++ x :: l2).
Proof.
  intros S1 S2 F1 F2.
  apply ascending_app; auto.
  - constructor; auto.
  - intros a b Ha [Hb|Hb].
    + subst. rewrite Forall_forall in F1. auto.
    + rewrite Forall_forall in F1, F2.
      specialize (F1 _ Ha). specialize (F2 _ Hb). lia.
Qed.

Lemma ascending_app_split (l1 l2 : list Z) :
  StronglySorted Z.lt (l1 ++ l2) ->
  StronglySorted Z.lt l1 /\ StronglySorted Z.lt l2
  /\ (forall a b, In a l1 -> In b l2 -> a < b).
Proof.
  induction l1 as [|a l1 IH]; simpl; intros H.
  - repeat split; auto. constructor. intros ? ? [].
  - inversion H as [|? ? Hs Hf]; subst.
    destruct (IH Hs) as (S1 & S2 & Hlt).
    rewrite Forall_app in Hf. destruct Hf as [Hf1 Hf2].
    repeat split; auto.
    + constructor; auto.
    + intros x b [Hx|Hx] Hb.
      * subst. rewrite Forall_forall in Hf2. auto.
      * auto.
Qed.

Lemma ascending_NoDup (l : list Z) : StronglySorted Z.lt l -> NoDup l.
Proof.
  induction 1 as [|a l Hs IH Hf]; constructor; auto.
  intros Hin. rewrite Forall_forall in Hf. specialize (Hf _ Hin). lia.
Qed.

Section Sizes.
Context {I : Type}.
Local Abbreviation tree := (AVLTreeNode I).

(** ** Sizes and counts *)

Lemma size_eq (l : tree) k v h s (r : tree) :
  size (Node l k v h s r)
  = (Node l k v h (size_of l + size_of r + 1) r, size_of l + size_of r + 1).
Proof.
  unfold size. destruct l, r; simpl; f_equal; try f_equal; lia.
Qed.

Lemma update_size_eq (l : tree) k v h s (r : tree) :
  update_size (Node l k v h s r) = Node l k v h (size_of l + size_of r + 1) r.
Proof. unfold update_size. rewrite size_eq. reflexivity. Qed.

Lemma count_node (l : tree) k v h s (r : tree) :
  count (Node l k v h s r) = count l + count r + 1.
Proof. unfold count. simpl. lia. Qed.

Lemma count_nonneg (t : tree) : 0 <= count t.
Proof. unfold count. lia. Qed.

Lemma sizes_ok_size_of (t : tree) : sizes_ok t -> size_of t = count t.
Proof. destruct t; simpl; [reflexivity | intros (H & _); exact H]. Qed.

Lemma sizes_ok_node (l : tree) k v h (r : tree) :
  sizes_ok l -> sizes_ok r ->
  sizes_ok (Node l k v h (size_of l + size_of r + 1) r).
Proof.
  intros Hl Hr. simpl. repeat split; auto.
  rewrite count_node, (sizes_ok_size_of l), (sizes_ok_size_of r); auto.
Qed.

Lemma size_fixed (t : tree) : sizes_ok t -> size t = (t, count t).
Proof.
  destruct t as [|l k v h s r]; [reflexivity|].
  intros (Hs & Hl & Hr). rewrite size_eq.
  rewrite (sizes_ok_size_of l), (sizes_ok_size_of r) by assumption.
  rewrite <- count_node with (k := k) (v := v) (h := h) (s := s).
  rewrite <- Hs. reflexivity.
Qed.

Lemma keys_node (l : tree) k v h s (r : tree) :
  keys (Node l k v h s r) = keys l ++ k :: keys r.
Proof. unfold keys. simpl. rewrite map_app. reflexivity. Qed.

Lemma length_elements (t : tree) : List.length (elements t) = nodes t.
Proof.
  induction t as [|l IHl k v h s r IHr]; simpl; auto.
  rewrite length_app. simpl. lia.
Qed.

Lemma length_keys (t : tree) : List.length (keys t) = nodes t.
Proof. unfold keys. rewrite length_map. apply length_elements. Qed.

End Sizes.

Section Rebalance.
Context {I : Type}.
Local Abbreviation tree := (AVLTreeNode I).

(** ** Rebalancing keeps the in-order sequence and repairs sizes *)

Lemma left_rotate_with_rebalanced (reb : tree -> outcome tree) :
  (forall t t', reb t = Done t' -> rebalanced t t') ->
  forall t t', left_rotate_with reb t = Done t' -> rebalanced t t'.
Proof.
  intros Hreb t t' H.
  destruct t as [|l k v h s [|c ck cv ch cs cr]]; try discriminate.
  cbn [left_rotate_with set_left set_right left_of right_of update_height
       set_height get_height] in H.
  rewrite !update_size_eq in H.
  cbn [left_of set_left size_of] in H. rewrite update_size_eq in H.
  apply Hreb in H. destruct H as (He & Hs).
  split.
  - rewrite He. simpl. rewrite <- app_assoc. reflexivity.
  - intros (Hl & Hr). simpl in Hl, Hr. destruct Hr as (_ & Hc & Hcr).
    apply Hs. split; simpl left_of; simpl right_of; auto.
    apply sizes_ok_node; auto.
Qed.

Lemma right_rotate_with_rebalanced (reb : tree -> outcome tree) :
  (forall t t', reb t = Done t' -> rebalanced t t') ->
  forall t t', right_rotate_with reb t = Done t' -> rebalanced t t'.
Proof.
  intros Hreb t t' H.
  destruct t as [|[|cl ck cv ch cs c] k v h s r]; try discriminate.
  cbn [right_rotate_with set_left set_right left_of right_of update_height
       set_height get_height] in H.
  rewrite !update_size_eq in H.
  cbn [right_of set_right size_of] in H. rewrite update_size_eq in H.
  apply Hreb in H. destruct H as (He & Hs).
  split.
  - rewrite He. simpl. rewrite <- app_assoc. reflexivity.
  - intros (Hl & Hr). simpl in Hl, Hr. destruct Hl as (_ & Hcl & Hc).
    apply Hs. split; simpl left_of; simpl right_of; auto.
    apply sizes_ok_node; auto.
Qed.

Lemma rebalance_with_rebalanced (reb : tree -> outcome tree) :
  (forall t t', reb t = Done t' -> rebalanced t t') ->
  forall t t', rebalance_with reb t = Done t' -> rebalanced t t'.
Proof.
  intros Hreb t t' H.
  destruct t as [|l k v h s r]; try discriminate.
  unfold rebalance_with in H. rewrite update_size_eq in H.
  cbn [get_balance right_of left_of] in H.
  destruct (get_height r - get_height l >=? 2).
  - destruct r as [|cl ck cv ch cs cr]; try discriminate.
    destruct (get_height cl >? get_height cr).
    + destruct (right_rotate_with reb (Node cl ck cv ch cs cr)) as [c'| | |] eqn:E;
        try discriminate.
      apply (right_rotate_with_rebalanced reb Hreb) in E.
      cbn [set_right] in H.
      apply (left_rotate_with_rebalanced reb Hreb) in H.
      destruct E as (Ee & Es). destruct H as (He & Hs).
      split.
      * rewrite He. simpl. rewrite Ee. reflexivity.
      * intros (Hl & Hr). simpl in Hl, Hr. apply Hs. split; simpl; auto.
        apply Es. split; simpl; tauto.
    + apply (left_rotate_with_rebalanced reb Hreb) in H.
      destruct H as (He & Hs). split; auto.
  - destruct (get_height r - get_height l <=? -2).
    + destruct l as [|cl ck cv ch cs cr]; try discriminate.
      destruct (get_height cr >? get_height cl).
      * destruct (left_rotate_with reb (Node cl ck cv ch cs cr)) as [c'| | |] eqn:E;
          try discriminate.
        apply (left_rotate_with_rebalanced reb Hreb) in E.
        cbn [set_left] in H.
        apply (right_rotate_with_rebalanced reb Hreb) in H.
        destruct E as (Ee & Es). destruct H as (He & Hs).
        split.
        -- rewrite He. simpl. rewrite Ee. reflexivity.
        -- intros (Hl & Hr). simpl in Hl, Hr. apply Hs. split; simpl; auto.
           apply Es. split; simpl; tauto.
      * apply (right_rotate_with_rebalanced reb Hreb) in H.
        destruct H as (He & Hs). split; auto.
    + inversion H; subst. split; auto.
      intros (Hl & Hr). apply sizes_ok_node; auto.
Qed.

Lemma rebalance_rebalanced (fuel : nat) (t t' : tree) :
  rebalance fuel t = Done t' -> rebalanced t t'.
Proof.
  revert t t'. induction fuel as [|fuel IH]; intros t t' H; [discriminate|].
  simpl in H. eapply rebalance_with_rebalanced; eauto.
Qed.

End Rebalance.

Section Termination.
Context {I : Type}.
Local Abbreviation tree := (AVLTreeNode I).

(** ** Fuel monotonicity *)

Lemma left_rotate_with_extends (reb reb' : tree -> outcome tree) :
  extends reb reb' -> extends (left_rotate_with reb) (left_rotate_with reb').
Proof.
  intros H t t'. unfold left_rotate_with.
  destruct t as [|? ? ? ? ? [|]]; try discriminate. apply H.
Qed.

Lemma right_rotate_with_extends (reb reb' : tree -> outcome tree) :
  extends reb reb' -> extends (right_rotate_with reb) (right_rotate_with reb').
Proof.
  intros H t t'. unfold right_rotate_with.
  destruct t as [|[|] ? ? ? ? ?]; try discriminate. apply H.
Qed.

Lemma rebalance_with_extends (reb reb' : tree -> outcome tree) :
  extends reb reb' -> extends (rebalance_with reb) (rebalance_with reb').
Proof.
  intros H t t'. unfold rebalance_with.
  destruct t as [|l k v h s r]; try discriminate.
  destruct (_ >=? 2).
  - destruct (right_of _) as [|cl ? ? ? ? cr]; try discriminate.
    destruct (_ >? _); [|apply left_rotate_with_extends; auto].
    destruct (right_rotate_with reb _) eqn:E; try discriminate.
    apply (right_rotate_with_extends _ _ H) in E. rewrite E.
    apply left_rotate_with_extends; auto.
  - destruct (_ <=? -2); [|auto].
    destruct (left_of _) as [|cl ? ? ? ? cr]; try discriminate.
    destruct (_ >? _); [|apply right_rotate_with_extends; auto].
    destruct (left_rotate_with reb _) eqn:E; try discriminate.
    apply (left_rotate_with_extends _ _ H) in E. rewrite E.
    apply right_rotate_with_extends; auto.
Qed.

Lemma rebalance_S (fuel : nat) :
  @extends I (rebalance fuel) (rebalance (S fuel)).
Proof.
  induction fuel as [|fuel IH]; intros t t' H; [discriminate|].
  change (rebalance_with (rebalance (S fuel)) t = Done t').
  change (rebalance_with (rebalance fuel) t = Done t') in H.
  eapply rebalance_with_extends; eauto.
Qed.

Lemma rebalance_mono (fuel fuel' : nat) :
  (fuel <= fuel')%nat -> @extends I (rebalance fuel) (rebalance fuel').
Proof.
  induction 1 as [|m _ IH]; intros t t' H; auto.
  apply rebalance_S. auto.
Qed.


(** One call of [rebalance], by case *)

Lemma rebalance_balanced (fuel : nat) (l : tree) k v h s (r : tree) :
  -1 <= get_height r - get_height l <= 1 ->
  rebalance (S fuel) (Node l k v h s r) = Done (update_size (Node l k v h s r)).
Proof.
  intros Hb. cbn [rebalance]. unfold rebalance_with. rewrite update_size_eq.
  cbn [get_balance].
  destruct (_ >=? 2) eqn:E1; [lia|].
  destruct (_ <=? -2) eqn:E2; [lia|]. reflexivity.
Qed.

Lemma rebalance_right_simple (l : tree) k v h s
      (rl : tree) rk rv rh rs (rr : tree) :
  2 <= rh - get_height l -> get_height rl <= get_height rr ->
  exists s1 s2, forall fuel,
    rebalance (S fuel) (Node l k v h s (Node rl rk rv rh rs rr))
    = rebalance fuel
        (Node (Node l k v (Z.max (get_height l) (get_height rl) + 1) s1 rl)
              rk rv
              (Z.max (Z.max (get_height l) (get_height rl) + 1) (get_height rr) + 1)
              s2 rr).
Proof.
  intros Hb Hc. do 2 eexists. intros fuel.
  cbn [rebalance]. unfold rebalance_with. rewrite update_size_eq.
  cbn [get_balance get_height right_of].
  destruct (_ >=? 2) eqn:E1; [|lia].
  destruct (_ >? _) eqn:E2; [lia|].
  cbn [left_rotate_with set_left set_right left_of right_of update_height
       set_height get_height].
  rewrite !update_size_eq. cbn [left_of set_left]. rewrite update_size_eq.
  reflexivity.
Qed.

Lemma rebalance_right_double (l : tree) k v h s
      (a : tree) ak av ah as_ (b : tree) rk rv rh rs (rr : tree) :
  2 <= rh - get_height l -> get_height rr < ah ->
  exists s1 s2,
    forall (X : tree) xk xv xh xs (Y : tree),
    exists s3 s4, forall fuel,
      rebalance fuel
        (Node a ak av (Z.max (get_height a) rh + 1) s1
              (Node b rk rv (Z.max (get_height b) (get_height rr) + 1) s2 rr))
      = Done (Node X xk xv xh xs Y) ->
      rebalance (S fuel)
        (Node l k v h s (Node (Node a ak av ah as_ b) rk rv rh rs rr))
      = rebalance fuel
          (Node (Node l k v (Z.max (get_height l) (get_height X) + 1) s3 X)
                xk xv
                (Z.max (Z.max (get_height l) (get_height X) + 1) (get_height Y) + 1)
                s4 Y).
Proof.
  intros Hb Hc. do 2 eexists. intros X xk xv xh xs Y. do 2 eexists.
  intros fuel HU.
  cbn [rebalance]. unfold rebalance_with. rewrite update_size_eq.
  cbn [get_balance get_height right_of].
  destruct (_ >=? 2) eqn:E1; [|lia].
  destruct (_ >? _) eqn:E2; [|lia].
  cbn [right_rotate_with set_left set_right left_of right_of update_height
       set_height get_height].
  rewrite !update_size_eq. cbn [right_of set_right]. rewrite update_size_eq.
  rewrite HU.
  cbn [left_rotate_with set_left set_right left_of right_of update_height
       set_height get_height].
  rewrite !update_size_eq. cbn [left_of set_left]. rewrite update_size_eq.
  reflexivity.
Qed.

Lemma rebalance_left_simple (ll : tree) lk lv lh ls (lr : tree)
      k v h s (r : tree) :
  get_height r - lh <= -2 -> get_height lr <= get_height ll ->
  exists s1 s2, forall fuel,
    rebalance (S fuel) (Node (Node ll lk lv lh ls lr) k v h s r)
    = rebalance fuel
        (Node ll lk lv (Z.max (get_height ll) h + 1) s2
              (Node lr k v (Z.max (get_height lr) (get_height r) + 1) s1 r)).
Proof.
  intros Hb Hc. do 2 eexists. intros fuel.
  cbn [rebalance]. unfold rebalance_with. rewrite update_size_eq.
  cbn [get_balance get_height right_of left_of].
  destruct (_ >=? 2) eqn:E1; [lia|].
  destruct (_ <=? -2) eqn:E3; [|lia].
  destruct (_ >? _) eqn:E2; [lia|].
  cbn [right_rotate_with set_left set_right left_of right_of update_height
       set_height get_height].
  rewrite !update_size_eq. cbn [right_of set_right]. rewrite update_size_eq.
  reflexivity.
Qed.

Lemma rebalance_left_double (ll : tree) lk lv lh ls
      (a : tree) ak av ah as_ (b : tree) k v h s (r : tree) :
  get_height r - lh <= -2 -> get_height ll < ah ->
  exists s1 s2,
    forall (X : tree) xk xv xh xs (Y : tree),
    exists s3 s4, forall fuel,
      rebalance fuel
        (Node (Node ll lk lv (Z.max (get_height ll) (get_height a) + 1) s1 a)
              ak av
              (Z.max (Z.max (get_height ll) (get_height a) + 1) (get_height b) + 1)
              s2 b)
      = Done (Node X xk xv xh xs Y) ->
      rebalance (S fuel)
        (Node (Node ll lk lv lh ls (Node a ak av ah as_ b)) k v h s r)
      = rebalance fuel
          (Node X xk xv (Z.max (get_height X) h + 1) s4
                (Node Y k v (Z.max (get_height Y) (get_height r) + 1) s3 r)).
Proof.
  intros Hb Hc. do 2 eexists. intros X xk xv xh xs Y. do 2 eexists.
  intros fuel HU.
  cbn [rebalance]. unfold rebalance_with. rewrite update_size_eq.
  cbn [get_balance get_height right_of left_of].
  destruct (_ >=? 2) eqn:E1; [lia|].
  destruct (_ <=? -2) eqn:E3; [|lia].
  destruct (_ >? _) eqn:E2; [|lia].
  cbn [left_rotate_with set_left set_right left_of right_of update_height
       set_height get_height].
  rewrite !update_size_eq. cbn [left_of set_left]. rewrite update_size_eq.
  rewrite HU.
  cbn [right_rotate_with set_left set_right left_of right_of update_height
       set_height get_height].
  rewrite !update_size_eq. cbn [right_of set_right]. rewrite update_size_eq.
  reflexivity.
Qed.

(** ** Termination of [rebalance] on dominated trees *)

Lemma dominated_height_nonneg (t : tree) : dominated t -> 0 <= get_height t.
Proof.
  induction t as [|l IHl k v h s r IHr]; cbn [dominated get_height]; [lia|].
  intros (Hl & Hr & Dl & Dr). specialize (IHl Dl). lia.
Qed.

Lemma dominated_label_sum_nonneg (t : tree) : dominated t -> 0 <= label_sum t.
Proof.
  induction t as [|l IHl k v h s r IHr]; cbn [dominated label_sum]; [lia|].
  intros (Hl & Hr & Dl & Dr).
  pose proof (dominated_height_nonneg l Dl).
  specialize (IHl Dl). specialize (IHr Dr). lia.
Qed.

Lemma positive_height_node (t : tree) :
  1 <= get_height t -> exists l k v s r, t = Node l k v (get_height t) s r.
Proof. destruct t; simpl; [lia|]. eauto 10. Qed.

Ltac norm :=
  unfold below, fresh in *;
  cbn [label_sum left_of right_of get_height get_balance nodes dominated
       is_node] in *.

Lemma settled_balanced (l : tree) k v h s (r : tree) :
  dominated l -> dominated r -> -1 <= get_height r - get_height l <= 1 ->
  settled (Node l k v h s r) (update_size (Node l k v h s r)).
Proof.
  intros Dl Dr Hb. unfold settled, shape. rewrite update_size_eq. norm.
  repeat split; auto; try lia.
Qed.

Lemma settled_step (t v t' : tree) :
  settled v t' -> nodes v = nodes t -> below v < below t -> fresh v <= fresh t ->
  (fresh t <= get_height t -> fresh v <= get_height v) ->
  settled t t'.
Proof.
  intros (N & Hn & Dl & Dr & Hb & Hs & Hf & Hr & Hsh) En Es Ef Er.
  unfold settled. repeat split; auto; try lia.
Qed.

(** [x] stands for [Z.max a b + 1]: record that it exceeds [a] and [b]. *)
Ltac exceeds x :=
  let v := eval unfold x in x in
  lazymatch v with
  | Z.max ?a ?b + 1 =>
      assert (a < x) by (unfold x; apply Z.lt_succ_r, Z.le_max_l);
      assert (b < x) by (unfold x; apply Z.lt_succ_r, Z.le_max_r)
  end.

Lemma max_succ_le (a b c : Z) : a < c -> b < c -> Z.max a b + 1 <= c.
Proof. lia. Qed.

Lemma rebalance_settles (n : nat) :
  forall (m : nat) (t : tree),
    (nodes t < n)%nat -> below t < Z.of_nat m -> is_node t ->
    dominated (left_of t) -> dominated (right_of t) ->
    exists fuel t', rebalance fuel t = Done t' /\ settled t t'.
Proof.
  induction n as [|n IHn]; [intros; lia|].
  induction m as [|m IHm]; intros t Hn Hm Hnode Dl Dr.
  { exfalso. unfold below in Hm.
    pose proof (dominated_label_sum_nonneg _ Dl).
    pose proof (dominated_label_sum_nonneg _ Dr). lia. }
  destruct t as [|l k v h s r]; [destruct Hnode|]. clear Hnode.
  cbn [left_of right_of] in Dl, Dr.
  pose proof (dominated_height_nonneg l Dl) as Pl.
  pose proof (dominated_height_nonneg r Dr) as Pr.
  destruct (Z_le_dec 2 (get_height r - get_height l)) as [HR|HR].
  - (* right-heavy *)
    destruct (positive_height_node r) as (rl & rk & rv & rs & rr & Er); [lia|].
    remember (get_height r) as rh eqn:Erh. subst r. clear Erh.
    cbn [dominated] in Dr. destruct Dr as (Hr1 & Hr2 & Drl & Drr).
    pose proof (dominated_height_nonneg rl Drl) as Prl.
    pose proof (dominated_height_nonneg rr Drr) as Prr.
    destruct (Z_le_dec (get_height rl) (get_height rr)) as [HC|HC].
    + (* single rotation *)
      destruct (rebalance_right_simple l k v h s rl rk rv rh rs rr HR HC)
        as (s1 & s2 & E).
      set (h1 := Z.max (get_height l) (get_height rl) + 1) in *.
      exceeds h1.
      assert (Hh1 : h1 <= rh) by (apply max_succ_le; lia).
      assert (Eh1 : h1 = rh -> get_height rl = rh - 1) by (unfold h1; lia).
      clearbody h1.
      set (h2 := Z.max h1 (get_height rr) + 1) in *.
      assert (Rh2 : 1 + Z.max h1 (get_height rr) <= h2) by (unfold h2; lia).
      clearbody h2.
      destruct (Z_lt_dec h1 rh) as [Hlt|Hlt].
      * destruct (IHm (Node (Node l k v h1 s1 rl) rk rv h2 s2 rr))
          as (f & t' & Hf & St).
        { norm. lia. }
        { norm. lia. }
        { exact Logic.I. }
        { norm. repeat split; auto. }
        { norm. auto. }
        exists (S f), t'. split; [rewrite E; exact Hf|].
        apply (settled_step _ _ _ St).
        -- norm. lia.
        -- norm. lia.
        -- norm. clear - Hh1 Hr2. lia.
        -- intros _. exact Rh2.
      * assert (Ex : h1 = rh) by lia. specialize (Eh1 Ex).
        exists 2%nat. eexists. split.
        { rewrite E. apply rebalance_balanced. cbn [get_height]. lia. }
        rewrite update_size_eq. unfold settled.
        split; [exact Logic.I|]. split; [norm; lia|].
        split; [norm; auto|]. split; [norm; auto|].
        split; [norm; lia|]. split; [norm; lia|].
        split; [norm; clear - Hh1 Hr2; lia|].
        split; [intros _; exact Rh2|].
        intros _. right. left. norm. lia.
    + (* double rotation *)
      destruct (positive_height_node rl) as (a & ak & av & as_ & b & Ea); [lia|].
      remember (get_height rl) as ah eqn:Eah. subst rl. clear Eah.
      cbn [dominated] in Drl. destruct Drl as (Ha1 & Ha2 & Da & Db).
      pose proof (dominated_height_nonneg a Da) as Pa.
      pose proof (dominated_height_nonneg b Db) as Pb.
      destruct (rebalance_right_double l k v h s a ak av ah as_ b rk rv rh rs rr)
        as (s1 & s2 & E); [lia|lia|].
      set (u := Z.max (get_height b) (get_height rr) + 1) in *.
      exceeds u.
      assert (Hu : u <= ah) by (apply max_succ_le; lia).
      clearbody u.
      set (z0 := Z.max (get_height a) rh + 1) in *. clearbody z0.
      destruct (IHn (S (Z.to_nat (below (Node a ak av z0 s1 (Node b rk rv u s2 rr)))))
                    (Node a ak av z0 s1 (Node b rk rv u s2 rr)))
        as (f1 & R' & Hf1 & St1).
      { norm. lia. }
      { lia. }
      { exact Logic.I. }
      { norm. auto. }
      { norm. repeat split; auto. }
      destruct St1 as (N1 & Hn1 & DX & DY & Hb1 & Hs1 & Hfr1 & _ & Hsh1).
      destruct R' as [|X xk xv xh xs Y]; [destruct N1|]. clear N1.
      norm.
      assert (HXa : get_height X <= ah) by (clear - Hfr1 Ha1 Hu; lia).
      assert (HYa : get_height Y <= ah) by (clear - Hfr1 Ha1 Hu; lia).
      clear Hfr1.
      pose proof (dominated_height_nonneg X DX) as PX.
      pose proof (dominated_height_nonneg Y DY) as PY.
      destruct (E X xk xv xh xs Y) as (s3 & s4 & E'). clear E.
      set (t1 := Z.max (get_height l) (get_height X) + 1) in *.
      exceeds t1.
      assert (Ht1 : t1 <= rh) by (apply max_succ_le; lia).
      assert (Et1 : t1 = rh -> get_height X = ah /\ rh = ah + 1)
        by (unfold t1; lia).
      clearbody t1.
      set (hV := Z.max t1 (get_height Y) + 1) in *.
      assert (RhV : 1 + Z.max t1 (get_height Y) <= hV) by (unfold hV; lia).
      assert (EhV' : get_height Y < t1 -> hV = t1 + 1) by (unfold hV; lia).
      clearbody hV.
      destruct (Z_lt_dec (t1 + label_sum X + label_sum Y)
                         (rh + (ah + label_sum a + label_sum b) + label_sum rr))
        as [Hlt|Hlt].
      * destruct (IHm (Node (Node l k v t1 s3 X) xk xv hV s4 Y))
          as (f2 & t' & Hf2 & St).
        { norm. lia. }
        { norm. lia. }
        { exact Logic.I. }
        { norm. repeat split; auto. }
        { norm. auto. }
        exists (S (Nat.max f1 f2)), t'. split.
        { rewrite E'.
          - eapply rebalance_mono; [|exact Hf2]. lia.
          - eapply rebalance_mono; [|exact Hf1]. lia. }
        apply (settled_step _ _ _ St).
        -- norm. lia.
        -- norm. lia.
        -- norm. clear - Ht1 HYa Hr1. lia.
        -- intros _. exact RhV.
      * (* the rotation leaves the label sum unchanged: the next call
           rotates the other way and lowers it *)
        clear RhV.
        assert (Ex : t1 = rh) by lia.
        assert (Eu : u = ah) by lia.
        assert (Hsum : label_sum X + label_sum Y
                       = label_sum a + (u + label_sum b + label_sum rr)) by lia.
        destruct (Et1 Ex) as (EX & Erh). clear Et1.
        specialize (Hsh1 Hsum). unfold shape in Hsh1. norm.
        destruct Hsh1 as [(Hb & Eq)|[(Hb & S1 & S2 & S3 & S4)|(Hb & _)]];
          [rewrite update_size_eq in Eq; inversion Eq; subst; lia | | lia].
        destruct (positive_height_node X) as (A' & xk' & xv' & xs' & X' & EqX);
          [lia|].
        remember (get_height X) as xh0 eqn:Exh0. subst X. clear Exh0.
        norm. destruct DX as (HX1 & HX2 & DA' & DX').
        specialize (EhV' ltac:(lia)).
        destruct (rebalance_left_double l k v t1 s3 A' xk' xv' xh0 xs' X'
                    xk xv hV s4 Y)
          as (s5 & s6 & E2); [lia|lia|].
        set (w := Z.max (get_height l) (get_height A') + 1) in *.
        exceeds w.
        assert (Hw : w <= xh0) by (apply max_succ_le; lia).
        clearbody w.
        set (z1 := Z.max w (get_height X') + 1) in *. clearbody z1.
        destruct (IHn (S (Z.to_nat (below (Node (Node l k v w s5 A') xk' xv'
                                   z1 s6 X'))))
                      (Node (Node l k v w s5 A') xk' xv' z1 s6 X'))
          as (f3 & T'' & Hf3 & St3).
        { norm. lia. }
        { norm. lia. }
        { exact Logic.I. }
        { norm. repeat split; auto. }
        { norm. auto. }
        destruct St3 as (N3 & Hn3 & DP & DQ & Hb3 & Hs3 & Hfr3 & _ & Hsh3).
        destruct T'' as [|P pk pv ph ps Q]; [destruct N3|]. clear N3.
        norm.
        assert (HPa : get_height P <= xh0) by (clear - Hfr3 Hw HX2; lia).
        assert (HQa : get_height Q <= xh0) by (clear - Hfr3 Hw HX2; lia).
        clear Hfr3.
        destruct (E2 P pk pv ph ps Q) as (s7 & s8 & E2'). clear E2.
        set (q1 := Z.max (get_height Q) (get_height Y) + 1) in *.
        exceeds q1.
        assert (Hq1 : q1 <= rh) by (apply max_succ_le; lia).
        assert (Eq1 : get_height Q < xh0 -> q1 < rh) by (unfold q1; lia).
        clearbody q1.
        set (zV := Z.max (get_height P) hV + 1) in *.
        assert (HzV : hV < zV) by (unfold zV; lia).
        clearbody zV.
        assert (Hstrict :
                  label_sum P + (q1 + label_sum Q + label_sum Y)
                  < label_sum l
                    + (rh + (ah + label_sum a + label_sum b) + label_sum rr)).
        { destruct (Z_lt_dec w xh0) as [Hw'|Hw']; [lia|].
          destruct (Z_lt_dec (label_sum P + label_sum Q)
                             (w + label_sum l + label_sum A' + label_sum X'))
            as [Hp|Hp]; [lia|].
          assert (Hsum3 : label_sum P + label_sum Q
                          = w + label_sum l + label_sum A' + label_sum X') by lia.
          specialize (Hsh3 Hsum3). unfold shape in Hsh3. norm.
          destruct Hsh3 as [(Hb' & Eq)|[(Hb' & _)|(Hb' & _)]]; [|lia|lia].
          rewrite update_size_eq in Eq. inversion Eq; subst.
          specialize (Eq1 ltac:(lia)). lia. }
        destruct (IHm (Node P pk pv zV s8 (Node Q xk xv q1 s7 Y)))
          as (f4 & t' & Hf4 & St).
        { norm. lia. }
        { norm. lia. }
        { exact Logic.I. }
        { norm. auto. }
        { norm. repeat split; auto. }
        exists (S (S (Nat.max f1 (Nat.max f3 f4)))), t'. split.
        { rewrite E'.
          - rewrite E2'.
            + eapply rebalance_mono; [|exact Hf4]. lia.
            + eapply rebalance_mono; [|exact Hf3]. lia.
          - eapply rebalance_mono; [|exact Hf1]. lia. }
        apply (settled_step _ _ _ St).
        -- norm. lia.
        -- norm. lia.
        -- norm. clear - HPa Hq1 EX Erh. lia.
        -- intros _. norm. clear - HPa Hq1 EX Erh HzV EhV' Ex. lia.
  - destruct (Z_le_dec (get_height r - get_height l) (-2)) as [HL|HL].
    2:{ (* balanced *)
        exists 1%nat. eexists. split.
        - apply rebalance_balanced. lia.
        - apply settled_balanced; auto. lia. }
    (* left-heavy *)
    clear HR.
    destruct (positive_height_node l) as (ll & lk & lv & ls & lr & El); [lia|].
    remember (get_height l) as lh eqn:Elh. subst l. clear Elh.
    cbn [dominated] in Dl. destruct Dl as (Hl1 & Hl2 & Dll & Dlr).
    pose proof (dominated_height_nonneg ll Dll) as Pll.
    pose proof (dominated_height_nonneg lr Dlr) as Plr.
    destruct (Z_le_dec (get_height lr) (get_height ll)) as [HC|HC].
    + (* single rotation *)
      destruct (rebalance_left_simple ll lk lv lh ls lr k v h s r HL HC)
        as (s1 & s2 & E).
      set (h1 := Z.max (get_height lr) (get_height r) + 1) in *.
      exceeds h1.
      assert (Hh1 : h1 <= lh) by (apply max_succ_le; lia).
      assert (Eh1 : h1 = lh -> get_height lr = lh - 1) by (unfold h1; lia).
      clearbody h1.
      set (h2 := Z.max (get_height ll) h + 1) in *.
      assert (Rh2 : 1 + Z.max lh (get_height r) <= h ->
                    1 + Z.max (get_height ll) h1 <= h2)
        by (clear - Hh1; unfold h2; lia).
      clearbody h2.
      destruct (Z_lt_dec h1 lh) as [Hlt|Hlt].
      * destruct (IHm (Node ll lk lv h2 s2 (Node lr k v h1 s1 r)))
          as (f & t' & Hf & St).
        { norm. lia. }
        { norm. clear Rh2. lia. }
        { exact Logic.I. }
        { norm. auto. }
        { norm. repeat split; auto. }
        exists (S f), t'. split; [rewrite E; exact Hf|].
        apply (settled_step _ _ _ St).
        -- norm. lia.
        -- norm. clear Rh2. lia.
        -- norm. clear - Hh1 Hl1. lia.
        -- exact Rh2.
      * assert (Ex : h1 = lh) by (clear Rh2; lia). specialize (Eh1 Ex).
        exists 2%nat. eexists. split.
        { rewrite E. apply rebalance_balanced. cbn [get_height].
          clear Rh2. lia. }
        rewrite update_size_eq. unfold settled.
        split; [exact Logic.I|]. split; [norm; lia|].
        split; [norm; auto|]. split; [norm; auto|].
        split; [norm; clear Rh2; lia|]. split; [norm; clear Rh2; lia|].
        split; [norm; clear - Hh1 Hl1; lia|].
        split; [exact Rh2|].
        intros _. right. right. norm. clear Rh2. lia.
    + (* double rotation *)
      destruct (positive_height_node lr) as (a & ak & av & as_ & b & Ea); [lia|].
      remember (get_height lr) as ah eqn:Eah. subst lr. clear Eah.
      cbn [dominated] in Dlr. destruct Dlr as (Ha1 & Ha2 & Da & Db).
      pose proof (dominated_height_nonneg a Da) as Pa.
      pose proof (dominated_height_nonneg b Db) as Pb.
      destruct (rebalance_left_double ll lk lv lh ls a ak av ah as_ b k v h s r)
        as (s1 & s2 & E); [lia|lia|].
      set (u := Z.max (get_height ll) (get_height a) + 1) in *.
      exceeds u.
      assert (Hu : u <= ah) by (apply max_succ_le; lia).
      clearbody u.
      set (z0 := Z.max u (get_height b) + 1) in *. clearbody z0.
      destruct (IHn (S (Z.to_nat (below (Node (Node ll lk lv u s1 a) ak av z0 s2 b))))
                    (Node (Node ll lk lv u s1 a) ak av z0 s2 b))
        as (f1 & R' & Hf1 & St1).
      { norm. lia. }
      { lia. }
      { exact Logic.I. }
      { norm. repeat split; auto. }
      { norm. auto. }
      destruct St1 as (N1 & Hn1 & DX & DY & Hb1 & Hs1 & Hfr1 & _ & Hsh1).
      destruct R' as [|X xk xv xh xs Y]; [destruct N1|]. clear N1.
      norm.
      assert (HXa : get_height X <= ah) by (clear - Hfr1 Ha2 Hu; lia).
      assert (HYa : get_height Y <= ah) by (clear - Hfr1 Ha2 Hu; lia).
      clear Hfr1.
      pose proof (dominated_height_nonneg X DX) as PX.
      pose proof (dominated_height_nonneg Y DY) as PY.
      destruct (E X xk xv xh xs Y) as (s3 & s4 & E'). clear E.
      set (t1 := Z.max (get_height Y) (get_height r) + 1) in *.
      exceeds t1.
      assert (Ht1 : t1 <= lh) by (apply max_succ_le; lia).
      assert (Et1 : t1 = lh -> get_height Y = ah /\ lh = ah + 1)
        by (unfold t1; lia).
      clearbody t1.
      set (hV := Z.max (get_height X) h + 1) in *.
      assert (RhV : 1 + Z.max lh (get_height r) <= h ->
                    1 + Z.max (get_height X) t1 <= hV)
        by (clear - Ht1; unfold hV; lia).
      clearbody hV.
      destruct (Z_lt_dec (label_sum X + (t1 + label_sum Y))
                         (lh + label_sum ll + (ah + label_sum a + label_sum b)))
        as [Hlt|Hlt].
      * destruct (IHm (Node X xk xv hV s4 (Node Y k v t1 s3 r)))
          as (f2 & t' & Hf2 & St).
        { norm. lia. }
        { norm. clear RhV. lia. }
        { exact Logic.I. }
        { norm. auto. }
        { norm. repeat split; auto. }
        exists (S (Nat.max f1 f2)), t'. split.
        { rewrite E'.
          - eapply rebalance_mono; [|exact Hf2]. lia.
          - eapply rebalance_mono; [|exact Hf1]. lia. }
        apply (settled_step _ _ _ St).
        -- norm. lia.
        -- norm. clear RhV. lia.
        -- norm. clear - HXa Ht1 Hl2. lia.
        -- exact RhV.
      * clear RhV.
        assert (Ex : t1 = lh) by lia.
        assert (Eu : u = ah) by lia.
        assert (Hsum : label_sum X + label_sum Y
                       = u + label_sum ll + label_sum a + label_sum b) by lia.
        destruct (Et1 Ex) as (EY & Elh). clear Et1.
        specialize (Hsh1 Hsum). unfold shape in Hsh1. norm.
        destruct Hsh1 as [(Hb & Eq)|[(Hb & _)|(Hb & S1 & S2 & S3 & S4)]];
          [rewrite update_size_eq in Eq; inversion Eq; subst; lia | lia | ].
        destruct (positive_height_node Y) as (Y' & yk' & yv' & ys' & B' & EqY);
          [lia|].
        remember (get_height Y) as yh0 eqn:Eyh0. subst Y. clear Eyh0.
        norm. destruct DY as (HY1 & HY2 & DY' & DB').
        destruct (rebalance_right_double X xk xv hV s4 Y' yk' yv' yh0 ys' B'
                    k v t1 s3 r)
          as (s5 & s6 & E2); [lia|lia|].
        set (w := Z.max (get_height B') (get_height r) + 1) in *.
        exceeds w.
        assert (Hw : w <= yh0) by (apply max_succ_le; lia).
        clearbody w.
        set (z1 := Z.max (get_height Y') t1 + 1) in *. clearbody z1.
        destruct (IHn (S (Z.to_nat (below (Node Y' yk' yv' z1 s5
                                   (Node B' k v w s6 r)))))
                      (Node Y' yk' yv' z1 s5 (Node B' k v w s6 r)))
          as (f3 & T'' & Hf3 & St3).
        { norm. lia. }
        { norm. lia. }
        { exact Logic.I. }
        { norm. auto. }
        { norm. repeat split; auto. }
        destruct St3 as (N3 & Hn3 & DP & DQ & Hb3 & Hs3 & Hfr3 & _ & Hsh3).
        destruct T'' as [|P pk pv ph ps Q]; [destruct N3|]. clear N3.
        norm.
        assert (HPa : get_height P <= yh0) by (clear - Hfr3 Hw HY1; lia).
        assert (HQa : get_height Q <= yh0) by (clear - Hfr3 Hw HY1; lia).
        clear Hfr3.
        destruct (E2 P pk pv ph ps Q) as (s7 & s8 & E2'). clear E2.
        set (q1 := Z.max (get_height X) (get_height P) + 1) in *.
        exceeds q1.
        assert (Hq1 : q1 <= lh) by (apply max_succ_le; lia).
        assert (Eq1 : get_height P < yh0 -> q1 < lh) by (unfold q1; lia).
        clearbody q1.
        set (zV := Z.max q1 (get_height Q) + 1) in *.
        assert (RzV : 1 + Z.max q1 (get_height Q) <= zV) by (unfold zV; lia).
        clearbody zV.
        assert (Hstrict :
                  q1 + label_sum X + label_sum P + label_sum Q
                  < lh + label_sum ll + (ah + label_sum a + label_sum b)
                    + label_sum r).
        { clear RzV.
          destruct (Z_lt_dec w yh0) as [Hw'|Hw']; [lia|].
          destruct (Z_lt_dec (label_sum P + label_sum Q)
                             (label_sum Y' + (w + label_sum B' + label_sum r)))
            as [Hp|Hp]; [lia|].
          assert (Hsum3 : label_sum P + label_sum Q
                          = label_sum Y' + (w + label_sum B' + label_sum r))
            by lia.
          specialize (Hsh3 Hsum3). unfold shape in Hsh3. norm.
          destruct Hsh3 as [(Hb' & Eq)|[(Hb' & _)|(Hb' & _)]]; [|lia|lia].
          rewrite update_size_eq in Eq. inversion Eq; subst.
          specialize (Eq1 ltac:(lia)). lia. }
        destruct (IHm (Node (Node X xk xv q1 s7 P) pk pv zV s8 Q))
          as (f4 & t' & Hf4 & St).
        { norm. lia. }
        { norm. clear RzV. lia. }
        { exact Logic.I. }
        { norm. repeat split; auto. }
        { norm. auto. }
        exists (S (S (Nat.max f1 (Nat.max f3 f4)))), t'. split.
        { rewrite E'.
          - rewrite E2'.
            + eapply rebalance_mono; [|exact Hf4]. lia.
            + eapply rebalance_mono; [|exact Hf3]. lia.
          - eapply rebalance_mono; [|exact Hf1]. lia. }
        apply (settled_step _ _ _ St).
        -- norm. lia.
        -- norm. clear RzV. lia.
        -- norm. clear - Hq1 HQa EY Elh. lia.
        -- intros _. exact RzV.
Qed.

Lemma rebalance_total (t : tree) :
  is_node t -> dominated (left_of t) -> dominated (right_of t) ->
  exists fuel t', rebalance fuel t = Done t' /\ settled t t'.
Proof.
  intros N Dl Dr.
  pose proof (dominated_label_sum_nonneg _ Dl).
  pose proof (dominated_label_sum_nonneg _ Dr).
  apply (rebalance_settles (S (nodes t)) (S (Z.to_nat (below t)))); auto.
  unfold below. lia.
Qed.

Lemma rebalance_settled (fuel : nat) (t t' : tree) :
  rebalance fuel t = Done t' ->
  dominated (left_of t) -> dominated (right_of t) -> settled t t'.
Proof.
  intros H Dl Dr.
  assert (N : is_node t).
  { destruct t; [|exact Logic.I]. destruct fuel; discriminate. }
  destruct (rebalance_total t N Dl Dr) as (f0 & t0 & H0 & St).
  apply (rebalance_mono fuel (Nat.max fuel f0)) in H; [|lia].
  apply (rebalance_mono f0 (Nat.max fuel f0)) in H0; [|lia].
  rewrite H in H0. inversion H0; subst. exact St.
Qed.

Lemma settled_dominated (t t' : tree) :
  settled t t' -> fresh t <= get_height t -> dominated t'.
Proof.
  intros (N & _ & Dl & Dr & _ & _ & _ & Hr & _) Hf.
  destruct t' as [|l k v h s r]; [destruct N|].
  specialize (Hr Hf). unfold fresh in Hr.
  cbn [left_of right_of get_height dominated] in *.
  repeat split; auto; lia.
Qed.

(** A node whose height has just been recomputed, handed to [rebalance]. *)
Lemma refreshed_rebalance_dominated (fuel : nat) (l : tree) k v s (r t' : tree) :
  rebalance fuel
    (Node l k v (Z.max (get_height l) (get_height r) + 1) s r) = Done t' ->
  dominated l -> dominated r -> dominated t'.
Proof.
  intros H Dl Dr. apply rebalance_settled in H; auto.
  eapply settled_dominated; eauto. unfold fresh.
  cbn [left_of right_of get_height]. lia.
Qed.

Lemma refreshed_rebalance_total (l : tree) k v s (r : tree) :
  dominated l -> dominated r ->
  exists fuel t',
    rebalance fuel
      (Node l k v (Z.max (get_height l) (get_height r) + 1) s r) = Done t'.
Proof.
  intros Dl Dr.
  destruct (rebalance_total
              (Node l k v (Z.max (get_height l) (get_height r) + 1) s r))
    as (f & t' & H & _); simpl; eauto.
Qed.

End Termination.

Section Mutation.
Context {I : Type}.
Local Abbreviation tree := (AVLTreeNode I).

(** ** Insertion *)

Lemma return_rebalance_done (fuel : nat) (t : tree) len t' len' :
  return_rebalance fuel t len = Done (t', len') ->
  rebalance fuel t = Done t' /\ len' = len.
Proof.
  unfold return_rebalance. destruct (rebalance fuel t); try discriminate.
  intros H; inversion H; auto.
Qed.

Lemma return_rebalance_intro (fuel : nat) (t t' : tree) len :
  rebalance fuel t = Done t' -> return_rebalance fuel t len = Done (t', len).
Proof. unfold return_rebalance. intros ->. reflexivity. Qed.

Lemma bst_node_inv (l : tree) k v h s (r : tree) :
  bst (Node l k v h s r) ->
  bst l /\ bst r
  /\ Forall (fun x => fst x < k) (elements l)
  /\ Forall (fun x => k < fst x) (elements r).
Proof.
  unfold bst. rewrite keys_node. intros H.
  apply ascending_app_inv in H. destruct H as (Hl & Hr & Fl & Fr).
  unfold keys in Fl, Fr. rewrite Forall_map in Fl, Fr. auto.
Qed.

Lemma bst_elements_intro (t : tree) (l1 l2 : list (Z * I)) k v :
  elements t = l1 ++ (k, v) :: l2 ->
  StronglySorted Z.lt (map fst l1) -> StronglySorted Z.lt (map fst l2) ->
  Forall (fun x => fst x < k) l1 -> Forall (fun x => k < fst x) l2 ->
  bst t.
Proof.
  intros He S1 S2 F1 F2. unfold bst, keys. rewrite He, map_app. simpl.
  apply ascending_middle; auto; rewrite Forall_map; auto.
Qed.

(** A node whose height has just been recomputed from its children, handed
    to [rebalance]: the three places where [insert_aux] and [delete_aux] do
    so. *)
Lemma refreshed_rebalanced (fuel : nat) (l : tree) k v s (r t' : tree) :
  rebalance fuel
    (Node l k v (Z.max (get_height l) (get_height r) + 1) s r) = Done t' ->
  sizes_ok l -> sizes_ok r -> dominated l -> dominated r ->
  elements t' = elements l ++ (k, v) :: elements r
  /\ sizes_ok t' /\ dominated t'.
Proof.
  intros H Sl Sr Dl Dr.
  pose proof (refreshed_rebalance_dominated _ _ _ _ _ _ _ H Dl Dr) as D.
  apply rebalance_rebalanced in H. destruct H as (He & Hs).
  split; [exact He|]. split; [|exact D].
  apply Hs. split; assumption.
Qed.

Lemma insert_aux_done (fuel : nat) (t : tree) len key item t' len' :
  insert_aux fuel t len key item = Done (t', len') ->
  bst t -> sizes_ok t -> dominated t ->
  len' = len + 1 /\ sizes_ok t' /\ dominated t'
  /\ exists l1 l2,
      elements t = l1 ++ l2 /\ elements t' = l1 ++ (key, item) :: l2
      /\ Forall (fun x => fst x < key) l1
      /\ Forall (fun x => key < fst x) l2.
Proof.
  revert len t' len'.
  induction t as [|l IHl k v h s r IHr]; intros len t' len' H B Sz Hp.
  - cbn [insert_aux] in H. apply return_rebalance_done in H.
    destruct H as (H & ->). unfold new_node in H.
    cbn [update_height set_height left_of right_of] in H.
    rewrite update_size_eq in H.
    apply refreshed_rebalanced in H; simpl; auto.
    destruct H as (He & Hs & Hh).
    repeat split; auto. exists [], []. simpl in *. auto.
  - apply bst_node_inv in B. destruct B as (Bl & Br & Fl & Fr).
    destruct Sz as (_ & Sl & Sr). destruct Hp as (_ & _ & Pl & Pr).
    cbn [insert_aux] in H.
    destruct (key >? k) eqn:Egt.
    + destruct (insert_aux fuel r len key item) as [[r' n]|e [r' n]| |] eqn:E;
        try discriminate.
      apply IHr in E; auto.
      destruct E as (-> & Sr' & Pr' & m1 & m2 & E1 & E2 & F1 & F2).
      apply return_rebalance_done in H. destruct H as (H & ->).
      cbn [update_height set_height left_of right_of] in H.
      rewrite update_size_eq in H.
      apply refreshed_rebalanced in H; auto.
      destruct H as (He & Hs & Hh).
      repeat split; auto.
      exists (elements l ++ (k, v) :: m1), m2.
      simpl. rewrite E1, He, E2, <- !app_assoc. simpl.
      repeat split; auto.
      rewrite Forall_app. split.
      * eapply Forall_impl; [|exact Fl]. simpl. intros; lia.
      * constructor; [simpl; lia|auto].
    + destruct (key <? k) eqn:Elt; [|discriminate].
      destruct (insert_aux fuel l len key item) as [[l' n]|e [l' n]| |] eqn:E;
        try discriminate.
      apply IHl in E; auto.
      destruct E as (-> & Sl' & Pl' & m1 & m2 & E1 & E2 & F1 & F2).
      apply return_rebalance_done in H. destruct H as (H & ->).
      cbn [update_height set_height left_of right_of] in H.
      rewrite update_size_eq in H.
      apply refreshed_rebalanced in H; auto.
      destruct H as (He & Hs & Hh).
      repeat split; auto.
      exists m1, (m2 ++ (k, v) :: elements r).
      simpl. rewrite E1, He, E2, <- !app_assoc. simpl.
      repeat split; auto.
      rewrite Forall_app. split; auto.
      constructor; [simpl; lia|].
      eapply Forall_impl; [|exact Fr]. simpl. intros; lia.
Qed.

Lemma insert_aux_present (fuel : nat) (t : tree) len key item :
  bst t -> In key (keys t) ->
  insert_aux fuel t len key item = Failed ValueError (t, len).
Proof.
  induction t as [|l IHl k v h s r IHr]; intros B Hin.
  - destruct Hin.
  - pose proof B as B0. apply bst_node_inv in B. destruct B as (Bl & Br & Fl & Fr).
    rewrite keys_node in Hin. apply in_app_or in Hin.
    unfold keys in Hin. rewrite Forall_forall in Fl, Fr.
    cbn [insert_aux].
    destruct (key >? k) eqn:Egt.
    + assert (Hr : In key (keys r)).
      { destruct Hin as [Hin|[Hin|Hin]]; auto.
        - apply in_map_iff in Hin. destruct Hin as (x & <- & Hx).
          specialize (Fl _ Hx). lia.
        - lia. }
      rewrite IHr; auto.
    + destruct (key <? k) eqn:Elt; [|reflexivity].
      assert (Hl : In key (keys l)).
      { destruct Hin as [Hin|[Hin|Hin]]; auto.
        - lia.
        - apply in_map_iff in Hin. destruct Hin as (x & <- & Hx).
          specialize (Fr _ Hx). lia. }
      rewrite IHl; auto.
Qed.

Lemma insert_aux_mono (fuel fuel' : nat) (t : tree) len key item x :
  (fuel <= fuel')%nat ->
  insert_aux fuel t len key item = Done x ->
  insert_aux fuel' t len key item = Done x.
Proof.
  intros Hf. revert len x.
  induction t as [|l IHl k v h s r IHr]; intros len [t' n'] H.
  - cbn [insert_aux] in *. apply return_rebalance_done in H.
    destruct H as (H & ->). apply return_rebalance_intro.
    eapply rebalance_mono; eauto.
  - cbn [insert_aux] in *.
    destruct (key >? k).
    + destruct (insert_aux fuel r len key item) as [[r' n]|e [r' n]| |] eqn:E;
        try discriminate.
      rewrite (IHr _ _ E).
      apply return_rebalance_done in H. destruct H as (H & ->).
      apply return_rebalance_intro. eapply rebalance_mono; eauto.
    + destruct (key <? k); [|discriminate].
      destruct (insert_aux fuel l len key item) as [[l' n]|e [l' n]| |] eqn:E;
        try discriminate.
      rewrite (IHl _ _ E).
      apply return_rebalance_done in H. destruct H as (H & ->).
      apply return_rebalance_intro. eapply rebalance_mono; eauto.
Qed.

(** Inserting an absent key returns. *)
Lemma insert_aux_total (t : tree) len key item :
  bst t -> sizes_ok t -> dominated t -> ~ In key (keys t) ->
  exists fuel t', insert_aux fuel t len key item = Done (t', len + 1).
Proof.
  revert len.
  induction t as [|l IHl k v h s r IHr]; intros len B Sz Hp Hin.
  - destruct (refreshed_rebalance_total (@Absent I) key item 1 Absent)
      as (f & t' & H); simpl; auto.
    exists f, t'. cbn [insert_aux]. apply return_rebalance_intro.
    unfold new_node. cbn [update_height set_height left_of right_of].
    rewrite update_size_eq. exact H.
  - pose proof B as B0.
    apply bst_node_inv in B. destruct B as (Bl & Br & Fl & Fr).
    destruct Sz as (_ & Sl & Sr). destruct Hp as (_ & _ & Pl & Pr).
    rewrite keys_node in Hin.
    destruct (key >? k) eqn:Egt.
    + destruct (IHr len Br Sr Pr) as (f1 & r' & H1).
      { intros H. apply Hin. apply in_or_app. simpl. auto. }
      pose proof (insert_aux_done _ _ _ _ _ _ _ H1 Br Sr Pr) as (_ & _ & Pr' & _).
      destruct (refreshed_rebalance_total l k v
                  (size_of l + size_of r' + 1) r' Pl Pr') as (f2 & t' & H2).
      exists (Nat.max f1 f2), t'. cbn [insert_aux]. rewrite Egt.
      rewrite (insert_aux_mono f1 (Nat.max f1 f2) _ _ _ _ _ ltac:(lia) H1).
      apply return_rebalance_intro.
      cbn [update_height set_height left_of right_of].
      rewrite update_size_eq.
      eapply rebalance_mono; [|exact H2]. lia.
    + destruct (key <? k) eqn:Elt.
      * destruct (IHl len Bl Sl Pl) as (f1 & l' & H1).
        { intros H. apply Hin. apply in_or_app. auto. }
        pose proof (insert_aux_done _ _ _ _ _ _ _ H1 Bl Sl Pl) as (_ & _ & Pl' & _).
        destruct (refreshed_rebalance_total l' k v
                    (size_of l' + size_of r + 1) r Pl' Pr) as (f2 & t' & H2).
        exists (Nat.max f1 f2), t'. cbn [insert_aux]. rewrite Egt, Elt.
        rewrite (insert_aux_mono f1 (Nat.max f1 f2) _ _ _ _ _ ltac:(lia) H1).
        apply return_rebalance_intro.
        cbn [update_height set_height left_of right_of].
        rewrite update_size_eq.
        eapply rebalance_mono; [|exact H2]. lia.
      * exfalso. apply Hin. apply in_or_app. right. left. lia.
Qed.

(** ** Deletion *)

Lemma get_minimal_elements (l : tree) k v h s (r : tree) :
  exists ml mk mv mh ms mr rest,
    get_minimal (Node l k v h s r) = Node ml mk mv mh ms mr
    /\ elements (Node l k v h s r) = (mk, mv) :: rest.
Proof.
  revert k v h s r.
  induction l as [|ll IHl lk lv lh ls lr _]; intros k v h s r.
  - simpl. repeat eexists.
  - destruct (IHl lk lv lh ls lr) as (ml & mk & mv & mh & ms & mr & rest & E1 & E2).
    exists ml, mk, mv, mh, ms, mr, (rest ++ (k, v) :: elements r).
    split.
    + exact E1.
    + change (elements (Node (Node ll lk lv lh ls lr) k v h s r))
        with (elements (Node ll lk lv lh ls lr) ++ (k, v) :: elements r).
      rewrite E2. reflexivity.
Qed.

Lemma ascending_head_unique (l1 l2 rest : list (Z * I)) k v v' :
  StronglySorted Z.lt (map fst ((k, v) :: rest)) ->
  (k, v) :: rest = l1 ++ (k, v') :: l2 ->
  l1 = [] /\ v' = v /\ l2 = rest.
Proof.
  intros Hs E. destruct l1 as [|x l1]; simpl in E.
  - inversion E; auto.
  - exfalso. inversion E; subst.
    simpl in Hs. apply ascending_cons_inv in Hs. destruct Hs as (_ & Hf).
    rewrite Forall_forall in Hf.
    assert (Hin : In k (map fst (l1 ++ (k, v') :: l2))).
    { rewrite map_app. apply in_or_app. right. simpl. auto. }
    specialize (Hf _ Hin). lia.
Qed.

Lemma delete_aux_done (fuel : nat) (t : tree) len key t' len' :
  delete_aux fuel t len key = Done (t', len') ->
  bst t -> sizes_ok t -> dominated t ->
  len' = len - 1 /\ sizes_ok t' /\ dominated t'
  /\ exists l1 v l2,
      elements t = l1 ++ (key, v) :: l2 /\ elements t' = l1 ++ l2.
Proof.
  revert len key t' len'.
  induction t as [|l IHl k v h s r IHr]; intros len key t' len' H B Sz Hp.
  - discriminate.
  - pose proof B as B0.
    apply bst_node_inv in B. destruct B as (Bl & Br & Fl & Fr).
    destruct Sz as (_ & Sl & Sr). destruct Hp as (_ & _ & Pl & Pr).
    cbn [delete_aux] in H.
    destruct (key <? k) eqn:Elt.
    { destruct (delete_aux fuel l len key) as [[l' n]|e [l' n]| |] eqn:E;
        try discriminate.
      apply IHl in E; auto.
      destruct E as (-> & Sl' & Pl' & m1 & x & m2 & E1 & E2).
      apply return_rebalance_done in H. destruct H as (H & ->).
      cbn [update_height set_height left_of right_of] in H.
      apply refreshed_rebalanced in H; auto.
      destruct H as (He & Hs & Hh).
      repeat split; auto.
      exists m1, x, (m2 ++ (k, v) :: elements r).
      simpl. rewrite E1, He, E2, <- !app_assoc. simpl. auto. }
    destruct (key >? k) eqn:Egt.
    { destruct (delete_aux fuel r len key) as [[r' n]|e [r' n]| |] eqn:E;
        try discriminate.
      apply IHr in E; auto.
      destruct E as (-> & Sr' & Pr' & m1 & x & m2 & E1 & E2).
      apply return_rebalance_done in H. destruct H as (H & ->).
      cbn [update_height set_height left_of right_of] in H.
      apply refreshed_rebalanced in H; auto.
      destruct H as (He & Hs & Hh).
      repeat split; auto.
      exists (elements l ++ (k, v) :: m1), x, m2.
      simpl. rewrite E1, He, E2, <- !app_assoc. simpl. auto. }
    assert (key = k) by lia. subst key.
    destruct l as [|ll lk lv lh ls lr].
    { destruct r as [|rl rk rv rh rs rr].
      - simpl in H. inversion H; subst.
        split; [reflexivity|]. do 2 (split; [exact Logic.I|]).
        exists [], v, []. auto.
      - simpl in H. inversion H; subst.
        split; [reflexivity|]. do 2 (split; [assumption|]).
        exists [], v, (elements (Node rl rk rv rh rs rr)). auto. }
    destruct r as [|rl rk rv rh rs rr].
    { simpl in H. inversion H; subst.
      split; [reflexivity|]. do 2 (split; [assumption|]).
      exists (elements (Node ll lk lv lh ls lr)), v, []. simpl.
      rewrite app_nil_r. auto. }
    cbn [is_leaf get_successor] in H.
    destruct (get_minimal_elements rl rk rv rh rs rr)
      as (ml & mk & mv & mh & ms & mr & rest & Em & Ee).
    rewrite Em in H.
    destruct (delete_aux fuel (Node rl rk rv rh rs rr) len mk)
      as [[r' n]|e [r' n]| |] eqn:E; try discriminate.
    apply IHr in E; auto.
    destruct E as (-> & Sr' & Pr' & m1 & x & m2 & E1 & E2).
    apply return_rebalance_done in H. destruct H as (H & ->).
    rewrite update_size_eq in H.
    cbn [update_height set_height left_of right_of] in H.
    apply refreshed_rebalanced in H; auto.
    destruct H as (He & Hs & Hh).
    repeat split; auto.
    exists (elements (Node ll lk lv lh ls lr)), v, (elements (Node rl rk rv rh rs rr)).
    split; [reflexivity|].
    rewrite He. f_equal.
    rewrite Ee in E1.
    apply ascending_head_unique in E1.
    + destruct E1 as (-> & -> & ->). rewrite E2, Ee. reflexivity.
    + unfold bst, keys in Br. rewrite Ee in Br. exact Br.
Qed.

Lemma delete_aux_absent (fuel : nat) (t : tree) len key :
  ~ In key (keys t) ->
  delete_aux fuel t len key = Failed ValueError (t, len).
Proof.
  induction t as [|l IHl k v h s r IHr]; intros Hin.
  - reflexivity.
  - rewrite keys_node in Hin.
    cbn [delete_aux].
    destruct (key <? k) eqn:Elt.
    { rewrite IHl; auto. intros Hl. apply Hin. apply in_or_app. auto. }
    destruct (key >? k) eqn:Egt.
    { rewrite IHr; auto. intros Hr. apply Hin. apply in_or_app. simpl. auto. }
    exfalso. apply Hin. apply in_or_app. right. left. lia.
Qed.

Lemma delete_aux_mono (fuel fuel' : nat) (t : tree) len key x :
  (fuel <= fuel')%nat ->
  delete_aux fuel t len key = Done x ->
  delete_aux fuel' t len key = Done x.
Proof.
  intros Hf. revert len key x.
  induction t as [|l IHl k v h s r IHr]; intros len key [t' n'] H.
  - discriminate.
  - cbn [delete_aux] in *.
    destruct (key <? k).
    { destruct (delete_aux fuel l len key) as [[l' n]|e [l' n]| |] eqn:E;
        try discriminate.
      rewrite (IHl _ _ _ E).
      apply return_rebalance_done in H. destruct H as (H & ->).
      apply return_rebalance_intro. eapply rebalance_mono; eauto. }
    destruct (key >? k).
    { destruct (delete_aux fuel r len key) as [[r' n]|e [r' n]| |] eqn:E;
        try discriminate.
      rewrite (IHr _ _ _ E).
      apply return_rebalance_done in H. destruct H as (H & ->).
      apply return_rebalance_intro. eapply rebalance_mono; eauto. }
    destruct (is_leaf _); [exact H|].
    destruct l as [|ll lk lv lh ls lr]; [exact H|].
    destruct r as [|rl rk rv rh rs rr]; [exact H|].
    destruct (get_successor _) as [|? sk sv ? ? ?]; [discriminate|].
    destruct (delete_aux fuel (Node rl rk rv rh rs rr) len sk)
      as [[r' n]|e [r' n]| |] eqn:E; try discriminate.
    rewrite (IHr _ _ _ E).
    apply return_rebalance_done in H. destruct H as (H & ->).
    apply return_rebalance_intro. eapply rebalance_mono; eauto.
Qed.

Lemma in_keys_node (l : tree) k v h s (r : tree) key :
  bst (Node l k v h s r) -> In key (keys (Node l k v h s r)) ->
  (key < k /\ In key (keys l)) \/ key = k \/ (k < key /\ In key (keys r)).
Proof.
  intros B Hin. apply bst_node_inv in B. destruct B as (_ & _ & Fl & Fr).
  rewrite Forall_forall in Fl, Fr.
  rewrite keys_node in Hin. apply in_app_or in Hin.
  destruct Hin as [Hin|[Hin|Hin]]; auto.
  - left. split; auto. unfold keys in Hin. apply in_map_iff in Hin.
    destruct Hin as (x & <- & Hx). apply Fl; auto.
  - right. right. split; auto. unfold keys in Hin. apply in_map_iff in Hin.
    destruct Hin as (x & <- & Hx). apply Fr; auto.
Qed.

(** Deleting a present key returns. *)
Lemma delete_aux_total (t : tree) len key :
  bst t -> sizes_ok t -> dominated t -> In key (keys t) ->
  exists fuel t', delete_aux fuel t len key = Done (t', len - 1).
Proof.
  revert len key.
  induction t as [|l IHl k v h s r IHr]; intros len key B Sz Hp Hin.
  - destruct Hin.
  - pose proof (in_keys_node _ _ _ _ _ _ _ B Hin) as Hcase.
    pose proof B as B0.
    apply bst_node_inv in B. destruct B as (Bl & Br & Fl & Fr).
    destruct Sz as (_ & Sl & Sr). destruct Hp as (_ & _ & Pl & Pr).
    destruct Hcase as [(Hlt & Hl)|[->|(Hgt & Hr)]].
    + destruct (IHl len key Bl Sl Pl Hl) as (f1 & l' & H1).
      pose proof (delete_aux_done _ _ _ _ _ _ H1 Bl Sl Pl) as (_ & _ & Pl' & _).
      destruct (refreshed_rebalance_total l' k v s r Pl' Pr) as (f2 & t' & H2).
      exists (Nat.max f1 f2), t'. cbn [delete_aux].
      replace (key <? k) with true by lia.
      rewrite (delete_aux_mono f1 (Nat.max f1 f2) _ _ _ _ ltac:(lia) H1).
      apply return_rebalance_intro.
      cbn [update_height set_height left_of right_of].
      eapply rebalance_mono; [|exact H2]. lia.
    + cbn [delete_aux]. rewrite Z.ltb_irrefl.
      replace (k >? k) with false by lia.
      destruct l as [|ll lk lv lh ls lr].
      { destruct r as [|rl rk rv rh rs rr]; exists O; eexists; reflexivity. }
      destruct r as [|rl rk rv rh rs rr].
      { exists O; eexists; reflexivity. }
      cbn [is_leaf get_successor].
      destruct (get_minimal_elements rl rk rv rh rs rr)
        as (ml & mk & mv & mh & ms & mr & rest & Em & Ee).
      rewrite Em.
      destruct (IHr len mk Br Sr Pr) as (f1 & r' & H1).
      { unfold keys. rewrite Ee. simpl. auto. }
      pose proof (delete_aux_done _ _ _ _ _ _ H1 Br Sr Pr) as (_ & _ & Pr' & _).
      destruct (refreshed_rebalance_total (Node ll lk lv lh ls lr) mk mv
                  (size_of (Node ll lk lv lh ls lr) + size_of r' + 1) r' Pl Pr')
        as (f2 & t' & H2).
      exists (Nat.max f1 f2), t'.
      rewrite (delete_aux_mono f1 (Nat.max f1 f2) _ _ _ _ ltac:(lia) H1).
      apply return_rebalance_intro.
      rewrite update_size_eq.
      cbn [update_height set_height left_of right_of].
      eapply rebalance_mono; [|exact H2]. lia.
    + destruct (IHr len key Br Sr Pr Hr) as (f1 & r' & H1).
      pose proof (delete_aux_done _ _ _ _ _ _ H1 Br Sr Pr) as (_ & _ & Pr' & _).
      destruct (refreshed_rebalance_total l k v s r' Pl Pr') as (f2 & t' & H2).
      exists (Nat.max f1 f2), t'. cbn [delete_aux].
      replace (key <? k) with false by lia.
      replace (key >? k) with true by lia.
      rewrite (delete_aux_mono f1 (Nat.max f1 f2) _ _ _ _ ltac:(lia) H1).
      apply return_rebalance_intro.
      cbn [update_height set_height left_of right_of].
      eapply rebalance_mono; [|exact H2]. lia.
Qed.

End Mutation.

Section Queries.
Context {I : Type}.
Local Abbreviation tree := (AVLTreeNode I).

(** ** Rank lookup *)

Lemma with_size_same (t : tree) : with_size (size_of t) t = t.
Proof. destruct t; reflexivity. Qed.

Lemma lookup_at_in_range (t : tree) :
  forall sz index,
    kids_sized t -> 0 <= index < count t ->
    exists l k v h s r,
      lookup_at t sz index = (with_size sz t, Ok (Node l k v h s r))
      /\ nth_error (elements t) (Z.to_nat index) = Some (k, v).
Proof.
  induction t as [|l IHl k v h s r IHr]; intros sz index (Sl & Sr) Hi.
  - unfold count in Hi. simpl in Hi. lia.
  - simpl in Sl, Sr. rewrite count_node in Hi.
    pose proof (count_nonneg l) as Hl0. pose proof (count_nonneg r) as Hr0.
    cbn [lookup_at]. rewrite (size_fixed l Sl).
    destruct (index =? count l) eqn:E1.
    + exists l, k, v, h, sz, r. split; [reflexivity|].
      simpl. rewrite nth_error_app2; rewrite length_elements.
      * replace (Z.to_nat index - nodes l)%nat with O by (unfold count in *; lia).
        reflexivity.
      * unfold count in *; lia.
    + rewrite (size_fixed l Sl).
      destruct (index <? count l) eqn:E2.
      * assert (Kl : kids_sized l).
        { destruct l; simpl in *; split; simpl; tauto. }
        destruct (IHl (size_of l) index Kl) as (fl & fk & fv & fh & fs & fr & E & N);
          [lia|].
        rewrite E, with_size_same.
        exists fl, fk, fv, fh, fs, fr. split; [reflexivity|].
        simpl. rewrite nth_error_app1; auto.
        rewrite length_elements. unfold count in *; lia.
      * rewrite (size_fixed l Sl).
        assert (Kr : kids_sized r).
        { destruct r; simpl in *; split; simpl; tauto. }
        destruct (IHr (size_of r) (index - count l - 1) Kr)
          as (fl & fk & fv & fh & fs & fr & E & N); [lia|].
        rewrite E, with_size_same.
        exists fl, fk, fv, fh, fs, fr. split; [reflexivity|].
        simpl. rewrite nth_error_app2; rewrite length_elements;
          [|unfold count in *; lia].
        replace (Z.to_nat index - nodes l)%nat
          with (S (Z.to_nat (index - count l - 1))) by (unfold count in *; lia).
        exact N.
Qed.

Lemma lookup_at_out_of_range (t : tree) :
  forall sz index,
    kids_sized t -> index < 0 \/ count t <= index ->
    lookup_at t sz index = (with_size sz t, Err AttributeError).
Proof.
  induction t as [|l IHl k v h s r IHr]; intros sz index (Sl & Sr) Hi.
  - reflexivity.
  - simpl in Sl, Sr. rewrite count_node in Hi.
    pose proof (count_nonneg l) as Hl0. pose proof (count_nonneg r) as Hr0.
    cbn [lookup_at]. rewrite (size_fixed l Sl).
    destruct (index =? count l) eqn:E1; [lia|].
    rewrite (size_fixed l Sl).
    destruct (index <? count l) eqn:E2.
    + assert (Kl : kids_sized l).
      { destruct l; simpl in *; split; simpl; tauto. }
      rewrite (IHl (size_of l) index Kl), with_size_same by lia. reflexivity.
    + rewrite (size_fixed l Sl).
      assert (Kr : kids_sized r).
      { destruct r; simpl in *; split; simpl; tauto. }
      rewrite (IHr (size_of r) (index - count l - 1) Kr), with_size_same by lia.
      reflexivity.
Qed.

Lemma sizes_ok_kids (t : tree) : sizes_ok t -> kids_sized t.
Proof. destruct t; simpl; unfold kids_sized; simpl; tauto. Qed.

Lemma lookup_in_range (t : tree) index :
  sizes_ok t -> 0 <= index < count t ->
  exists l k v h s r,
    lookup t index = (t, Ok (Node l k v h s r))
    /\ nth_error (elements t) (Z.to_nat index) = Some (k, v).
Proof.
  intros Hs Hi. unfold lookup.
  destruct (lookup_at_in_range t (size_of t) index (sizes_ok_kids t Hs) Hi)
    as (l & k & v & h & s & r & E & N).
  rewrite with_size_same in E. eauto 10.
Qed.

Lemma lookup_out_of_range (t : tree) index :
  sizes_ok t -> index < 0 \/ count t <= index ->
  lookup t index = (t, Err AttributeError).
Proof.
  intros Hs Hi. unfold lookup.
  rewrite lookup_at_out_of_range, with_size_same; auto using sizes_ok_kids.
Qed.

Lemma lookup_frame (t : tree) index : sizes_ok t -> fst (lookup t index) = t.
Proof.
  intros Hs.
  destruct (Z_lt_dec index 0) as [Hn|Hn].
  - rewrite lookup_out_of_range; auto.
  - destruct (Z_lt_dec index (count t)) as [Hc|Hc].
    + destruct (lookup_in_range t index Hs) as (? & ? & ? & ? & ? & ? & E & _);
        [lia|]. rewrite E. reflexivity.
    + rewrite lookup_out_of_range; auto. lia.
Qed.

(** The source's recursion: the calls go to [node.left] and [node.right] as
    [self.size] leaves them. *)
Lemma lookup_at_ignores_size (l : tree) k v h s s' (r : tree) sz index :
  lookup_at (Node l k v h s r) sz index = lookup_at (Node l k v h s' r) sz index.
Proof. reflexivity. Qed.

Lemma lookup_unfold (l : tree) k v h s (r : tree) index :
  lookup (Node l k v h s r) index =
  let (l1, s1) := size l in
  if index =? s1 then (Node l1 k v h s r, Ok (Node l1 k v h s r))
  else
    let (l2, s2) := size l1 in
    if index <? s2 then
      let (l3, found) := lookup l2 index in (Node l3 k v h s r, found)
    else
      let (l3, s3) := size l2 in
      let (r', found) := lookup r (index - s3 - 1) in
      (Node l3 k v h s r', found).
Proof.
  unfold lookup at 1. cbn [lookup_at size_of].
  destruct (size l) as [l1 s1] eqn:E1.
  destruct (index =? s1); [reflexivity|].
  destruct (size l1) as [l2 s2] eqn:E2.
  destruct (index <? s2); [|reflexivity].
  replace (lookup l2 index) with (lookup_at l (size_of l2) index); [reflexivity|].
  unfold lookup. destruct l as [|a b c d e f]; simpl in E1.
  - inversion E1; subst. simpl in E2. inversion E2; subst. reflexivity.
  - inversion E1; subst. rewrite size_eq in E2. inversion E2; subst. reflexivity.
Qed.

(** ** Range extraction *)

Lemma skipn_nth_error {A : Type} (l : list A) (n : nat) (x : A) :
  nth_error l n = Some x -> skipn n l = x :: skipn (S n) l.
Proof.
  revert l. induction n as [|n IH]; intros [|a l] H; simpl in H; try discriminate.
  - inversion H; reflexivity.
  - rewrite skipn_cons. rewrite (IH l H). reflexivity.
Qed.

Lemma range_aux_n_frame (n : nat) (t : tree) i res :
  sizes_ok t -> fst (range_aux_n n t i res) = t.
Proof.
  revert i res. induction n as [|n IH]; intros i res Hs.
  - destruct t; reflexivity.
  - destruct t as [|l k v h s r]; [reflexivity|].
    cbn [range_aux_n].
    pose proof (lookup_frame (Node l k v h s r) i Hs) as F.
    destruct (lookup (Node l k v h s r) i) as [t' [[|fl fk fv fh fs fr]|e]];
      simpl in F; subst t'; try reflexivity.
    apply IH. exact Hs.
Qed.

Lemma range_aux_n_in_range (n : nat) (t : tree) i res :
  sizes_ok t -> 0 <= i -> i + Z.of_nat n <= count t ->
  range_aux_n n t i res = (t, Ok (res ++ items_from t i n)).
Proof.
  revert i res. induction n as [|n IH]; intros i res Hs Hi Hn.
  - unfold items_from. simpl. rewrite app_nil_r. destruct t; reflexivity.
  - destruct t as [|l k v h s r].
    { unfold count in Hn. simpl in Hn. lia. }
    cbn [range_aux_n].
    destruct (lookup_in_range (Node l k v h s r) i Hs)
      as (fl & fk & fv & fh & fs & fr & E & N); [lia|].
    rewrite E. rewrite IH by (auto; lia).
    unfold items_from. rewrite (skipn_nth_error _ _ _ N).
    replace (Z.to_nat (i + 1)) with (S (Z.to_nat i)) by lia.
    simpl. rewrite <- app_assoc. reflexivity.
Qed.

Lemma range_between_frame (self : AVLTree I) i j :
  sizes_ok (root self) -> fst (range_between self i j) = self.
Proof.
  intros Hs. unfold range_between. rewrite (size_fixed _ Hs).
  destruct self as [t n]. simpl in *.
  destruct (_ && _).
  - unfold range_aux.
    pose proof (range_aux_n_frame (Z.to_nat (j + 1 - i)) t i [] Hs) as F.
    destruct (range_aux_n _ t i []) as [t' res]. simpl in F. subst. reflexivity.
  - reflexivity.
Qed.

Lemma range_between_in_range (self : AVLTree I) i j :
  sizes_ok (root self) -> 0 <= i -> i <= j -> j < count (root self) ->
  range_between self i j
  = (self, Ok (items_from (root self) i (Z.to_nat (j + 1 - i)))).
Proof.
  intros Hs Hi Hij Hj. unfold range_between. rewrite (size_fixed _ Hs).
  destruct self as [t n]. simpl in *.
  replace (_ && _) with true.
  - unfold range_aux. rewrite range_aux_n_in_range by (auto; lia). reflexivity.
  - symmetry. rewrite !andb_true_iff. lia.
Qed.

Lemma lookup_root_frame (self : AVLTree I) index :
  sizes_ok (root self) -> fst (lookup_root self index) = self.
Proof.
  intros Hs. unfold lookup_root.
  pose proof (lookup_frame (root self) index Hs) as F.
  destruct (lookup (root self) index) as [t found]. simpl in F. subst.
  destruct self; reflexivity.
Qed.

(** ** The in-order iterator *)

Lemma push_left_spine_spec (t : tree) (st : list tree) :
  Forall is_node st ->
  Forall is_node (push_left_spine t st)
  /\ pending (push_left_spine t st) = keys t ++ pending st
  /\ weight (push_left_spine t st) = (nodes t + weight st)%nat.
Proof.
  revert st. induction t as [|l IHl k v h s r _]; intros st F.
  - simpl. auto.
  - cbn [push_left_spine].
    destruct (IHl (Node l k v h s r :: st)) as (F' & P & W).
    { constructor; simpl; auto. }
    split; [exact F'|]. split.
    + rewrite P, keys_node. simpl. rewrite <- app_assoc. reflexivity.
    + rewrite W. simpl. lia.
Qed.

Lemma drain_spec (n : nat) (it : BSTInOrderIterator I) :
  Forall is_node (stack it) ->
  (nodes (current it) + weight (stack it) < n)%nat ->
  drain n it = Some (keys (current it) ++ pending (stack it)).
Proof.
  revert it. induction n as [|n IH]; intros [st cur] F Hn; simpl in *; [lia|].
  unfold __next__. simpl.
  destruct (push_left_spine_spec cur st F) as (F' & P & W).
  rewrite <- P.
  destruct (push_left_spine cur st) as [|[|l k v h s r] st'].
  - reflexivity.
  - inversion F' as [|? ? Hx]; subst. destruct Hx.
  - inversion F'; subst.
    rewrite IH; simpl; auto.
    simpl in W. lia.
Qed.

Lemma drain_iter (self : AVLTree I) :
  drain (S (nodes (root self))) (__iter__ self) = Some (keys (root self)).
Proof.
  rewrite drain_spec; simpl; auto; [|lia].
  rewrite app_nil_r. reflexivity.
Qed.

(** ** Search by key *)

Lemma get_found (t : tree) key v :
  bst t -> In (key, v) (elements t) ->
  exists l h s r, get_tree_node_by_key_aux t key = Some (Node l key v h s r).
Proof.
  induction t as [|l IHl k x h s r IHr]; intros B Hin.
  - destruct Hin.
  - apply bst_node_inv in B. destruct B as (Bl & Br & Fl & Fr).
    rewrite Forall_forall in Fl, Fr.
    simpl in Hin. apply in_app_or in Hin.
    cbn [get_tree_node_by_key_aux].
    destruct Hin as [Hin|[Hin|Hin]].
    + specialize (Fl _ Hin). simpl in Fl.
      destruct (key =? k) eqn:E1; [lia|].
      destruct (key <? k) eqn:E2; [|lia]. auto.
    + inversion Hin; subst. rewrite Z.eqb_refl. eauto.
    + specialize (Fr _ Hin). simpl in Fr.
      destruct (key =? k) eqn:E1; [lia|].
      destruct (key <? k) eqn:E2; [lia|]. auto.
Qed.

Lemma get_none (t : tree) key :
  ~ In key (keys t) -> get_tree_node_by_key_aux t key = None.
Proof.
  induction t as [|l IHl k x h s r IHr]; intros Hin.
  - reflexivity.
  - rewrite keys_node in Hin.
    cbn [get_tree_node_by_key_aux].
    destruct (key =? k) eqn:E1.
    { exfalso. apply Hin. apply in_or_app. right. left. lia. }
    destruct (key <? k).
    + apply IHl. intros H. apply Hin. apply in_or_app. auto.
    + apply IHr. intros H. apply Hin. apply in_or_app. simpl. auto.
Qed.

Lemma getitem_in (self : AVLTree I) key v :
  bst (root self) -> In (key, v) (elements (root self)) ->
  __getitem__ self key = Some v.
Proof.
  intros B Hin. unfold __getitem__, get_tree_node_by_key.
  destruct (get_found _ _ _ B Hin) as (l & h & s & r & E). rewrite E.
  reflexivity.
Qed.

Lemma getitem_none (self : AVLTree I) key :
  ~ In key (keys (root self)) -> __getitem__ self key = None.
Proof.
  intros Hin. unfold __getitem__, get_tree_node_by_key.
  rewrite get_none; auto.
Qed.

Lemma in_keys_elements (t : tree) key :
  In key (keys t) <-> exists v, In (key, v) (elements t).
Proof.
  unfold keys. rewrite in_map_iff. split.
  - intros ([k v] & E & H). simpl in E. subst. eauto.
  - intros (v & H). exists (key, v). auto.
Qed.

Lemma In_dec_keys (t : tree) key : {In key (keys t)} + {~ In key (keys t)}.
Proof. apply in_dec. apply Z.eq_dec. Qed.

(** [__getitem__] is determined by the in-order sequence of a search tree. *)
Lemma getitem_ext (self self' : AVLTree I) key :
  bst (root self) -> bst (root self') ->
  (forall v, In (key, v) (elements (root self))
             <-> In (key, v) (elements (root self'))) ->
  __getitem__ self' key = __getitem__ self key.
Proof.
  intros B B' H.
  destruct (In_dec_keys (root self) key) as [Hin|Hin].
  - apply in_keys_elements in Hin. destruct Hin as (v & Hv).
    rewrite (getitem_in self key v); auto.
    apply getitem_in; auto. apply H; auto.
  - rewrite (getitem_none self); auto.
    apply getitem_none. intros Hin'. apply Hin.
    apply in_keys_elements in Hin'. destruct Hin' as (v & Hv).
    apply in_keys_elements. exists v. apply H; auto.
Qed.
End Queries.

Section Operations.
Context {I : Type}.
Local Abbreviation tree := (AVLTreeNode I).

(** ** The public operations on states that satisfy the invariant *)

Lemma store_done (o : outcome (tree * Z)) (self' : AVLTree I) :
  store o = Done self' -> o = Done (root self', length self').
Proof.
  destruct o as [[t n]|e [t n]| |]; simpl; intros H; inversion H; reflexivity.
Qed.

Lemma count_elements (t : tree) : count t = Z.of_nat (List.length (elements t)).
Proof. unfold count. rewrite length_elements. reflexivity. Qed.

Lemma keys_nil (t : tree) : keys t = [] -> t = Absent.
Proof.
  intros H. destruct t as [|l k v h s r]; [reflexivity|].
  rewrite keys_node in H. destruct (keys l); discriminate.
Qed.

Lemma contains_iff (self : AVLTree I) key :
  bst (root self) ->
  __contains__ self key = true <-> In key (keys (root self)).
Proof.
  intros B. unfold __contains__. split.
  - destruct (In_dec_keys (root self) key) as [Hin|Hin]; auto.
    rewrite getitem_none; auto. discriminate.
  - intros Hin. apply in_keys_elements in Hin. destruct Hin as (v & Hv).
    rewrite (getitem_in self key v); auto.
Qed.

Lemma contains_false_iff (self : AVLTree I) key :
  bst (root self) ->
  __contains__ self key = false <-> ~ In key (keys (root self)).
Proof.
  intros B. rewrite <- (contains_iff self key B).
  destruct (__contains__ self key); split; intros; try discriminate; auto.
  exfalso; auto.
Qed.

(** What a returning [__setitem__] does. *)
Lemma setitem_done fuel (self self' : AVLTree I) key item :
  invariant self -> __setitem__ fuel self key item = Done self' ->
  invariant self'
  /\ length self' = length self + 1
  /\ exists l1 l2,
      elements (root self) = l1 ++ l2
      /\ elements (root self') = l1 ++ (key, item) :: l2.
Proof.
  intros (B & Sz & Hp & Hl) H. unfold __setitem__ in H.
  apply store_done in H. apply insert_aux_done in H; auto.
  destruct H as (Hn & Sz' & Hp' & l1 & l2 & E & E' & F1 & F2).
  split; [|split; [exact Hn|eauto]].
  repeat split; auto.
  - unfold bst, keys in B. rewrite E, map_app in B.
    apply ascending_app_split in B. destruct B as (S1 & S2 & _).
    eapply bst_elements_intro; eauto.
  - rewrite Hn, Hl, !count_elements, E, E', !length_app. simpl. lia.
Qed.

(** What a returning [__delitem__] does. *)
Lemma delitem_done fuel (self self' : AVLTree I) key :
  invariant self -> __delitem__ fuel self key = Done self' ->
  invariant self'
  /\ length self' = length self - 1
  /\ exists l1 v l2,
      elements (root self) = l1 ++ (key, v) :: l2
      /\ elements (root self') = l1 ++ l2.
Proof.
  intros (B & Sz & Hp & Hl) H. unfold __delitem__ in H.
  apply store_done in H. apply delete_aux_done in H; auto.
  destruct H as (Hn & Sz' & Hp' & l1 & v & l2 & E & E').
  split; [|split; [exact Hn|eauto]].
  repeat split; auto.
  - unfold bst, keys in *. rewrite E, map_app in B. simpl in B.
    apply ascending_app_inv in B. destruct B as (S1 & S2 & F1 & F2).
    rewrite E', map_app. apply ascending_app; auto.
    intros a b Ha Hb. rewrite Forall_forall in F1, F2.
    specialize (F1 _ Ha). specialize (F2 _ Hb). lia.
  - rewrite Hn, Hl, !count_elements, E, E', !length_app. simpl. lia.
Qed.

Lemma reachable_invariant (self : AVLTree I) : reachable self -> invariant self.
Proof.
  induction 1 as [|fuel s key item s' _ IH H|fuel s key s' _ IH H
                  |s index s' node _ IH H|s i j s' res _ IH H].
  - repeat split; simpl; auto. constructor.
  - eapply setitem_done; eauto.
  - eapply delitem_done; eauto.
  - destruct IH as (B & Sz & Hp & Hl).
    pose proof (lookup_root_frame s index Sz) as F. rewrite H in F.
    simpl in F. subst. repeat split; auto.
  - destruct IH as (B & Sz & Hp & Hl).
    pose proof (range_between_frame s i j Sz) as F. rewrite H in F.
    simpl in F. subst. repeat split; auto.
Qed.

Lemma setitem_mono (fuel fuel' : nat) (self self' : AVLTree I) key item :
  (fuel <= fuel')%nat ->
  __setitem__ fuel self key item = Done self' ->
  __setitem__ fuel' self key item = Done self'.
Proof.
  intros Hf H. unfold __setitem__ in *.
  pose proof (store_done _ _ H) as E.
  rewrite (insert_aux_mono fuel fuel' _ _ _ _ _ Hf E).
  destruct self'; reflexivity.
Qed.

Lemma delitem_mono (fuel fuel' : nat) (self self' : AVLTree I) key :
  (fuel <= fuel')%nat ->
  __delitem__ fuel self key = Done self' ->
  __delitem__ fuel' self key = Done self'.
Proof.
  intros Hf H. unfold __delitem__ in *.
  pose proof (store_done _ _ H) as E.
  rewrite (delete_aux_mono fuel fuel' _ _ _ _ Hf E).
  destruct self'; reflexivity.
Qed.

(** Inserting an absent key returns. *)
Lemma setitem_total (self : AVLTree I) key item :
  invariant self -> ~ In key (keys (root self)) ->
  exists fuel self', __setitem__ fuel self key item = Done self'.
Proof.
  intros (B & Sz & Hp & Hl) Hin.
  destruct (insert_aux_total (root self) (length self) key item B Sz Hp Hin)
    as (f & t' & H).
  exists f. eexists. unfold __setitem__. rewrite H. reflexivity.
Qed.

(** Deleting a present key returns. *)
Lemma delitem_total (self : AVLTree I) key :
  invariant self -> In key (keys (root self)) ->
  exists fuel self', __delitem__ fuel self key = Done self'.
Proof.
  intros (B & Sz & Hp & Hl) Hin.
  destruct (delete_aux_total (root self) (length self) key B Sz Hp Hin)
    as (f & t' & H).
  exists f. eexists. unfold __delitem__. rewrite H. reflexivity.
Qed.

(** Keys after an insertion and after a deletion. *)
Lemma keys_inserted (l1 l2 : list (Z * I)) key item x :
  In x (map fst (l1 ++ (key, item) :: l2))
  <-> x = key \/ In x (map fst (l1 ++ l2)).
Proof.
  rewrite !map_app, !in_app_iff. simpl. intuition.
Qed.

Lemma keys_deleted (l1 l2 : list (Z * I)) key v x :
  StronglySorted Z.lt (map fst (l1 ++ (key, v) :: l2)) ->
  In x (map fst (l1 ++ l2))
  <-> In x (map fst (l1 ++ (key, v) :: l2)) /\ x <> key.
Proof.
  intros S. rewrite map_app in S. simpl in S.
  apply ascending_app_inv in S. destruct S as (_ & _ & F1 & F2).
  rewrite Forall_forall in F1, F2.
  rewrite !map_app, !in_app_iff. simpl. split.
  - intros [H|H]; split; auto.
    + specialize (F1 _ H). lia.
    + specialize (F2 _ H). lia.
  - intros ([H|[H|H]] & Hne); auto. congruence.
Qed.

Lemma pairs_deleted (l1 l2 : list (Z * I)) key v k x :
  k <> key ->
  In (k, x) (l1 ++ l2) <-> In (k, x) (l1 ++ (key, v) :: l2).
Proof.
  intros Hne. rewrite !in_app_iff. simpl. split.
  - intuition.
  - intros [H|[H|H]]; auto. inversion H; congruence.
Qed.

(** ** Sequences of operations *)

Lemma run_from_nil (fuel : nat) (self : AVLTree I) :
  run_from fuel self [] = Done self.
Proof. reflexivity. Qed.

Lemma stuck_fold (fuel : nat) (cs : list (op I)) (o : outcome (AVLTree I)) :
  (forall s, o <> Done s) -> fold_left (apply_op fuel) cs o = o.
Proof.
  induction cs as [|c cs IH]; intros H; simpl; auto.
  destruct o; try (apply IH; intros; discriminate). exfalso. eapply H; eauto.
Qed.

Lemma run_from_cons (fuel : nat) (self self1 : AVLTree I) c cs :
  apply_op fuel (Done self) c = Done self1 ->
  run_from fuel self (c :: cs) = run_from fuel self1 cs.
Proof. unfold run_from. simpl. intros ->. reflexivity. Qed.

Lemma run_from_cons_inv (fuel : nat) (self self' : AVLTree I) c cs :
  run_from fuel self (c :: cs) = Done self' ->
  exists self1, apply_op fuel (Done self) c = Done self1
                /\ run_from fuel self1 cs = Done self'.
Proof.
  unfold run_from. cbn [fold_left]. intros H.
  destruct (apply_op fuel (Done self) c) as [s1| | |] eqn:E.
  - eauto.
  - rewrite stuck_fold in H by (intros; discriminate). discriminate.
  - rewrite stuck_fold in H by (intros; discriminate). discriminate.
  - rewrite stuck_fold in H by (intros; discriminate). discriminate.
Qed.

Lemma run_from_app (fuel : nat) (self self1 : AVLTree I) cs1 cs2 :
  run_from fuel self cs1 = Done self1 ->
  run_from fuel self (cs1 ++ cs2) = run_from fuel self1 cs2.
Proof. unfold run_from. rewrite fold_left_app. intros ->. reflexivity. Qed.

Lemma apply_op_mono (fuel fuel' : nat) (self self' : AVLTree I) c :
  (fuel <= fuel')%nat ->
  apply_op fuel (Done self) c = Done self' ->
  apply_op fuel' (Done self) c = Done self'.
Proof.
  intros Hf. destruct c; simpl.
  - apply setitem_mono; auto.
  - apply delitem_mono; auto.
Qed.

Lemma run_from_mono (fuel fuel' : nat) (cs : list (op I)) :
  (fuel <= fuel')%nat ->
  forall self self',
    run_from fuel self cs = Done self' -> run_from fuel' self cs = Done self'.
Proof.
  intros Hf. induction cs as [|c cs IH]; intros self self' H.
  - exact H.
  - apply run_from_cons_inv in H. destruct H as (s1 & E & H).
    rewrite (run_from_cons fuel' self s1); auto.
    eapply apply_op_mono; eauto.
Qed.

Lemma run_from_reachable (fuel : nat) (cs : list (op I)) :
  forall self self',
    reachable self -> run_from fuel self cs = Done self' -> reachable self'.
Proof.
  induction cs as [|c cs IH]; intros self self' R H.
  - inversion H; subst. exact R.
  - apply run_from_cons_inv in H. destruct H as (s1 & E & H).
    apply (IH s1); auto.
    destruct c; simpl in E.
    + eapply reach_setitem; eauto.
    + eapply reach_delitem; eauto.
Qed.

Lemma run_reachable (fuel : nat) (cs : list (op I)) (self : AVLTree I) :
  run fuel cs = Done self -> reachable self.
Proof. apply run_from_reachable. constructor. Qed.

Lemma run_mono (fuel fuel' : nat) (cs : list (op I)) (self : AVLTree I) :
  (fuel <= fuel')%nat -> run fuel cs = Done self -> run fuel' cs = Done self.
Proof. intros Hf H. unfold run in *. eapply run_from_mono; eauto. Qed.

(** Inserting keys that are new and pairwise distinct returns. *)
Lemma inserts_total (kvs : list (Z * I)) :
  forall self,
    invariant self -> NoDup (map fst kvs) ->
    (forall k, In k (map fst kvs) -> ~ In k (keys (root self))) ->
    exists fuel self',
      run_from fuel self (map (fun p => Ins (fst p) (snd p)) kvs) = Done self'
      /\ invariant self'
      /\ (forall k, In k (keys (root self'))
                    <-> In k (keys (root self)) \/ In k (map fst kvs)).
Proof.
  induction kvs as [|[k v] kvs IH]; intros self Inv ND Hnew.
  - exists O, self. split; [reflexivity|]. split; [exact Inv|].
    intros x. simpl. intuition.
  - simpl in ND. inversion ND as [|? ? Hk ND']; subst.
    destruct (setitem_total self k v Inv) as (f1 & s1 & H1).
    { apply Hnew. simpl. auto. }
    destruct (setitem_done _ _ _ _ _ Inv H1) as (Inv1 & _ & l1 & l2 & E & E').
    assert (K1 : forall x, In x (keys (root s1))
                           <-> x = k \/ In x (keys (root self))).
    { intros x. unfold keys. rewrite E, E'. apply keys_inserted. }
    destruct (IH s1 Inv1 ND') as (f2 & s' & H2 & Inv' & K2).
    { intros x Hx Hin. apply K1 in Hin. destruct Hin as [->|Hin].
      - contradiction.
      - apply (Hnew x); simpl; auto. }
    exists (Nat.max f1 f2), s'. split; [|split; [exact Inv'|]].
    + cbn [map]. rewrite (run_from_cons _ self s1).
      * eapply run_from_mono; [|exact H2]. lia.
      * simpl. eapply setitem_mono; [|exact H1]. lia.
    + intros x. rewrite K2, K1. simpl. intuition.
Qed.

(** Deleting keys that are present and pairwise distinct returns. *)
Lemma deletes_total (ds : list Z) :
  forall self,
    invariant self -> NoDup ds ->
    (forall k, In k ds -> In k (keys (root self))) ->
    exists fuel self',
      run_from fuel self (map (@Del I) ds) = Done self'
      /\ invariant self'
      /\ (forall k, In k (keys (root self'))
                    <-> In k (keys (root self)) /\ ~ In k ds).
Proof.
  induction ds as [|k ds IH]; intros self Inv ND Hin.
  - exists O, self. split; [reflexivity|]. split; [exact Inv|].
    intros x. simpl. intuition.
  - inversion ND as [|? ? Hk ND']; subst.
    destruct (delitem_total self k Inv) as (f1 & s1 & H1).
    { apply Hin. simpl. auto. }
    destruct (delitem_done _ _ _ _ Inv H1) as (Inv1 & _ & l1 & v & l2 & E & E').
    assert (K1 : forall x, In x (keys (root s1))
                           <-> In x (keys (root self)) /\ x <> k).
    { intros x. unfold keys. rewrite E, E'. apply keys_deleted.
      rewrite <- E. destruct Inv as (B & _). exact B. }
    destruct (IH s1 Inv1 ND') as (f2 & s' & H2 & Inv' & K2).
    { intros x Hx. apply K1. split.
      - apply Hin. simpl. auto.
      - intros ->. contradiction. }
    exists (Nat.max f1 f2), s'. split; [|split; [exact Inv'|]].
    + cbn [map]. rewrite (run_from_cons _ self s1).
      * eapply run_from_mono; [|exact H2]. lia.
      * simpl. eapply delitem_mono; [|exact H1]. lia.
    + intros x. rewrite K2, K1. simpl. intuition.
Qed.

End Operations.

(** * The claims *)

Lemma tree1_reachable : reachable tree1.
Proof. apply (run_reachable 3 scenario1). reflexivity. Qed.

Section Claims.
Context {I : Type}.
Local Abbreviation tree := (AVLTreeNode I).

(** C3: in every reachable tree state, for every index with
    0 <= index < count(), the rank lookup returns a node holding the key at
    position index (zero-based) of the ascending in-order key sequence, the
    sequence the iterator produces. *)
Theorem lookup_returns_rank (self : AVLTree I) (index : Z) :
  reachable self -> 0 <= index < __len__ self ->
  exists node k ks,
    lookup_root self index = (self, Ok node)
    /\ key_of node = Some k
    /\ drain (S (nodes (root self))) (__iter__ self) = Some ks
    /\ StronglySorted Z.lt ks
    /\ nth_error ks (Z.to_nat index) = Some k.
Proof.
  intros R Hi. destruct (reachable_invariant self R) as (B & Sz & _ & Hl).
  unfold __len__ in Hi. rewrite Hl in Hi.
  destruct (lookup_in_range (root self) index Sz Hi)
    as (l & k & v & h & s & r & E & N).
  exists (Node l k v h s r), k, (keys (root self)).
  split; [|split; [reflexivity|split; [apply drain_iter|split; [exact B|]]]].
  - unfold lookup_root. rewrite E. destruct self; reflexivity.
  - unfold keys. rewrite nth_error_map, N. reflexivity.
Qed.

(** C5: in every reachable tree state the key sequence produced by the
    in-order iterator is strictly ascending and its length equals count(). *)
Theorem iterator_ascending_and_complete (self : AVLTree I) :
  reachable self ->
  exists ks,
    drain (S (nodes (root self))) (__iter__ self) = Some ks
    /\ StronglySorted Z.lt ks
    /\ Z.of_nat (List.length ks) = __len__ self.
Proof.
  intros R. destruct (reachable_invariant self R) as (B & _ & _ & Hl).
  exists (keys (root self)). split; [apply drain_iter|]. split; [exact B|].
  rewrite length_keys. unfold __len__. rewrite Hl. reflexivity.
Qed.

(** C6: in every reachable tree state, inserting a key that is already
    present fails with the duplicate-key error ([ValueError]) and leaves the
    tree as it was: same structure, same associations, same count. *)
Theorem duplicate_insert_fails_unchanged
        (self : AVLTree I) (key : Z) (item : I) (fuel : nat) :
  reachable self -> __contains__ self key = true ->
  __setitem__ fuel self key item = Failed ValueError self.
Proof.
  intros R C. destruct (reachable_invariant self R) as (B & _).
  apply (contains_iff self key B) in C.
  unfold __setitem__. rewrite insert_aux_present; auto.
  destruct self; reflexivity.
Qed.

(** The two-children case of [delete_aux]: the successor is the minimum of
    the right subtree, its key and item overwrite those of the node, and its
    key is deleted from the right subtree. *)
Lemma delete_aux_two_children (fuel : nat) (l : tree) k v h s (r : tree) len :
  is_node l -> is_node r ->
  exists sk sv sh ss sr,
    get_successor (Node l k v h s r) = Node Absent sk sv sh ss sr
    /\ get_minimal r = Node Absent sk sv sh ss sr
    /\ delete_aux fuel (Node l k v h s r) len k
       = match delete_aux fuel r len sk with
         | Done (r', len') =>
             return_rebalance fuel
               (update_height (update_size (Node l sk sv h s r'))) len'
         | Failed e (r', len') => Failed e (Node l sk sv h s r', len')
         | Crashed e => Crashed e
         | Exhausted => Exhausted
         end.
Proof.
  intros Nl Nr.
  destruct l as [|ll lk lv lh ls lr]; [destruct Nl|].
  destruct r as [|rl rk rv rh rs rr]; [destruct Nr|].
  assert (M : exists sk sv sh ss sr,
             get_minimal (Node rl rk rv rh rs rr) = Node Absent sk sv sh ss sr).
  { clear. revert rk rv rh rs rr.
    induction rl as [|a IHa ak av ah as_ b _]; intros rk rv rh rs rr.
    - simpl. eauto 10.
    - destruct (IHa ak av ah as_ b) as (sk & sv & sh & ss & sr & E).
      exists sk, sv, sh, ss, sr. exact E. }
  destruct M as (sk & sv & sh & ss & sr & E).
  exists sk, sv, sh, ss, sr. split; [exact E|]. split; [exact E|].
  cbn [delete_aux]. rewrite Z.ltb_irrefl.
  replace (k >? k) with false by lia.
  cbn [is_leaf get_successor]. rewrite E. reflexivity.
Qed.

(** C7: in every reachable tree state, deleting a present key returns and
    removes exactly that key: afterwards the key is absent, count() is one
    less and every other key has its previous value; a node with two
    children receives the key and value of its successor (the minimum of its
    right subtree), which is then deleted from the right subtree; deleting an
    absent key fails with the key-not-found error ([ValueError]) and leaves
    the tree unchanged. *)
Theorem delete_removes_exactly_the_key (self : AVLTree I) (key : Z) :
  reachable self ->
  (__contains__ self key = true ->
     exists fuel self',
       (forall fuel', (fuel <= fuel')%nat ->
                      __delitem__ fuel' self key = Done self')
       /\ __contains__ self' key = false
       /\ __len__ self' = __len__ self - 1
       /\ (forall k, k <> key -> __getitem__ self' k = __getitem__ self k))
  /\ (__contains__ self key = false ->
      forall fuel, __delitem__ fuel self key = Failed ValueError self)
  /\ (forall fuel (l : tree) k v h s (r : tree) len,
        is_node l -> is_node r ->
        exists sk sv sh ss sr,
          get_successor (Node l k v h s r) = Node Absent sk sv sh ss sr
          /\ get_minimal r = Node Absent sk sv sh ss sr
          /\ delete_aux fuel (Node l k v h s r) len k
             = match delete_aux fuel r len sk with
               | Done (r', len') =>
                   return_rebalance fuel
                     (update_height (update_size (Node l sk sv h s r'))) len'
               | Failed e (r', len') => Failed e (Node l sk sv h s r', len')
               | Crashed e => Crashed e
               | Exhausted => Exhausted
               end).
Proof.
  intros R. pose proof (reachable_invariant self R) as Inv.
  pose proof Inv as (B & Sz & Hp & Hl).
  split; [|split].
  - intros C. apply (contains_iff self key B) in C.
    destruct (delitem_total self key Inv C) as (f & self' & H).
    destruct (delitem_done _ _ _ _ Inv H)
      as (Inv' & Hn & l1 & v & l2 & E & E').
    pose proof Inv' as (B' & _).
    exists f, self'. split; [|split; [|split]].
    + intros f' Hf. eapply delitem_mono; eauto.
    + apply (contains_false_iff self' key B').
      unfold keys. rewrite E'. intros Hin.
      apply (keys_deleted l1 l2 key v key) in Hin.
      * destruct Hin as (_ & Hne). congruence.
      * rewrite <- E. exact B.
    + exact Hn.
    + intros k Hk. apply getitem_ext; auto.
      intros x. rewrite E, E'. symmetry. apply pairs_deleted; auto.
  - intros C fuel. apply (contains_false_iff self key B) in C.
    unfold __delitem__. rewrite delete_aux_absent; auto.
    destruct self; reflexivity.
  - intros. apply delete_aux_two_children; auto.
Qed.

(** C8: for every n and every sequence of n distinct keys, inserting all of
    them into an empty tree and then deleting all of them, in any order,
    yields the empty tree: count() = 0 and the root is absent. *)
Theorem insert_all_delete_all_empties (kvs : list (Z * I)) (ds : list Z) :
  NoDup (map fst kvs) -> Permutation ds (map fst kvs) ->
  exists fuel, forall fuel', (fuel <= fuel')%nat ->
    exists self,
      run fuel' (map (fun p => Ins (fst p) (snd p)) kvs ++ map (@Del I) ds)
      = Done self
      /\ root self = Absent /\ __len__ self = 0 /\ is_empty self = true.
Proof.
  intros ND P.
  assert (Inv0 : invariant (@init I)).
  { repeat split; simpl; auto. constructor. }
  destruct (inserts_total kvs init Inv0 ND) as (f1 & s1 & H1 & Inv1 & K1).
  { intros k _ []. }
  destruct (deletes_total ds s1 Inv1) as (f2 & s2 & H2 & Inv2 & K2).
  { eapply Permutation_NoDup; [apply Permutation_sym; exact P|exact ND]. }
  { intros k Hk. apply K1. right. eapply Permutation_in; eauto. }
  assert (E : root s2 = Absent).
  { apply keys_nil. destruct (keys (root s2)) as [|x ks]; auto.
    exfalso. destruct (proj1 (K2 x) (or_introl eq_refl)) as (Hx & Hnd).
    apply Hnd.
    apply K1 in Hx. destruct Hx as [[]|Hx].
    eapply Permutation_in; [apply Permutation_sym; exact P|exact Hx]. }
  exists (Nat.max f1 f2). intros f' Hf. exists s2.
  split; [|split; [exact E|split]].
  - unfold run. rewrite (run_from_app f' init s1).
    + eapply run_from_mono; [|exact H2]. lia.
    + eapply run_from_mono; [|exact H1]. lia.
  - destruct Inv2 as (_ & _ & _ & Hl). unfold __len__. rewrite Hl, E.
    reflexivity.
  - unfold is_empty. rewrite E. reflexivity.
Qed.

(** C9: in every reachable tree state, a rank lookup with a valid index
    returns a node and leaves the tree unchanged, and a range extraction
    with a valid rank pair leaves the tree unchanged, whether it returns or
    raises: child links, keys, values, cached heights and cached sizes are
    the same after the query as before it. *)
Theorem rank_queries_leave_tree_unchanged (self : AVLTree I) :
  reachable self ->
  (forall index, 0 <= index < __len__ self ->
     exists node, lookup_root self index = (self, Ok node))
  /\ (forall i j, 0 <= i -> i <= j -> j < __len__ self ->
        fst (range_between self i j) = self).
Proof.
  intros R. destruct (reachable_invariant self R) as (B & Sz & _ & Hl).
  unfold __len__. rewrite Hl. split.
  - intros index Hi.
    destruct (lookup_in_range (root self) index Sz Hi)
      as (l & k & v & h & s & r & E & _).
    exists (Node l k v h s r). unfold lookup_root. rewrite E.
    destruct self; reflexivity.
  - intros i j _ _ _. apply range_between_frame. exact Sz.
Qed.

(** C10: in every reachable tree state the root is absent if and only if the
    stored element count is 0; is_empty() is true exactly when
    count() = 0. *)
Theorem root_absent_iff_count_zero (self : AVLTree I) :
  reachable self ->
  (root self = Absent <-> length self = 0)
  /\ (is_empty self = true <-> __len__ self = 0).
Proof.
  intros R. destruct (reachable_invariant self R) as (_ & _ & _ & Hl).
  unfold is_empty, __len__. rewrite Hl.
  destruct (root self) as [|l k v h s r].
  - unfold count. simpl. split; split; auto.
  - rewrite count_node.
    pose proof (count_nonneg l). pose proof (count_nonneg r).
    split; split; intros H1; try discriminate; lia.
Qed.

End Claims.

(** ** The claims on concrete trees *)

(** C1: the AVL balance condition fails in a reachable state.  The eleven
    insertions of [unbalancing] return the tree [unbalanced], whose root
    (key 3) has a left subtree of true height 2 and a right subtree of true
    height 4. *)
Theorem avl_balance_violated :
  (forall fuel, run (3 + fuel) unbalancing = Done unbalanced)
  /\ reachable unbalanced
  /\ key_of (root unbalanced) = Some 3
  /\ true_height (left_of (root unbalanced)) = 2
  /\ true_height (right_of (root unbalanced)) = 4
  /\ avl_balanced (root unbalanced) = false.
Proof.
  assert (E : run 3 unbalancing = Done unbalanced) by (vm_compute; reflexivity).
  split; [|split; [exact (run_reachable 3 unbalancing unbalanced E)|]].
  - intros fuel.
    exact (run_mono 3 (3 + fuel) unbalancing unbalanced (Nat.le_add_r 3 fuel) E).
  - vm_compute. auto.
Qed.

(** C2: the cached height is not 1 + the larger of the children's cached
    heights in a reachable state.  Inserting 3, 2, 1 returns the tree
    [rotated3], whose root (key 2) has height 4 above two leaves of height 1:
    [right_rotate] assigns the height of the promoted child before that of
    the demoted node, where [left_rotate] assigns them in the other order. *)
Theorem cached_heights_inconsistent :
  (forall fuel, run (3 + fuel) descending3 = Done rotated3)
  /\ reachable rotated3
  /\ key_of (root rotated3) = Some 2
  /\ get_height (root rotated3) = 4
  /\ get_height (left_of (root rotated3)) = 1
  /\ get_height (right_of (root rotated3)) = 1
  /\ heights_consistent (root rotated3) = false.
Proof.
  assert (E : run 3 descending3 = Done rotated3) by (vm_compute; reflexivity).
  split; [|split; [exact (run_reachable 3 descending3 rotated3 E)|]].
  - intros fuel.
    exact (run_mono 3 (3 + fuel) descending3 rotated3 (Nat.le_add_r 3 fuel) E).
  - vm_compute. auto 10.
Qed.

(** C4: a range extraction on the empty tree returns the empty list instead
    of failing, and with j = N on a tree of N = 5 nodes it passes the
    assertion and stops with [AttributeError] in [lookup]; a rank lookup at
    index N stops the same way. *)
Theorem range_between_accepts_out_of_range :
  range_between (@init Z) 0 0 = (init, Ok [])
  /\ range_between tree1 0 5 = (tree1, Err AttributeError)
  /\ lookup_root tree1 5 = (tree1, Err AttributeError)
  /\ range_between tree1 0 7 = (tree1, Err ValueError).
Proof. vm_compute. auto. Qed.

(** ** Witnesses *)

Lemma lookup_returns_rank_witness :
  reachable tree1 /\ 0 <= 2 < __len__ tree1
  /\ exists node k ks,
      lookup_root tree1 2 = (tree1, Ok node)
      /\ key_of node = Some k
      /\ drain (S (nodes (root tree1))) (__iter__ tree1) = Some ks
      /\ StronglySorted Z.lt ks
      /\ nth_error ks (Z.to_nat 2) = Some k.
Proof.
  split; [exact tree1_reachable|]. split; [simpl; lia|].
  apply (lookup_returns_rank tree1 2); [exact tree1_reachable|simpl; lia].
Defined.

Lemma iterator_ascending_and_complete_witness :
  reachable tree1
  /\ exists ks,
      drain (S (nodes (root tree1))) (__iter__ tree1) = Some ks
      /\ StronglySorted Z.lt ks
      /\ Z.of_nat (List.length ks) = __len__ tree1.
Proof.
  split; [exact tree1_reachable|].
  apply (iterator_ascending_and_complete tree1). exact tree1_reachable.
Defined.

Lemma duplicate_insert_fails_unchanged_witness :
  reachable tree1 /\ __contains__ tree1 5 = true
  /\ __setitem__ 3 tree1 5 5 = Failed ValueError tree1.
Proof.
  split; [exact tree1_reachable|]. split; [reflexivity|].
  apply (duplicate_insert_fails_unchanged tree1 5 5 3);
    [exact tree1_reachable|reflexivity].
Defined.

Lemma delete_removes_exactly_the_key_witness :
  reachable tree1
  /\ (__contains__ tree1 5 = true ->
      exists fuel self',
        (forall fuel', (fuel <= fuel')%nat ->
                       __delitem__ fuel' tree1 5 = Done self')
        /\ __contains__ self' 5 = false
        /\ __len__ self' = __len__ tree1 - 1
        /\ (forall k, k <> 5 -> __getitem__ self' k = __getitem__ tree1 k)).
Proof.
  split; [exact tree1_reachable|].
  apply (delete_removes_exactly_the_key tree1 5). exact tree1_reachable.
Defined.

Lemma insert_all_delete_all_empties_witness :
  NoDup (map fst [(5, 5); (3, 3); (8, 8)])
  /\ Permutation [3; 8; 5] (map fst [(5, 5); (3, 3); (8, 8)])
  /\ exists fuel, forall fuel', (fuel <= fuel')%nat ->
      exists self,
        run fuel' (map (fun p => Ins (fst p) (snd p)) [(5, 5); (3, 3); (8, 8)]
                   ++ map (@Del Z) [3; 8; 5])
        = Done self
        /\ root self = Absent /\ __len__ self = 0 /\ is_empty self = true.
Proof.
  assert (ND : NoDup (map fst [(5, 5); (3, 3); (8, 8)])).
  { simpl. repeat constructor; simpl; intros H; decompose [or] H; lia. }
  assert (P : Permutation [3; 8; 5] (map fst [(5, 5); (3, 3); (8, 8)])).
  { simpl. apply perm_trans with [3; 5; 8].
    - apply perm_skip. apply perm_swap.
    - apply perm_swap. }
  split; [exact ND|]. split; [exact P|].
  apply (insert_all_delete_all_empties [(5, 5); (3, 3); (8, 8)] [3; 8; 5] ND P).
Defined.

Lemma rank_queries_leave_tree_unchanged_witness :
  reachable tree1
  /\ (forall index, 0 <= index < __len__ tree1 ->
        exists node, lookup_root tree1 index = (tree1, Ok node))
  /\ (forall i j, 0 <= i -> i <= j -> j < __len__ tree1 ->
        fst (range_between tree1 i j) = tree1).
Proof.
  split; [exact tree1_reachable|].
  apply (rank_queries_leave_tree_unchanged tree1). exact tree1_reachable.
Defined.

Lemma root_absent_iff_count_zero_witness :
  reachable tree1
  /\ (root tree1 = Absent <-> length tree1 = 0)
  /\ (is_empty tree1 = true <-> __len__ tree1 = 0).
Proof.
  split; [exact tree1_reachable|].
  apply (root_absent_iff_count_zero tree1). exact tree1_reachable.
Defined.

(** * Further properties of the tree *)

Section MoreLemmas.
Context {I : Type}.
Local Abbreviation tree := (AVLTreeNode I).

(** A key occurs at one place of a strictly ascending sequence. *)
Lemma ascending_split_unique (l1 l2 l1' l2' : list (Z * I)) k v v' :
  StronglySorted Z.lt (map fst (l1 ++ (k, v) :: l2)) ->
  l1 ++ (k, v) :: l2 = l1' ++ (k, v') :: l2' ->
  l1 = l1' /\ v = v' /\ l2 = l2'.
Proof.
  revert l1'. induction l1 as [|a l1 IH]; intros l1' S E.
  - simpl in E.
    destruct (ascending_head_unique l1' l2' l2 k v v' S E) as (-> & -> & ->).
    auto.
  - destruct l1' as [|b l1']; simpl in E.
    + exfalso. inversion E; subst. simpl in S.
      apply ascending_cons_inv in S. destruct S as (_ & F).
      rewrite Forall_forall in F.
      assert (k < k); [|lia]. apply F.
      rewrite map_app, in_app_iff. right. simpl. auto.
    + inversion E; subst. simpl in S. apply ascending_cons_inv in S.
      destruct S as (S & _).
      destruct (IH l1' S H1) as (-> & -> & ->). auto.
Qed.

Lemma dominated_height_covers (t : tree) : dominated t -> height_covers t.
Proof.
  induction t as [|l IHl k v h s r IHr]; [constructor|].
  intros (Hl & Hr & Dl & Dr).
  specialize (IHl Dl). specialize (IHr Dr).
  cbn [height_covers]. split; [|auto].
  assert (true_height l <= get_height l).
  { destruct l; cbn [height_covers get_height] in *; [simpl; lia|tauto]. }
  assert (true_height r <= get_height r).
  { destruct r; cbn [height_covers get_height] in *; [simpl; lia|tauto]. }
  cbn [true_height]. lia.
Qed.

Lemma getitem_some (self : AVLTree I) key v :
  bst (root self) ->
  __getitem__ self key = Some v <-> In (key, v) (elements (root self)).
Proof.
  intros B. split.
  - intros H. destruct (In_dec_keys (root self) key) as [Hin|Hin].
    + apply in_keys_elements in Hin. destruct Hin as (v' & Hv).
      rewrite (getitem_in self key v' B Hv) in H. congruence.
    + rewrite getitem_none in H; auto. discriminate.
  - apply getitem_in; auto.
Qed.

(** [lookup] raises nothing but [AttributeError]. *)
Lemma lookup_at_error (t : tree) :
  forall sz index t' e, lookup_at t sz index = (t', Err e) -> e = AttributeError.
Proof.
  induction t as [|l IHl k v h s r IHr]; intros sz index t' e H.
  - simpl in H. congruence.
  - cbn [lookup_at] in H.
    destruct (size l) as [l1 s1].
    destruct (index =? s1); [discriminate|].
    destruct (size l1) as [l2 s2].
    destruct (index <? s2).
    + destruct (lookup_at l (size_of l2) index) as [l3 found] eqn:E.
      inversion H; subst. eapply IHl; eauto.
    + destruct (size l2) as [l3 s3].
      destruct (lookup_at r (size_of r) (index - s3 - 1)) as [r' found] eqn:E.
      inversion H; subst. eapply IHr; eauto.
Qed.

Lemma range_aux_n_error (n : nat) :
  forall (t : tree) i res t' e,
    range_aux_n n t i res = (t', Err e) -> e = AttributeError.
Proof.
  induction n as [|n IH]; intros t i res t' e H.
  - destruct t; simpl in H; discriminate.
  - destruct t as [|l k v h s r]; [simpl in H; discriminate|].
    cbn [range_aux_n] in H.
    destruct (lookup (Node l k v h s r) i) as [t1 [[|fl fk fv fh fs fr]|e1]] eqn:E.
    + congruence.
    + eapply IH; eauto.
    + inversion H; subst. unfold lookup in E. eapply lookup_at_error; eauto.
Qed.

(** The stack of an iterator that has nothing left to produce is empty. *)
Lemma pending_nil (st : list tree) : Forall is_node st -> pending st = [] -> st = [].
Proof.
  intros F H. destruct st as [|[|l k v h s r] st]; auto.
  - inversion F; subst. contradiction.
  - discriminate.
Qed.

Lemma next_stops (it : BSTInOrderIterator I) :
  Forall is_node (stack it) ->
  keys (current it) ++ pending (stack it) = [] ->
  __next__ it = None.
Proof.
  destruct it as [st cur]. cbn [stack current]. intros F E.
  destruct (push_left_spine_spec cur st F) as (F' & P & _).
  unfold __next__. cbn [stack current].
  rewrite (pending_nil _ F'); [reflexivity|]. rewrite P. exact E.
Qed.

Lemma next_n_prefix (n : nat) :
  forall it : BSTInOrderIterator I,
    Forall is_node (stack it) ->
    (n <= List.length (keys (current it) ++ pending (stack it)))%nat ->
    exists it',
      next_n n it
      = Some (firstn n (keys (current it) ++ pending (stack it)), it')
      /\ Forall is_node (stack it')
      /\ keys (current it') ++ pending (stack it')
         = skipn n (keys (current it) ++ pending (stack it)).
Proof.
  induction n as [|n IH]; intros [st cur] F Hn; cbn [stack current] in *.
  - exists {| stack := st; current := cur |}. simpl. auto.
  - destruct (push_left_spine_spec cur st F) as (F' & P & W).
    cbn [next_n]. unfold __next__. cbn [stack current].
    rewrite <- P in *.
    destruct (push_left_spine cur st) as [|[|l k v h s r] st'].
    + simpl in Hn. lia.
    + inversion F'; subst. contradiction.
    + inversion F' as [|? ? _ F'']; subst. cbn [pending] in *.
      destruct (IH {| stack := st'; current := r |} F'') as (it' & E & G & R).
      { simpl in Hn. cbn [stack current]. lia. }
      cbn [stack current] in E, R. rewrite E.
      exists it'. simpl. auto.
Qed.

(** Keys below and above a key in a strictly ascending sequence. *)
Lemma rank_of_split (l1 l2 : list (Z * I)) key :
  Forall (fun x => fst x < key) l1 -> Forall (fun x => key <= fst x) l2 ->
  rank_of key (map fst (l1 ++ l2)) = Z.of_nat (List.length l1).
Proof.
  intros F1 F2. unfold rank_of. f_equal.
  rewrite map_app, filter_app, length_app.
  assert (E1 : filter (fun x => x <? key) (map fst l1) = map fst l1).
  { clear F2. induction F1 as [|a l Ha _ IH]; simpl; auto.
    replace (fst a <? key) with true by lia. rewrite IH. reflexivity. }
  assert (E2 : filter (fun x => x <? key) (map fst l2) = []).
  { clear F1 E1. induction F2 as [|a l Ha _ IH]; simpl; auto.
    replace (fst a <? key) with false by lia. exact IH. }
  rewrite E1, E2, length_map. simpl. lia.
Qed.

Lemma insert_aux_rank (fuel : nat) (self self' : AVLTree I) key item :
  invariant self -> __setitem__ fuel self key item = Done self' ->
  exists l1 l2,
    elements (root self') = l1 ++ (key, item) :: l2
    /\ rank_of key (keys (root self)) = Z.of_nat (List.length l1).
Proof.
  intros (B & Sz & Hp & Hl) H. unfold __setitem__ in H.
  apply store_done in H. apply insert_aux_done in H; auto.
  destruct H as (_ & _ & _ & l1 & l2 & E & E' & F1 & F2).
  exists l1, l2. split; [exact E'|].
  unfold keys. rewrite E. apply rank_of_split; auto.
  eapply Forall_impl; [|exact F2]. simpl. intros; lia.
Qed.

Lemma run_from_length (fuel : nat) (cs : list (op I)) :
  forall self self',
    invariant self -> run_from fuel self cs = Done self' ->
    length self' = length self + insertions cs - deletions cs.
Proof.
  induction cs as [|c cs IH]; intros self self' Inv H.
  - rewrite run_from_nil in H. inversion H; subst. simpl. lia.
  - destruct (run_from_cons_inv _ _ _ _ _ H) as (s1 & H1 & H2).
    destruct c as [k v|k]; simpl in H1.
    + destruct (setitem_done _ _ _ _ _ Inv H1) as (Inv1 & Hn & _).
      rewrite (IH _ _ Inv1 H2), Hn. cbn [insertions deletions]. lia.
    + destruct (delitem_done _ _ _ _ Inv H1) as (Inv1 & Hn & _).
      rewrite (IH _ _ Inv1 H2), Hn. cbn [insertions deletions]. lia.
Qed.

(** Insertions of pairwise distinct new keys return and add the pairs. *)
Lemma inserts_elements (kvs : list (Z * I)) :
  forall self,
    invariant self -> NoDup (map fst kvs) ->
    (forall k, In k (map fst kvs) -> ~ In k (keys (root self))) ->
    exists fuel self',
      run_from fuel self (inserts kvs) = Done self'
      /\ invariant self'
      /\ Permutation (elements (root self')) (kvs ++ elements (root self)).
Proof.
  induction kvs as [|[k v] kvs IH]; intros self Inv ND Hnew.
  - exists O, self. split; [reflexivity|]. split; [exact Inv|]. reflexivity.
  - simpl in ND. inversion ND as [|? ? Hk ND']; subst.
    destruct (setitem_total self k v Inv) as (f1 & s1 & H1).
    { apply Hnew. simpl. auto. }
    destruct (setitem_done _ _ _ _ _ Inv H1) as (Inv1 & _ & l1 & l2 & E & E').
    destruct (IH s1 Inv1 ND') as (f2 & s' & H2 & Inv' & P).
    { intros x Hx. unfold keys. rewrite E'.
      intros Hin. apply keys_inserted in Hin. destruct Hin as [->|Hin].
      - contradiction.
      - rewrite <- E in Hin. revert Hin. apply Hnew. simpl. auto. }
    exists (Nat.max f1 f2), s'. split; [|split; [exact Inv'|]].
    + unfold inserts. cbn [map]. rewrite (run_from_cons _ self s1).
      * eapply run_from_mono; [|exact H2]. lia.
      * simpl. eapply setitem_mono; [|exact H1]. lia.
    + rewrite P, E', E. simpl. apply Permutation_sym.
      replace (kvs ++ l1 ++ (k, v) :: l2) with ((kvs ++ l1) ++ (k, v) :: l2)
        by (rewrite <- app_assoc; reflexivity).
      apply Permutation_cons_app. rewrite app_assoc. reflexivity.
Qed.

End MoreLemmas.

Section MinMax.
Context {I : Type}.
Local Abbreviation tree := (AVLTreeNode I).

Lemma get_minimal_first (t : tree) :
  is_node t ->
  exists k v h s r rest,
    get_minimal t = Node Absent k v h s r /\ elements t = (k, v) :: rest.
Proof.
  induction t as [|l IHl k v h s r _]; intros N; [destruct N|].
  destruct l as [|ll lk lv lh ls lr].
  - simpl. eauto 10.
  - destruct (IHl Logic.I) as (mk & mv & mh & ms & mr & rest & E1 & E2).
    exists mk, mv, mh, ms, mr, (rest ++ (k, v) :: elements r).
    split; [exact E1|].
    change (elements (Node (Node ll lk lv lh ls lr) k v h s r))
      with (elements (Node ll lk lv lh ls lr) ++ (k, v) :: elements r).
    rewrite E2. reflexivity.
Qed.

Lemma get_maximal_last (t : tree) :
  is_node t ->
  exists l k v h s front,
    get_maximal t = Node l k v h s Absent /\ elements t = front ++ [(k, v)].
Proof.
  induction t as [|l _ k v h s r IHr]; intros N; [destruct N|].
  destruct r as [|rl rk rv rh rs rr].
  - exists l, k, v, h, s, (elements l). split; reflexivity.
  - destruct (IHr Logic.I) as (ml & mk & mv & mh & ms & front & E1 & E2).
    exists ml, mk, mv, mh, ms, (elements l ++ (k, v) :: front).
    split; [exact E1|].
    change (elements (Node l k v h s (Node rl rk rv rh rs rr)))
      with (elements l ++ (k, v) :: elements (Node rl rk rv rh rs rr)).
    rewrite E2, <- app_assoc. reflexivity.
Qed.

End MinMax.

Section Contents.
Context {I : Type}.
Local Abbreviation tree := (AVLTreeNode I).

(** X1: in a reachable tree, inserting a key that is absent returns (for
    every recursion allowance above some bound); afterwards the key maps to
    the inserted item, the count is one more, and every other key maps to
    what it mapped to before. *)
Theorem insert_adds_binding (self : AVLTree I) (key : Z) (item : I) :
  reachable self -> __contains__ self key = false ->
  exists fuel self',
    (forall fuel', (fuel <= fuel')%nat ->
                   __setitem__ fuel' self key item = Done self')
    /\ __getitem__ self' key = Some item
    /\ __contains__ self' key = true
    /\ __len__ self' = __len__ self + 1
    /\ (forall k, k <> key -> __getitem__ self' k = __getitem__ self k).
Proof.
  intros R C. pose proof (reachable_invariant self R) as Inv.
  pose proof Inv as (B & _).
  apply (contains_false_iff self key B) in C.
  destruct (setitem_total self key item Inv C) as (f & self' & H).
  destruct (setitem_done _ _ _ _ _ Inv H) as (Inv' & Hn & l1 & l2 & E & E').
  pose proof Inv' as (B' & _).
  assert (G : __getitem__ self' key = Some item).
  { apply getitem_in; auto. rewrite E'. apply in_or_app. right. left.
    reflexivity. }
  exists f, self'. split; [|split; [exact G|split; [|split; [exact Hn|]]]].
  - intros f' Hf. eapply setitem_mono; eauto.
  - unfold __contains__. rewrite G. reflexivity.
  - intros k Hk. apply getitem_ext; auto.
    intros x. rewrite E, E'. apply pairs_deleted; auto.
Qed.

(** X2: on a node whose two subtrees have every height field above the
    fields of its children, [rebalance] returns; the tree returned has the
    same in-order (key, item) sequence and the same number of nodes, its
    root's balance factor, computed from the height fields as [get_balance]
    does, lies in [-1, 1], and its subtrees still have every height field
    above those of the children. *)
Theorem rebalance_returns_same_contents (t : tree) :
  is_node t -> dominated (left_of t) -> dominated (right_of t) ->
  exists fuel t',
    (forall fuel', (fuel <= fuel')%nat -> rebalance fuel' t = Done t')
    /\ elements t' = elements t
    /\ nodes t' = nodes t
    /\ -1 <= get_balance t' <= 1
    /\ dominated (left_of t') /\ dominated (right_of t').
Proof.
  intros N Dl Dr.
  destruct (rebalance_total t N Dl Dr)
    as (f & t' & H & (_ & Hn & Dl' & Dr' & Hb & _)).
  destruct (rebalance_rebalanced f t t' H) as (E & _).
  exists f, t'. split; [|auto].
  intros f' Hf. eapply rebalance_mono; eauto.
Qed.

(** X3: in every reachable state the [size] field of every node is the
    number of nodes of its subtree, so [size] on the root returns the
    count and stores what is already there. *)
Theorem cached_sizes_count_subtrees (self : AVLTree I) :
  reachable self ->
  sizes_ok (root self) /\ size (root self) = (root self, __len__ self).
Proof.
  intros R. destruct (reachable_invariant self R) as (_ & Sz & _ & Hl).
  split; [exact Sz|]. unfold __len__. rewrite Hl. apply size_fixed. exact Sz.
Qed.

(** X4: in every reachable state the [height] field of every node is
    greater than the [height] fields of both its children and at least the
    true height of its subtree: a stale field is never too small. *)
Theorem cached_heights_bound_true_heights (self : AVLTree I) :
  reachable self ->
  dominated (root self) /\ height_covers (root self)
  /\ true_height (root self) <= get_height (root self).
Proof.
  intros R. destruct (reachable_invariant self R) as (_ & _ & D & _).
  pose proof (dominated_height_covers _ D) as C.
  split; [exact D|]. split; [exact C|].
  destruct (root self); simpl in *; [lia|tauto].
Qed.

(** X5: on a tree whose in-order keys are strictly ascending,
    [__getitem__] returns the item stored with the key, the node found by
    [get_tree_node_by_key] carries that key, and the [KeyError] is raised
    exactly for the keys that are not in the tree. *)
Theorem getitem_returns_stored_item (self : AVLTree I) (key : Z) :
  bst (root self) ->
  (forall v, __getitem__ self key = Some v
             <-> In (key, v) (elements (root self)))
  /\ (forall node, get_tree_node_by_key self key = Some node ->
                   key_of node = Some key)
  /\ (get_tree_node_by_key self key = None <-> ~ In key (keys (root self))).
Proof.
  intros B. split; [|split].
  - intros v. apply getitem_some. exact B.
  - unfold get_tree_node_by_key. generalize (root self). clear.
    intros t. induction t as [|l IHl k v h s r IHr]; intros node H; [discriminate|].
    cbn [get_tree_node_by_key_aux] in H.
    destruct (key =? k) eqn:E.
    + inversion H; subst. simpl. f_equal. lia.
    + destruct (key <? k); auto.
  - split.
    + intros H Hin. apply in_keys_elements in Hin. destruct Hin as (v & Hv).
      destruct (get_found _ _ _ B Hv) as (l & h & s & r & E).
      unfold get_tree_node_by_key in H. congruence.
    + apply get_none.
Qed.

(** X6: on a non-empty tree [get_minimal] returns a node without a left
    child that holds the first pair of the in-order sequence; when the keys
    are strictly ascending, no key of the tree is smaller than its key. *)
Theorem get_minimal_is_least (t : tree) :
  is_node t ->
  exists k v h s r rest,
    get_minimal t = Node Absent k v h s r
    /\ elements t = (k, v) :: rest
    /\ (bst t -> forall x, In x (keys t) -> k <= x).
Proof.
  intros N.
  destruct (get_minimal_first t N) as (k & v & h & s & r & rest & E1 & E2).
  exists k, v, h, s, r, rest. split; [exact E1|]. split; [exact E2|].
  intros B x Hx. unfold bst, keys in *. rewrite E2 in *. simpl in *.
  apply ascending_cons_inv in B. destruct B as (_ & F).
  rewrite Forall_forall in F. destruct Hx as [->|Hx]; [lia|].
  specialize (F _ Hx). lia.
Qed.

(** X7: on a non-empty tree [get_maximal] returns a node without a right
    child that holds the last pair of the in-order sequence; when the keys
    are strictly ascending, no key of the tree is larger than its key. *)
Theorem get_maximal_is_greatest (t : tree) :
  is_node t ->
  exists l k v h s front,
    get_maximal t = Node l k v h s Absent
    /\ elements t = front ++ [(k, v)]
    /\ (bst t -> forall x, In x (keys t) -> x <= k).
Proof.
  intros N.
  destruct (get_maximal_last t N) as (l & k & v & h & s & front & E1 & E2).
  exists l, k, v, h, s, front. split; [exact E1|]. split; [exact E2|].
  intros B x Hx. unfold bst, keys in *. rewrite E2, map_app in *. simpl in *.
  apply ascending_app_inv in B. destruct B as (_ & _ & F & _).
  rewrite Forall_forall in F. apply in_app_or in Hx.
  destruct Hx as [Hx|[->|[]]]; [|lia].
  specialize (F _ Hx). lia.
Qed.

(** X8: [get_successor] of a node without a right child is [None]; of a
    node with a right child, in a tree with strictly ascending keys, it is
    the node of the subtree with the smallest key above the node's key. *)
Theorem get_successor_is_next_key (l : tree) k v h s (r : tree) :
  bst (Node l k v h s r) ->
  (r = Absent -> get_successor (Node l k v h s r) = Absent)
  /\ (is_node r ->
      exists sk sv sh ss sr,
        get_successor (Node l k v h s r) = Node Absent sk sv sh ss sr
        /\ In (sk, sv) (elements (Node l k v h s r))
        /\ k < sk
        /\ (forall x, In x (keys (Node l k v h s r)) -> k < x -> sk <= x)).
Proof.
  intros B. split; [intros ->; reflexivity|]. intros N.
  destruct (get_minimal_first r N) as (sk & sv & sh & ss & sr & rest & E1 & E2).
  exists sk, sv, sh, ss, sr.
  pose proof B as B0. apply bst_node_inv in B0.
  destruct B0 as (Bl & Br & Fl & Fr). rewrite Forall_forall in Fl, Fr.
  assert (Hin : In (sk, sv) (elements r)) by (rewrite E2; simpl; auto).
  split; [|split; [|split]].
  - destruct r; [destruct N|exact E1].
  - simpl. apply in_or_app. right. right. exact Hin.
  - apply (Fr _ Hin).
  - intros x Hx Hk. rewrite keys_node in Hx. apply in_app_or in Hx.
    destruct Hx as [Hx|[Hx|Hx]].
    + unfold keys in Hx. apply in_map_iff in Hx.
      destruct Hx as (p & <- & Hp). specialize (Fl _ Hp). lia.
    + lia.
    + unfold bst, keys in Br. unfold keys in Hx. rewrite E2 in Br, Hx.
      simpl in Br, Hx. apply ascending_cons_inv in Br. destruct Br as (_ & F).
      rewrite Forall_forall in F. destruct Hx as [->|Hx]; [lia|].
      specialize (F _ Hx). lia.
Qed.

(** X9: in every reachable state a rank lookup with an index below 0 or
    not below the count stops with [AttributeError] (an attribute of
    [None] is read) and leaves the tree as it was. *)
Theorem lookup_out_of_range_raises (self : AVLTree I) (index : Z) :
  reachable self -> index < 0 \/ __len__ self <= index ->
  lookup_root self index = (self, Err AttributeError).
Proof.
  intros R Hi. destruct (reachable_invariant self R) as (_ & Sz & _ & Hl).
  unfold __len__ in Hi. rewrite Hl in Hi. unfold lookup_root.
  rewrite lookup_out_of_range; auto. destruct self; reflexivity.
Qed.

End Contents.

Section RoundTrips.
Context {I : Type}.
Local Abbreviation tree := (AVLTreeNode I).

(** Where a new key goes in a strictly ascending sequence is determined by
    the keys around it. *)
Lemma ascending_insert_unique (l1 l2 m1 m2 : list (Z * I)) key :
  m1 ++ m2 = l1 ++ l2 ->
  Forall (fun x => fst x < key) m1 -> Forall (fun x => key < fst x) m2 ->
  Forall (fun x => fst x < key) l1 -> Forall (fun x => key < fst x) l2 ->
  m1 = l1 /\ m2 = l2.
Proof.
  revert m1. induction l1 as [|a l1 IH]; intros m1 F G1 G2 K1 K2.
  - destruct m1 as [|b m1]; simpl in *; [auto|].
    exfalso. inversion G1; subst. rewrite Forall_forall in K2.
    assert (key < fst b); [|lia]. apply K2. simpl. auto.
  - destruct m1 as [|b m1]; simpl in F.
    + exfalso. inversion K1; subst. rewrite Forall_forall in G2.
      assert (key < fst a); [|lia]. apply G2. simpl. auto.
    + inversion F; subst. inversion G1; subst. inversion K1; subst.
      destruct (IH m1) as (-> & ->); auto.
Qed.

(** X10: in every reachable state of N nodes, [range_between] raises the
    [ValueError] of its assertion exactly when i < 0, j < i or j > N + 1,
    and whatever it returns or raises it leaves the tree as it was. *)
Theorem range_between_value_error_iff (self : AVLTree I) (i j : Z) :
  reachable self ->
  (snd (range_between self i j) = Err ValueError
   <-> i < 0 \/ j < i \/ __len__ self + 1 < j)
  /\ fst (range_between self i j) = self.
Proof.
  intros R. destruct (reachable_invariant self R) as (_ & Sz & _ & Hl).
  split; [|apply range_between_frame; exact Sz].
  unfold range_between, __len__. rewrite (size_fixed _ Sz), Hl.
  destruct (((i >=? 0) && (i <=? count (root self) + 1))
            && ((j >=? 0) && (j <=? count (root self) + 1)) && (j >=? i))
    eqn:C.
  - destruct (range_aux (root self) i j []) as [t' res] eqn:E. simpl.
    split.
    + intros ->. unfold range_aux in E. apply range_aux_n_error in E.
      discriminate.
    + intros H. exfalso.
      apply andb_prop in C. destruct C as (C & C3).
      apply andb_prop in C. destruct C as (C1 & C2).
      apply andb_prop in C1. apply andb_prop in C2. lia.
  - simpl. split; [|reflexivity]. intros _.
    apply andb_false_iff in C. destruct C as [C|C]; [|lia].
    apply andb_false_iff in C. destruct C as [C|C];
      apply andb_false_iff in C; lia.
Qed.

(** X11: on any tree, ordered or not, the first m calls of [__next__]
    return the first m keys of the in-order sequence, for every m up to the
    number of nodes; once all keys are returned the next call raises
    [StopIteration]. *)
Theorem iterator_walks_in_order (self : AVLTree I) (m : nat) :
  (m <= nodes (root self))%nat ->
  exists it',
    next_n m (__iter__ self) = Some (firstn m (keys (root self)), it')
    /\ (m = nodes (root self) -> __next__ it' = None).
Proof.
  intros Hm.
  destruct (next_n_prefix m (__iter__ self)) as (it' & E & F & R).
  - constructor.
  - simpl. rewrite app_nil_r, length_keys. exact Hm.
  - simpl in E, R. rewrite app_nil_r in E, R. exists it'. split; [exact E|].
    intros ->. apply next_stops; auto.
    rewrite R. apply skipn_all2. rewrite length_keys. lia.
Qed.

(** X12: in every reachable state the membership test agrees with the
    iterator: [key in tree] is true exactly for the keys the iterator
    produces. *)
Theorem contains_agrees_with_iteration (self : AVLTree I) (key : Z) :
  reachable self ->
  exists ks,
    drain (S (nodes (root self))) (__iter__ self) = Some ks
    /\ (__contains__ self key = true <-> In key ks).
Proof.
  intros R. destruct (reachable_invariant self R) as (B & _).
  exists (keys (root self)). split; [apply drain_iter|].
  apply contains_iff. exact B.
Qed.

(** X13: in every reachable state, inserting an absent key and then
    deleting it returns a tree with the in-order (key, item) sequence, the
    count and the associations it had before. *)
Theorem insert_then_delete_restores_contents
        (self : AVLTree I) (key : Z) (item : I) :
  reachable self -> __contains__ self key = false ->
  exists fuel s1 s2,
    (forall fuel', (fuel <= fuel')%nat ->
       __setitem__ fuel' self key item = Done s1
       /\ __delitem__ fuel' s1 key = Done s2)
    /\ elements (root s2) = elements (root self)
    /\ __len__ s2 = __len__ self
    /\ (forall k, __getitem__ s2 k = __getitem__ self k).
Proof.
  intros R C. pose proof (reachable_invariant self R) as Inv.
  pose proof Inv as (B & _).
  apply (contains_false_iff self key B) in C.
  destruct (setitem_total self key item Inv C) as (f1 & s1 & H1).
  destruct (setitem_done _ _ _ _ _ Inv H1) as (Inv1 & Hn1 & l1 & l2 & E & E').
  pose proof Inv1 as (B1 & _).
  assert (Hin : In key (keys (root s1))).
  { unfold keys. rewrite E'. apply keys_inserted. auto. }
  destruct (delitem_total s1 key Inv1 Hin) as (f2 & s2 & H2).
  destruct (delitem_done _ _ _ _ Inv1 H2) as (Inv2 & Hn2 & m1 & v & m2 & D & D').
  pose proof Inv2 as (B2 & _).
  assert (U : l1 = m1 /\ item = v /\ l2 = m2).
  { apply (ascending_split_unique l1 l2 m1 m2 key item v).
    - unfold bst, keys in B1. rewrite E' in B1. exact B1.
    - rewrite <- E', <- D. reflexivity. }
  destruct U as (<- & <- & <-).
  assert (Es : elements (root s2) = elements (root self)) by congruence.
  exists (Nat.max f1 f2), s1, s2. split; [|split; [exact Es|split]].
  - intros f' Hf. split.
    + eapply setitem_mono; [|exact H1]. lia.
    + eapply delitem_mono; [|exact H2]. lia.
  - unfold __len__. lia.
  - intros k. apply getitem_ext; auto. intros x. rewrite Es. tauto.
Qed.

(** X14: in every reachable state, deleting a present key and inserting it
    again with the item it had returns a tree with the in-order
    (key, item) sequence and the count it had before. *)
Theorem delete_then_insert_restores_contents
        (self : AVLTree I) (key : Z) (item : I) :
  reachable self -> __getitem__ self key = Some item ->
  exists fuel s1 s2,
    (forall fuel', (fuel <= fuel')%nat ->
       __delitem__ fuel' self key = Done s1
       /\ __setitem__ fuel' s1 key item = Done s2)
    /\ elements (root s2) = elements (root self)
    /\ __len__ s2 = __len__ self.
Proof.
  intros R G. pose proof (reachable_invariant self R) as Inv.
  pose proof Inv as (B & _).
  apply (getitem_some self key item B) in G.
  assert (Hin : In key (keys (root self))).
  { apply in_keys_elements. eauto. }
  destruct (delitem_total self key Inv Hin) as (f1 & s1 & H1).
  destruct (delitem_done _ _ _ _ Inv H1) as (Inv1 & Hn1 & l1 & v & l2 & E & E').
  assert (Hv : v = item).
  { assert (G' : In (key, v) (elements (root self))).
    { rewrite E. apply in_or_app. right. left. reflexivity. }
    apply (getitem_some self key v B) in G'.
    apply (getitem_some self key item B) in G. congruence. }
  subst v.
  assert (K : StronglySorted Z.lt (map fst (l1 ++ (key, item) :: l2))).
  { rewrite <- E. exact B. }
  assert (Hout : ~ In key (keys (root s1))).
  { unfold keys. rewrite E'. intros K'.
    apply (keys_deleted l1 l2 key item key K) in K'.
    destruct K' as (_ & K'). congruence. }
  destruct (setitem_total s1 key item Inv1 Hout) as (f2 & s2 & H2).
  pose proof Inv1 as (B1 & Sz1 & D1 & L1).
  pose proof H2 as H2'. unfold __setitem__ in H2'.
  apply store_done in H2'. apply insert_aux_done in H2'; auto.
  destruct H2' as (Hn2 & _ & _ & m1 & m2 & F & F' & G1 & G2).
  rewrite map_app in K. simpl in K. apply ascending_app_inv in K.
  destruct K as (_ & _ & K1 & K2). rewrite Forall_map in K1, K2.
  destruct (ascending_insert_unique l1 l2 m1 m2 key) as (-> & ->); auto.
  { rewrite <- F. exact E'. }
  exists (Nat.max f1 f2), s1, s2. split; [|split].
  - intros f' Hf. split.
    + eapply delitem_mono; [|exact H1]. lia.
    + eapply setitem_mono; [|exact H2]. lia.
  - congruence.
  - unfold __len__. lia.
Qed.

End RoundTrips.

Section Runs.
Context {I : Type}.
Local Abbreviation tree := (AVLTreeNode I).

Lemma init_invariant : invariant (@init I).
Proof. repeat split; simpl; auto. constructor. Qed.

(** X15: inserting pairs with pairwise distinct keys into an empty tree, in
    whatever order, returns a tree whose in-order sequence is these pairs
    sorted by key: a permutation of them with strictly ascending keys, and
    as many as were inserted. *)
Theorem inserts_sort_the_pairs (kvs : list (Z * I)) :
  NoDup (map fst kvs) ->
  exists fuel self,
    (forall fuel', (fuel <= fuel')%nat -> run fuel' (inserts kvs) = Done self)
    /\ Permutation (elements (root self)) kvs
    /\ StronglySorted Z.lt (keys (root self))
    /\ __len__ self = Z.of_nat (List.length kvs).
Proof.
  intros ND.
  destruct (inserts_elements kvs init init_invariant ND)
    as (f & self & H & Inv & P).
  { intros k _ []. }
  simpl in P. rewrite app_nil_r in P.
  destruct Inv as (B & _ & _ & Hl).
  exists f, self. split; [|split; [exact P|split; [exact B|]]].
  - intros f' Hf. eapply run_mono; eauto.
  - unfold __len__. rewrite Hl, count_elements.
    rewrite (Permutation_length P). reflexivity.
Qed.

(** X16: when an insertion into a reachable tree returns, the rank lookup
    at the number of keys that were smaller than the new key returns the
    node holding the new key and item. *)
Theorem inserted_key_has_its_rank
        (fuel : nat) (self self' : AVLTree I) (key : Z) (item : I) :
  reachable self -> __setitem__ fuel self key item = Done self' ->
  exists node,
    lookup_root self' (rank_of key (keys (root self))) = (self', Ok node)
    /\ key_of node = Some key /\ item_of node = Some item.
Proof.
  intros R H. pose proof (reachable_invariant self R) as Inv.
  destruct (insert_aux_rank fuel self self' key item Inv H)
    as (l1 & l2 & E & Hr).
  destruct (setitem_done _ _ _ _ _ Inv H) as ((_ & Sz' & _ & _) & _).
  rewrite Hr.
  destruct (lookup_in_range (root self') (Z.of_nat (List.length l1)) Sz')
    as (l & k & v & h & s & r & L & N).
  { rewrite count_elements, E, length_app. simpl. lia. }
  rewrite Nat2Z.id, E, nth_error_app2, Nat.sub_diag in N by lia.
  simpl in N. inversion N; subst k v.
  exists (Node l key item h s r). split; [|split; reflexivity].
  unfold lookup_root. rewrite L. destruct self'; reflexivity.
Qed.

(** X17: when a sequence of insertions and deletions on an empty tree
    returns, the count is the number of insertions minus the number of
    deletions, and it is the number of nodes of the tree. *)
Theorem length_counts_operations
        (fuel : nat) (cs : list (op I)) (self : AVLTree I) :
  run fuel cs = Done self ->
  __len__ self = insertions cs - deletions cs
  /\ __len__ self = count (root self).
Proof.
  intros H. split.
  - unfold run in H. unfold __len__.
    rewrite (run_from_length fuel cs init self init_invariant H).
    simpl. lia.
  - apply run_reachable in H. apply reachable_invariant in H.
    destruct H as (_ & _ & _ & Hl). exact Hl.
Qed.

(** X18: in every reachable state, for ranks 0 <= i <= j < count, when
    [range_between] returns a list it has left the tree as it was, the
    list has j - i + 1 items, and the item at each position is the item of
    the node that the rank lookup returns for the rank at that position. *)
Theorem range_between_lists_lookups
        (self self' : AVLTree I) (i j : Z) (res : list I) :
  reachable self -> 0 <= i -> i <= j -> j < __len__ self ->
  range_between self i j = (self', Ok res) ->
  self' = self
  /\ Z.of_nat (List.length res) = j - i + 1
  /\ (forall rank, i <= rank <= j ->
        exists node,
          lookup_root self rank = (self, Ok node)
          /\ is_node node
          /\ nth_error res (Z.to_nat (rank - i)) = item_of node).
Proof.
  intros R Hi Hij Hj H.
  destruct (reachable_invariant self R) as (_ & Sz & _ & Hl).
  unfold __len__ in Hj. rewrite Hl in Hj.
  rewrite range_between_in_range in H by auto.
  inversion H; subst self' res. split; [reflexivity|].
  pose proof (count_elements (root self)) as Hc.
  unfold items_from. split.
  - rewrite length_map, length_firstn, length_skipn. lia.
  - intros rank Hr.
    destruct (lookup_in_range (root self) rank Sz)
      as (l & k & v & h & s & r & L & N); [lia|].
    exists (Node l k v h s r). split; [|split; [exact Logic.I|]].
    + unfold lookup_root. rewrite L. destruct self; reflexivity.
    + rewrite nth_error_map, nth_error_firstn, nth_error_skipn.
      replace (Z.to_nat (rank - i) <? Z.to_nat (j + 1 - i))%nat with true
        by (symmetry; apply Nat.ltb_lt; lia).
      replace (Z.to_nat i + Z.to_nat (rank - i))%nat with (Z.to_nat rank)
        by lia.
      rewrite N. reflexivity.
Qed.

End Runs.

(** * The base class on its own *)

Section BaseClass.
Context {I : Type}.
Local Abbreviation tnode := (BinarySearchTree.TreeNode I).

Lemma base_bst_node_inv (l : tnode) k v (r : tnode) :
  BinarySearchTree.bst (BinarySearchTree.TNode l k v r) ->
  BinarySearchTree.bst l /\ BinarySearchTree.bst r
  /\ Forall (fun x => fst x < k) (BinarySearchTree.elements l)
  /\ Forall (fun x => k < fst x) (BinarySearchTree.elements r).
Proof.
  unfold BinarySearchTree.bst, BinarySearchTree.keys. simpl.
  rewrite map_app. simpl. intros H.
  apply ascending_app_inv in H. destruct H as (Hl & Hr & Fl & Fr).
  rewrite Forall_map in Fl, Fr. auto.
Qed.

Lemma base_in_keys (t : tnode) key :
  In key (BinarySearchTree.keys t)
  <-> exists v, In (key, v) (BinarySearchTree.elements t).
Proof.
  unfold BinarySearchTree.keys. rewrite in_map_iff. split.
  - intros ([k v] & E & H). simpl in E. subst. eauto.
  - intros (v & H). exists (key, v). auto.
Qed.

Lemma base_keys_node (l : tnode) k v (r : tnode) :
  BinarySearchTree.keys (BinarySearchTree.TNode l k v r)
  = BinarySearchTree.keys l ++ k :: BinarySearchTree.keys r.
Proof. unfold BinarySearchTree.keys. simpl. rewrite map_app. reflexivity. Qed.

Lemma base_get_minimal_first (l : tnode) k v (r : tnode) :
  exists mk mv mr rest,
    BinarySearchTree.get_minimal (BinarySearchTree.TNode l k v r)
    = BinarySearchTree.TNode BinarySearchTree.Empty mk mv mr
    /\ BinarySearchTree.elements (BinarySearchTree.TNode l k v r)
       = (mk, mv) :: rest.
Proof.
  revert k v r. induction l as [|ll IHl lk lv lr _]; intros k v r.
  - simpl. eauto 10.
  - destruct (IHl lk lv lr) as (mk & mv & mr & rest & E1 & E2).
    exists mk, mv, mr, (rest ++ (k, v) :: BinarySearchTree.elements r).
    split; [exact E1|].
    change (BinarySearchTree.elements
              (BinarySearchTree.TNode (BinarySearchTree.TNode ll lk lv lr) k v r))
      with (BinarySearchTree.elements (BinarySearchTree.TNode ll lk lv lr)
            ++ (k, v) :: BinarySearchTree.elements r).
    rewrite E2. reflexivity.
Qed.

(** What [BinarySearchTree.insert_aux] does on an ordered tree when it has
    two frames more than the tree has levels. *)
Lemma base_insert_aux_spec (t : tnode) :
  forall depth len key item,
    BinarySearchTree.bst t ->
    (BinarySearchTree.levels t + 2 <= depth)%nat ->
    (In key (BinarySearchTree.keys t) ->
     BinarySearchTree.insert_aux depth t len key item
     = Failed ValueError (t, len))
    /\ (~ In key (BinarySearchTree.keys t) ->
        exists t' l1 l2,
          BinarySearchTree.insert_aux depth t len key item = Done (t', len + 1)
          /\ BinarySearchTree.elements t = l1 ++ l2
          /\ BinarySearchTree.elements t' = l1 ++ (key, item) :: l2
          /\ Forall (fun x => fst x < key) l1
          /\ Forall (fun x => key < fst x) l2).
Proof.
  induction t as [|l IHl k v r IHr]; intros depth len key item B Hd.
  - split; [intros []|]. intros _.
    destruct depth as [|[|depth]]; simpl in Hd; try lia.
    exists (BinarySearchTree.TNode BinarySearchTree.Empty key item
                                   BinarySearchTree.Empty), [], [].
    simpl. auto.
  - pose proof (base_bst_node_inv _ _ _ _ B) as (Bl & Br & Fl & Fr).
    rewrite base_keys_node.
    assert (Kl : forall x, In x (BinarySearchTree.keys l) -> x < k).
    { intros x Hx. apply base_in_keys in Hx. destruct Hx as (y & Hy).
      rewrite Forall_forall in Fl. apply (Fl _ Hy). }
    assert (Kr : forall x, In x (BinarySearchTree.keys r) -> k < x).
    { intros x Hx. apply base_in_keys in Hx. destruct Hx as (y & Hy).
      rewrite Forall_forall in Fr. apply (Fr _ Hy). }
    destruct depth as [|depth]; [lia|].
    cbn [BinarySearchTree.levels] in Hd.
    destruct (IHl depth len key item Bl) as (Pl & Al); [lia|].
    destruct (IHr depth len key item Br) as (Pr & Ar); [lia|].
    cbn [BinarySearchTree.insert_aux].
    destruct (key <? k) eqn:Elt.
    + split.
      * intros Hin. rewrite Pl; [reflexivity|].
        apply in_app_or in Hin. destruct Hin as [Hin|[Hin|Hin]]; auto.
        -- lia.
        -- specialize (Kr _ Hin). lia.
      * intros Hin. destruct Al as (l' & m1 & m2 & E & E1 & E2 & F1 & F2).
        { intros H. apply Hin. apply in_or_app. auto. }
        rewrite E.
        exists (BinarySearchTree.TNode l' k v r), m1,
          (m2 ++ (k, v) :: BinarySearchTree.elements r).
        split; [reflexivity|]. simpl. rewrite E1, E2, <- !app_assoc. simpl.
        repeat split; auto.
        rewrite Forall_app. split; auto.
        constructor; [simpl; lia|].
        eapply Forall_impl; [|exact Fr]. simpl. intros; lia.
    + destruct (key >? k) eqn:Egt.
      * split.
        -- intros Hin. rewrite Pr; [reflexivity|].
           apply in_app_or in Hin. destruct Hin as [Hin|[Hin|Hin]]; auto.
           ++ specialize (Kl _ Hin). lia.
           ++ lia.
        -- intros Hin. destruct Ar as (r' & m1 & m2 & E & E1 & E2 & F1 & F2).
           { intros H. apply Hin. apply in_or_app. simpl. auto. }
           rewrite E.
           exists (BinarySearchTree.TNode l k v r'),
             (BinarySearchTree.elements l ++ (k, v) :: m1), m2.
           split; [reflexivity|]. simpl. rewrite E1, E2, <- !app_assoc. simpl.
           repeat split; auto.
           rewrite Forall_app. split.
           ++ eapply Forall_impl; [|exact Fl]. simpl. intros; lia.
           ++ constructor; [simpl; lia|auto].
      * split; [reflexivity|].
        intros Hin. exfalso. apply Hin. apply in_or_app. right. left. lia.
Qed.

(** An insertion that returns with some allowance returns the same with
    every larger one. *)
Lemma base_insert_aux_mono (depth : nat) :
  forall depth' (t : tnode) len key item x,
    (depth <= depth')%nat ->
    BinarySearchTree.insert_aux depth t len key item = Done x ->
    BinarySearchTree.insert_aux depth' t len key item = Done x.
Proof.
  induction depth as [|depth IH]; intros depth' t len key item x Hd H;
    [discriminate|].
  destruct depth' as [|depth']; [lia|].
  destruct t as [|l k v r]; cbn [BinarySearchTree.insert_aux] in *.
  - destruct depth as [|depth]; [discriminate|].
    destruct depth' as [|depth']; [lia|]. exact H.
  - destruct (key <? k).
    + destruct (BinarySearchTree.insert_aux depth l len key item)
        as [[l' n]|e [l' n]| |] eqn:E; try discriminate.
      rewrite (IH depth' l len key item (l', n)); auto. lia.
    + destruct (key >? k); [|discriminate].
      destruct (BinarySearchTree.insert_aux depth r len key item)
        as [[r' n]|e [r' n]| |] eqn:E; try discriminate.
      rewrite (IH depth' r len key item (r', n)); auto. lia.
Qed.

(** An exception leaves the tree and the count as they were, and it is
    [ValueError] or [RecursionError]. *)
Lemma base_insert_aux_failed (depth : nat) :
  forall (t : tnode) len key item e x,
    BinarySearchTree.insert_aux depth t len key item = Failed e x ->
    x = (t, len) /\ (e = ValueError \/ e = RecursionError).
Proof.
  induction depth as [|depth IH]; intros t len key item e x H.
  - simpl in H. inversion H; auto.
  - destruct t as [|l k v r]; cbn [BinarySearchTree.insert_aux] in H.
    + destruct depth; inversion H; auto.
    + destruct (key <? k).
      * destruct (BinarySearchTree.insert_aux depth l len key item)
          as [[l' n]|e' [l' n]| |] eqn:E; try discriminate.
        apply IH in E. destruct E as (E & He). inversion E; subst.
        inversion H; subst. auto.
      * destruct (key >? k).
        -- destruct (BinarySearchTree.insert_aux depth r len key item)
             as [[r' n]|e' [r' n]| |] eqn:E; try discriminate.
           apply IH in E. destruct E as (E & He). inversion E; subst.
           inversion H; subst. auto.
        -- inversion H; auto.
Qed.

(** [insert_aux] returns or raises: the two other outcomes do not occur. *)
Lemma base_insert_aux_outcome (depth : nat) :
  forall (t : tnode) len key item,
    (exists x, BinarySearchTree.insert_aux depth t len key item = Done x)
    \/ (exists e x,
          BinarySearchTree.insert_aux depth t len key item = Failed e x).
Proof.
  induction depth as [|depth IH]; intros t len key item.
  - right. simpl. eauto.
  - destruct t as [|l k v r]; cbn [BinarySearchTree.insert_aux].
    + destruct depth; eauto.
    + destruct (key <? k).
      * destruct (IH l len key item) as [([l' n] & E)|(e & [l' n] & E)];
          rewrite E; eauto.
      * destruct (key >? k); [|eauto].
        destruct (IH r len key item) as [([r' n] & E)|(e & [r' n] & E)];
          rewrite E; eauto.
Qed.

(** What an insertion that returns has done. *)
Lemma base_insert_aux_done (depth : nat) (t : tnode) len key item t' len' :
  BinarySearchTree.bst t ->
  BinarySearchTree.insert_aux depth t len key item = Done (t', len') ->
  ~ In key (BinarySearchTree.keys t) /\ len' = len + 1
  /\ exists l1 l2,
      BinarySearchTree.elements t = l1 ++ l2
      /\ BinarySearchTree.elements t' = l1 ++ (key, item) :: l2
      /\ Forall (fun x => fst x < key) l1
      /\ Forall (fun x => key < fst x) l2.
Proof.
  intros B H.
  pose (d := Nat.max depth (BinarySearchTree.levels t + 2)).
  apply (base_insert_aux_mono depth d) in H; [|unfold d; lia].
  destruct (base_insert_aux_spec t d len key item B) as (P & A);
    [unfold d; lia|].
  assert (Hin : ~ In key (BinarySearchTree.keys t)).
  { intros Hin. rewrite (P Hin) in H. discriminate. }
  split; [exact Hin|].
  destruct (A Hin) as (t1 & l1 & l2 & E & E1 & E2 & F1 & F2).
  rewrite E in H. inversion H; subst. split; [reflexivity|]. eauto 10.
Qed.

(** What [BinarySearchTree.delete_aux] does on an ordered tree. *)
Lemma base_delete_aux_spec (t : tnode) :
  forall len key,
    BinarySearchTree.bst t ->
    (~ In key (BinarySearchTree.keys t) ->
     BinarySearchTree.delete_aux t len key = Failed ValueError (t, len))
    /\ (In key (BinarySearchTree.keys t) ->
        exists t' l1 v l2,
          BinarySearchTree.delete_aux t len key = Done (t', len - 1)
          /\ BinarySearchTree.elements t = l1 ++ (key, v) :: l2
          /\ BinarySearchTree.elements t' = l1 ++ l2).
Proof.
  induction t as [|l IHl k v r IHr]; intros len key B.
  - split; [reflexivity|intros []].
  - pose proof (base_bst_node_inv _ _ _ _ B) as (Bl & Br & Fl & Fr).
    rewrite base_keys_node.
    assert (Kl : forall x, In x (BinarySearchTree.keys l) -> x < k).
    { intros x Hx. apply base_in_keys in Hx. destruct Hx as (y & Hy).
      rewrite Forall_forall in Fl. apply (Fl _ Hy). }
    assert (Kr : forall x, In x (BinarySearchTree.keys r) -> k < x).
    { intros x Hx. apply base_in_keys in Hx. destruct Hx as (y & Hy).
      rewrite Forall_forall in Fr. apply (Fr _ Hy). }
    destruct (IHl len key Bl) as (Al & Pl).
    destruct (IHr len key Br) as (Ar & Pr).
    cbn [BinarySearchTree.delete_aux].
    destruct (key <? k) eqn:Elt.
    + split.
      * intros Hin. rewrite Al; [reflexivity|].
        intros H. apply Hin. apply in_or_app. auto.
      * intros Hin. destruct Pl as (l' & m1 & x & m2 & E & E1 & E2).
        { apply in_app_or in Hin. destruct Hin as [Hin|[Hin|Hin]]; auto.
          - lia.
          - specialize (Kr _ Hin). lia. }
        rewrite E.
        exists (BinarySearchTree.TNode l' k v r), m1, x,
          (m2 ++ (k, v) :: BinarySearchTree.elements r).
        split; [reflexivity|]. simpl. rewrite E1, E2, <- !app_assoc.
        split; reflexivity.
    + destruct (key >? k) eqn:Egt.
      * split.
        -- intros Hin. rewrite Ar; [reflexivity|].
           intros H. apply Hin. apply in_or_app. simpl. auto.
        -- intros Hin. destruct Pr as (r' & m1 & x & m2 & E & E1 & E2).
           { apply in_app_or in Hin. destruct Hin as [Hin|[Hin|Hin]]; auto.
             - specialize (Kl _ Hin). lia.
             - lia. }
           rewrite E.
           exists (BinarySearchTree.TNode l k v r'),
             (BinarySearchTree.elements l ++ (k, v) :: m1), x, m2.
           split; [reflexivity|]. simpl. rewrite E1, E2, <- !app_assoc.
           split; reflexivity.
      * assert (key = k) by lia. subst key. split.
        { intros Hin. exfalso. apply Hin. apply in_or_app. simpl. auto. }
        intros _. clear Al Pl Ar Pr IHl.
        destruct l as [|ll lk lv lr].
        { destruct r as [|rl rk rv rr].
          - exists BinarySearchTree.Empty, [], v, []. simpl. auto.
          - exists (BinarySearchTree.TNode rl rk rv rr), [], v,
              (BinarySearchTree.elements (BinarySearchTree.TNode rl rk rv rr)).
            repeat split. }
        destruct r as [|rl rk rv rr].
        { exists (BinarySearchTree.TNode ll lk lv lr),
            (BinarySearchTree.elements (BinarySearchTree.TNode ll lk lv lr)),
            v, [].
          cbn [BinarySearchTree.is_leaf]. split; [reflexivity|].
          simpl. rewrite app_nil_r. split; reflexivity. }
        cbn [BinarySearchTree.is_leaf BinarySearchTree.get_successor].
        destruct (base_get_minimal_first rl rk rv rr)
          as (mk & mv & mr & rest & M1 & M2).
        rewrite M1.
        destruct (IHr len mk Br) as (_ & Pr).
        destruct Pr as (r' & m1 & x & m2 & E & E1 & E2).
        { unfold BinarySearchTree.keys. rewrite M2. simpl. auto. }
        rewrite E.
        assert (U : m1 = [] /\ x = mv /\ m2 = rest).
        { apply (ascending_head_unique m1 m2 rest mk mv x).
          - unfold BinarySearchTree.bst, BinarySearchTree.keys in Br.
            rewrite M2 in Br. exact Br.
          - rewrite <- M2. exact E1. }
        destruct U as (-> & -> & ->).
        exists (BinarySearchTree.TNode
                  (BinarySearchTree.TNode ll lk lv lr) mk mv r'),
          (BinarySearchTree.elements (BinarySearchTree.TNode ll lk lv lr)),
          v, (BinarySearchTree.elements (BinarySearchTree.TNode rl rk rv rr)).
        split; [reflexivity|]. split; [reflexivity|].
        simpl in E2. rewrite M2. simpl. rewrite E2. reflexivity.
Qed.

End BaseClass.

Section BaseRuns.
Context {I : Type}.
Local Abbreviation tnode := (BinarySearchTree.TreeNode I).
Local Abbreviation btree := (BinarySearchTree.BinarySearchTree I).

Lemma base_store_done (o : outcome (tnode * Z)) (b' : btree) :
  BinarySearchTree.store o = Done b' ->
  o = Done (BinarySearchTree.root b', BinarySearchTree.length b').
Proof.
  destruct o as [[t n]|e [t n]| |]; simpl; intros H; inversion H; reflexivity.
Qed.

Lemma base_stuck_fold (depth : nat) (cs : list (op I)) (o : outcome btree) :
  (forall s, o <> Done s) ->
  fold_left (BinarySearchTree.apply_op depth) cs o = o.
Proof.
  induction cs as [|c cs IH]; intros H; simpl; auto.
  destruct o; try (apply IH; intros; discriminate). exfalso. eapply H; eauto.
Qed.

Lemma base_run_from_cons (depth : nat) (b b1 : btree) c cs :
  BinarySearchTree.apply_op depth (Done b) c = Done b1 ->
  BinarySearchTree.run_from depth b (c :: cs)
  = BinarySearchTree.run_from depth b1 cs.
Proof. unfold BinarySearchTree.run_from. simpl. intros ->. reflexivity. Qed.

Lemma base_run_from_cons_inv (depth : nat) (b b' : btree) c cs :
  BinarySearchTree.run_from depth b (c :: cs) = Done b' ->
  exists b1, BinarySearchTree.apply_op depth (Done b) c = Done b1
             /\ BinarySearchTree.run_from depth b1 cs = Done b'.
Proof.
  unfold BinarySearchTree.run_from. cbn [fold_left]. intros H.
  destruct (BinarySearchTree.apply_op depth (Done b) c) as [s1| | |] eqn:E.
  - eauto.
  - rewrite base_stuck_fold in H by (intros; discriminate). discriminate.
  - rewrite base_stuck_fold in H by (intros; discriminate). discriminate.
  - rewrite base_stuck_fold in H by (intros; discriminate). discriminate.
Qed.

Lemma same_contents_bst (self : AVLTree I) (b : btree) :
  same_contents self b -> bst (root self) ->
  BinarySearchTree.bst (BinarySearchTree.root b).
Proof.
  intros (E & _) B. unfold BinarySearchTree.bst, BinarySearchTree.keys.
  rewrite E. exact B.
Qed.

Lemma same_contents_keys (self : AVLTree I) (b : btree) :
  same_contents self b ->
  BinarySearchTree.keys (BinarySearchTree.root b) = keys (root self).
Proof. intros (E & _). unfold BinarySearchTree.keys, keys. rewrite E. reflexivity. Qed.

(** A tree has at least as many nodes as levels. *)
Lemma base_levels_le_nodes (t : tnode) :
  (BinarySearchTree.levels t <= List.length (BinarySearchTree.elements t))%nat.
Proof.
  induction t as [|l IHl k v r IHr]; simpl; [lia|].
  rewrite length_app. simpl. lia.
Qed.

(** One operation, from [AVLTree] to the base class, which is called with
    two frames more than its tree has levels. *)
Lemma apply_op_to_base (fuel depth : nat) (self self' : AVLTree I) (b : btree) c :
  invariant self -> same_contents self b ->
  (BinarySearchTree.levels (BinarySearchTree.root b) + 2 <= depth)%nat ->
  apply_op fuel (Done self) c = Done self' ->
  exists b', BinarySearchTree.apply_op depth (Done b) c = Done b'
             /\ same_contents self' b'
             /\ (List.length (BinarySearchTree.elements (BinarySearchTree.root b'))
                 <= S (List.length
                         (BinarySearchTree.elements (BinarySearchTree.root b))))%nat.
Proof.
  intros Inv Sc Hd H. pose proof Inv as (B & Sz & D & Hl).
  pose proof (same_contents_bst _ _ Sc B) as Bb.
  pose proof (same_contents_keys _ _ Sc) as Kb.
  destruct Sc as (Ec & Lc).
  destruct c as [k v|k]; simpl in H |- *.
  - unfold __setitem__ in H. apply store_done in H.
    apply insert_aux_done in H; auto.
    destruct H as (Hn & _ & _ & l1 & l2 & E & E' & F1 & F2).
    destruct (base_insert_aux_spec (BinarySearchTree.root b) depth
                (BinarySearchTree.length b) k v Bb Hd) as (_ & A).
    destruct A as (t' & m1 & m2 & A & A1 & A2 & G1 & G2).
    { rewrite Kb. unfold keys. rewrite E, map_app, in_app_iff.
      rewrite Forall_forall in F1, F2.
      intros [Hin|Hin]; apply in_map_iff in Hin;
        destruct Hin as (x & Hx & Hin);
        [specialize (F1 _ Hin)|specialize (F2 _ Hin)]; lia. }
    destruct (ascending_insert_unique l1 l2 m1 m2 k) as (-> & ->); auto.
    { rewrite <- A1, <- E. exact Ec. }
    unfold BinarySearchTree.__setitem__. rewrite A. simpl.
    eexists. split; [reflexivity|]. split; [split; simpl; [congruence|lia]|].
    simpl. rewrite A1, A2, !length_app. simpl. lia.
  - unfold __delitem__ in H. apply store_done in H.
    apply delete_aux_done in H; auto.
    destruct H as (Hn & _ & _ & l1 & v & l2 & E & E').
    destruct (base_delete_aux_spec (BinarySearchTree.root b)
                (BinarySearchTree.length b) k Bb) as (_ & A).
    destruct A as (t' & m1 & x & m2 & A & A1 & A2).
    { rewrite Kb. unfold keys. rewrite E, map_app, in_app_iff. simpl. auto. }
    destruct (ascending_split_unique l1 l2 m1 m2 k v x) as (-> & -> & ->).
    { rewrite <- E. exact B. }
    { rewrite <- A1, <- E. symmetry. exact Ec. }
    unfold BinarySearchTree.__delitem__. rewrite A. simpl.
    eexists. split; [reflexivity|]. split; [split; simpl; [congruence|lia]|].
    simpl. rewrite A1, A2, !length_app. simpl. lia.
Qed.

(** An operation of the base class that returns with some allowance
    returns the same with every larger one. *)
Lemma base_apply_op_mono (depth depth' : nat) (b b' : btree) c :
  (depth <= depth')%nat ->
  BinarySearchTree.apply_op depth (Done b) c = Done b' ->
  BinarySearchTree.apply_op depth' (Done b) c = Done b'.
Proof.
  intros Hd H. destruct c as [k v|k]; simpl in H |- *; [|exact H].
  unfold BinarySearchTree.__setitem__ in *.
  apply base_store_done in H.
  rewrite (base_insert_aux_mono depth depth' _ _ _ _ _ Hd H).
  destruct b'; reflexivity.
Qed.

Lemma base_run_from_mono (depth depth' : nat) (cs : list (op I)) :
  (depth <= depth')%nat ->
  forall b b' : btree,
    BinarySearchTree.run_from depth b cs = Done b' ->
    BinarySearchTree.run_from depth' b cs = Done b'.
Proof.
  intros Hd. induction cs as [|c cs IH]; intros b b' H; [exact H|].
  apply base_run_from_cons_inv in H. destruct H as (b1 & H1 & H2).
  rewrite (base_run_from_cons depth' b b1).
  - apply IH. exact H2.
  - eapply base_apply_op_mono; eauto.
Qed.

(** One operation, from the base class to [AVLTree]. *)
Lemma apply_op_from_base (depth : nat) (self : AVLTree I) (b b' : btree) c :
  invariant self -> same_contents self b ->
  BinarySearchTree.apply_op depth (Done b) c = Done b' ->
  exists fuel self', apply_op fuel (Done self) c = Done self'
                     /\ same_contents self' b'.
Proof.
  intros Inv Sc H. pose proof Inv as (B & Sz & D & Hl).
  pose proof (same_contents_bst _ _ Sc B) as Bb.
  pose proof (same_contents_keys _ _ Sc) as Kb.
  assert (T : exists fuel self', apply_op fuel (Done self) c = Done self').
  { destruct c as [k v|k]; simpl in H |- *.
    - apply setitem_total; auto. rewrite <- Kb.
      unfold BinarySearchTree.__setitem__ in H. apply base_store_done in H.
      apply base_insert_aux_done in H; auto. tauto.
    - apply delitem_total; auto. rewrite <- Kb.
      destruct (in_dec Z.eq_dec k
                  (BinarySearchTree.keys (BinarySearchTree.root b)))
        as [Hin|Hin]; auto.
      destruct (base_delete_aux_spec (BinarySearchTree.root b)
                  (BinarySearchTree.length b) k Bb) as (A & _).
      unfold BinarySearchTree.__delitem__ in H. rewrite (A Hin) in H.
      discriminate. }
  destruct T as (fuel & self' & T). exists fuel, self'. split; [exact T|].
  pose (d := Nat.max depth
               (BinarySearchTree.levels (BinarySearchTree.root b) + 2)).
  destruct (apply_op_to_base fuel d self self' b c Inv Sc) as (b1 & H1 & Sc1 & _);
    [unfold d; lia|exact T|].
  apply (base_apply_op_mono depth d) in H; [|unfold d; lia].
  congruence.
Qed.

Lemma apply_op_invariant (fuel : nat) (self self' : AVLTree I) c :
  invariant self -> apply_op fuel (Done self) c = Done self' -> invariant self'.
Proof.
  intros Inv H. destruct c as [k v|k]; simpl in H.
  - eapply setitem_done; eauto.
  - eapply delitem_done; eauto.
Qed.

(** A run of [AVLTree] that returns, followed by the base class with two
    frames more than its tree has nodes at the start and operations to
    perform. *)
Lemma run_from_to_base (fuel depth : nat) (cs : list (op I)) :
  forall (self self' : AVLTree I) (b : btree),
    invariant self -> same_contents self b ->
    (List.length (BinarySearchTree.elements (BinarySearchTree.root b))
     + List.length cs + 2 <= depth)%nat ->
    run_from fuel self cs = Done self' ->
    exists b', BinarySearchTree.run_from depth b cs = Done b'
               /\ same_contents self' b'.
Proof.
  induction cs as [|c cs IH]; intros self self' b Inv Sc Hd H.
  - inversion H; subst. exists b. split; [reflexivity|exact Sc].
  - apply run_from_cons_inv in H. destruct H as (s1 & H1 & H2).
    pose proof (base_levels_le_nodes (BinarySearchTree.root b)) as Hlv.
    simpl in Hd.
    destruct (apply_op_to_base fuel depth self s1 b c Inv Sc)
      as (b1 & G1 & Sc1 & Hn1); [lia|exact H1|].
    pose proof (apply_op_invariant _ _ _ _ Inv H1) as Inv1.
    destruct (IH s1 self' b1 Inv1 Sc1) as (b' & G2 & Sc'); [lia|exact H2|].
    exists b'. split; [|exact Sc'].
    rewrite (base_run_from_cons depth b b1); auto.
Qed.

Lemma run_from_from_base (depth : nat) (cs : list (op I)) :
  forall (self : AVLTree I) (b b' : btree),
    invariant self -> same_contents self b ->
    BinarySearchTree.run_from depth b cs = Done b' ->
    exists fuel self', run_from fuel self cs = Done self'
                       /\ same_contents self' b'.
Proof.
  induction cs as [|c cs IH]; intros self b b' Inv Sc H.
  - inversion H; subst. exists O, self. split; [reflexivity|exact Sc].
  - apply base_run_from_cons_inv in H. destruct H as (b1 & H1 & H2).
    destruct (apply_op_from_base depth self b b1 c Inv Sc H1)
      as (f1 & s1 & G1 & Sc1).
    pose proof (apply_op_invariant _ _ _ _ Inv G1) as Inv1.
    destruct (IH s1 b1 b' Inv1 Sc1 H2) as (f2 & self' & G2 & Sc').
    exists (Nat.max f1 f2), self'. split; [|exact Sc'].
    rewrite (run_from_cons _ self s1).
    + eapply run_from_mono; [|exact G2]. lia.
    + eapply apply_op_mono; [|exact G1]. lia.
Qed.

(** X19: on a base-class tree with strictly ascending keys,
    [BinarySearchTree.__setitem__] called with at least two frames of
    recursion allowance more than the tree has levels raises [ValueError]
    for a key already present, and for an absent key returns a tree that
    again has strictly ascending keys, a count one higher, and the pairs
    it had plus the new one.  With whatever allowance, a call that raises
    raises [ValueError] or [RecursionError] and leaves the tree as it was,
    and a call that returns was made with an absent key and returns that
    tree. *)
Theorem base_insert_adds_binding
        (depth : nat) (b : btree) (key : Z) (item : I) :
  BinarySearchTree.bst (BinarySearchTree.root b) ->
  ((BinarySearchTree.levels (BinarySearchTree.root b) + 2 <= depth)%nat ->
   (In key (BinarySearchTree.keys (BinarySearchTree.root b)) ->
    BinarySearchTree.__setitem__ depth b key item = Failed ValueError b)
   /\ (~ In key (BinarySearchTree.keys (BinarySearchTree.root b)) ->
       exists b', BinarySearchTree.__setitem__ depth b key item = Done b'))
  /\ (forall e b',
        BinarySearchTree.__setitem__ depth b key item = Failed e b' ->
        b' = b /\ (e = ValueError \/ e = RecursionError))
  /\ (forall b',
        BinarySearchTree.__setitem__ depth b key item = Done b' ->
        ~ In key (BinarySearchTree.keys (BinarySearchTree.root b))
        /\ BinarySearchTree.length b' = BinarySearchTree.length b + 1
        /\ BinarySearchTree.bst (BinarySearchTree.root b')
        /\ (forall k v,
              In (k, v) (BinarySearchTree.elements (BinarySearchTree.root b'))
              <-> (k, v) = (key, item)
                  \/ In (k, v)
                       (BinarySearchTree.elements (BinarySearchTree.root b)))).
Proof.
  intros B. unfold BinarySearchTree.__setitem__. split; [|split].
  - intros Hd.
    destruct (base_insert_aux_spec (BinarySearchTree.root b) depth
                (BinarySearchTree.length b) key item B Hd) as (P & A).
    split.
    + intros Hin. rewrite (P Hin). destruct b; reflexivity.
    + intros Hin. destruct (A Hin) as (t' & l1 & l2 & E & _).
      rewrite E. eexists. reflexivity.
  - intros e b' H.
    destruct (BinarySearchTree.insert_aux depth (BinarySearchTree.root b)
                (BinarySearchTree.length b) key item)
      as [[t n]|e' [t n]| |] eqn:E; simpl in H; try discriminate.
    apply base_insert_aux_failed in E. destruct E as (E & He).
    inversion E; subst t n. inversion H; subst e' b'.
    split; [destruct b; reflexivity|exact He].
  - intros b' H. apply base_store_done in H.
    apply base_insert_aux_done in H; auto.
    destruct H as (Hin & Hn & l1 & l2 & E1 & E2 & F1 & F2).
    split; [exact Hin|]. split; [exact Hn|]. split.
    + unfold BinarySearchTree.bst, BinarySearchTree.keys in *.
      rewrite E1, map_app in B. apply ascending_app_split in B.
      destruct B as (S1 & S2 & _).
      rewrite E2, map_app. simpl.
      apply ascending_middle; auto; rewrite Forall_map; auto.
    + intros k v. rewrite E1, E2, !in_app_iff. simpl.
      split; [intros [H|[H|H]]|intros [H|[H|H]]]; auto.
Qed.

(** X20: on a base-class tree with strictly ascending keys,
    [BinarySearchTree.__delitem__] with an absent key raises [ValueError]
    and leaves the tree as it was; with a present key it returns a tree
    that again has strictly ascending keys, a count one lower, and the
    pairs it had except the one with that key. *)
Theorem base_delete_removes_key (b : btree) (key : Z) :
  BinarySearchTree.bst (BinarySearchTree.root b) ->
  (~ In key (BinarySearchTree.keys (BinarySearchTree.root b)) ->
   BinarySearchTree.__delitem__ b key = Failed ValueError b)
  /\ (In key (BinarySearchTree.keys (BinarySearchTree.root b)) ->
      exists b',
        BinarySearchTree.__delitem__ b key = Done b'
        /\ BinarySearchTree.length b' = BinarySearchTree.length b - 1
        /\ BinarySearchTree.bst (BinarySearchTree.root b')
        /\ (forall k v,
              In (k, v) (BinarySearchTree.elements (BinarySearchTree.root b'))
              <-> k <> key
                  /\ In (k, v)
                       (BinarySearchTree.elements (BinarySearchTree.root b)))).
Proof.
  intros B.
  destruct (base_delete_aux_spec (BinarySearchTree.root b)
              (BinarySearchTree.length b) key B) as (A & P).
  unfold BinarySearchTree.__delitem__. split.
  - intros Hin. rewrite (A Hin). destruct b; reflexivity.
  - intros Hin. destruct (P Hin) as (t' & l1 & x & l2 & E & E1 & E2).
    rewrite E. eexists. split; [reflexivity|]. simpl.
    split; [reflexivity|].
    unfold BinarySearchTree.bst, BinarySearchTree.keys in *.
    rewrite E1, map_app in B. simpl in B.
    pose proof (ascending_app_inv _ _ _ B) as (S1 & S2 & F1 & F2).
    rewrite Forall_map in F1, F2. rewrite Forall_forall in F1, F2.
    split.
    + rewrite E2, map_app. apply ascending_app; auto.
      intros a c Ha Hc. apply in_map_iff in Ha, Hc.
      destruct Ha as (p & <- & Hp). destruct Hc as (q & <- & Hq).
      specialize (F1 _ Hp). specialize (F2 _ Hq). lia.
    + intros k v. rewrite E1, E2, !in_app_iff. simpl. split.
      * intros [H|H]; split; auto.
        -- specialize (F1 _ H). simpl in F1. lia.
        -- specialize (F2 _ H). simpl in F2. lia.
      * intros (Hk & [H|[H|H]]); auto. inversion H; congruence.
Qed.

(** X21: a sequence of insertions and deletions that [AVLTree], with its
    overriding [insert_aux] and [delete_aux], accepts is accepted by the
    base class whenever each insertion of the base class is called with a
    recursion allowance of at least two frames more than the sequence has
    operations (the base class does not rebalance and takes one frame per
    level); a sequence that the base class accepts, with whatever
    allowance, is accepted by [AVLTree]; and both end with the same
    in-order (key, item) sequence and the same count. *)
Theorem avl_agrees_with_base_class (cs : list (op I)) :
  (forall fuel self depth,
     (List.length cs + 2 <= depth)%nat ->
     run fuel cs = Done self ->
     exists b, BinarySearchTree.run depth cs = Done b /\ same_contents self b)
  /\ (forall depth b,
        BinarySearchTree.run depth cs = Done b ->
        exists fuel self,
          (forall fuel', (fuel <= fuel')%nat -> run fuel' cs = Done self)
          /\ same_contents self b).
Proof.
  assert (Sc : same_contents (@init I) BinarySearchTree.init)
    by (split; reflexivity).
  split.
  - intros fuel self depth Hd H.
    apply (run_from_to_base fuel depth cs init self BinarySearchTree.init
             init_invariant Sc); [simpl; lia|exact H].
  - intros depth b H.
    destruct (run_from_from_base depth cs init BinarySearchTree.init b
                init_invariant Sc H) as (f & self & G & Sc').
    exists f, self. split; [|exact Sc'].
    intros f' Hf. eapply run_mono; eauto.
Qed.

End BaseRuns.

(** * Outcomes under a larger recursion allowance *)

Section Persistence.
Context {I : Type}.
Local Abbreviation tree := (AVLTreeNode I).

Lemma left_rotate_with_persists (reb reb' : tree -> outcome tree) :
  persists reb reb' -> persists (left_rotate_with reb) (left_rotate_with reb').
Proof.
  intros H t. unfold left_rotate_with.
  destruct t as [|? ? ? ? ? [|]]; try reflexivity. apply H.
Qed.

Lemma right_rotate_with_persists (reb reb' : tree -> outcome tree) :
  persists reb reb' -> persists (right_rotate_with reb) (right_rotate_with reb').
Proof.
  intros H t. unfold right_rotate_with.
  destruct t as [|[|] ? ? ? ? ?]; try reflexivity. apply H.
Qed.

Lemma rebalance_with_persists (reb reb' : tree -> outcome tree) :
  persists reb reb' -> persists (rebalance_with reb) (rebalance_with reb').
Proof.
  intros H t. unfold rebalance_with.
  destruct t as [|l k v h s r]; try reflexivity.
  destruct (_ >=? 2).
  - destruct (right_of _) as [|cl ? ? ? ? cr]; try reflexivity.
    destruct (_ >? _); [|apply left_rotate_with_persists; auto].
    intros Hx.
    rewrite (right_rotate_with_persists _ _ H).
    + destruct (right_rotate_with reb _); try reflexivity.
      apply left_rotate_with_persists; auto.
    + intros E. rewrite E in Hx. congruence.
  - destruct (_ <=? -2); [|reflexivity].
    destruct (left_of _) as [|cl ? ? ? ? cr]; try reflexivity.
    destruct (_ >? _); [|apply right_rotate_with_persists; auto].
    intros Hx.
    rewrite (left_rotate_with_persists _ _ H).
    + destruct (left_rotate_with reb _); try reflexivity.
      apply right_rotate_with_persists; auto.
    + intros E. rewrite E in Hx. congruence.
Qed.

Lemma rebalance_S_persists (fuel : nat) :
  @persists I (rebalance fuel) (rebalance (S fuel)).
Proof.
  induction fuel as [|fuel IH]; intros t H; [contradiction H; reflexivity|].
  change (rebalance_with (rebalance (S fuel)) t
          = rebalance_with (rebalance fuel) t).
  apply rebalance_with_persists; auto.
Qed.

Lemma rebalance_persists (fuel fuel' : nat) :
  (fuel <= fuel')%nat -> @persists I (rebalance fuel) (rebalance fuel').
Proof.
  induction 1 as [|m _ IH]; intros t H; auto.
  rewrite rebalance_S_persists; rewrite IH; auto.
Qed.

Lemma return_rebalance_persists (fuel fuel' : nat) (t : tree) len :
  (fuel <= fuel')%nat ->
  return_rebalance fuel t len <> Exhausted ->
  return_rebalance fuel' t len = return_rebalance fuel t len.
Proof.
  intros Hf H. unfold return_rebalance in *.
  rewrite (rebalance_persists fuel fuel' Hf); auto.
  intros E. rewrite E in H. congruence.
Qed.

Lemma insert_aux_persists (fuel fuel' : nat) (t : tree) key item :
  (fuel <= fuel')%nat ->
  forall len,
    insert_aux fuel t len key item <> Exhausted ->
    insert_aux fuel' t len key item = insert_aux fuel t len key item.
Proof.
  intros Hf.
  induction t as [|l IHl k v h s r IHr]; intros len H.
  - cbn [insert_aux] in *. apply return_rebalance_persists; auto.
  - cbn [insert_aux] in *.
    destruct (key >? k).
    + rewrite IHr.
      * destruct (insert_aux fuel r len key item) as [[r' n]|e [r' n]| |];
          try reflexivity.
        apply return_rebalance_persists; auto.
      * intros E. rewrite E in H. congruence.
    + destruct (key <? k); [|reflexivity].
      rewrite IHl.
      * destruct (insert_aux fuel l len key item) as [[l' n]|e [l' n]| |];
          try reflexivity.
        apply return_rebalance_persists; auto.
      * intros E. rewrite E in H. congruence.
Qed.

Lemma delete_aux_persists (fuel fuel' : nat) (t : tree) :
  (fuel <= fuel')%nat ->
  forall len key,
    delete_aux fuel t len key <> Exhausted ->
    delete_aux fuel' t len key = delete_aux fuel t len key.
Proof.
  intros Hf.
  induction t as [|l IHl k v h s r IHr]; intros len key H.
  - reflexivity.
  - cbn [delete_aux] in *.
    destruct (key <? k).
    { rewrite IHl.
      - destruct (delete_aux fuel l len key) as [[l' n]|e [l' n]| |];
          try reflexivity.
        apply return_rebalance_persists; auto.
      - intros E. rewrite E in H. congruence. }
    destruct (key >? k).
    { rewrite IHr.
      - destruct (delete_aux fuel r len key) as [[r' n]|e [r' n]| |];
          try reflexivity.
        apply return_rebalance_persists; auto.
      - intros E. rewrite E in H. congruence. }
    destruct (is_leaf _); [reflexivity|].
    destruct l as [|ll lk lv lh ls lr]; [reflexivity|].
    destruct r as [|rl rk rv rh rs rr]; [reflexivity|].
    destruct (get_successor _) as [|? sk sv ? ? ?]; [reflexivity|].
    rewrite IHr.
    + destruct (delete_aux fuel (Node rl rk rv rh rs rr) len sk)
        as [[r' n]|e [r' n]| |]; try reflexivity.
      apply return_rebalance_persists; auto.
    + intros E. rewrite E in H. congruence.
Qed.

Lemma insert_aux_any_fuel (f0 fuel : nat) (t : tree) len key item x :
  insert_aux f0 t len key item = Done x ->
  insert_aux fuel t len key item = Exhausted
  \/ insert_aux fuel t len key item = Done x.
Proof.
  intros H.
  apply (insert_aux_mono f0 (Nat.max fuel f0)) in H; [|lia].
  destruct (insert_aux fuel t len key item) eqn:E; auto; right;
    rewrite (insert_aux_persists fuel (Nat.max fuel f0)) in H;
    try lia; try (rewrite E; discriminate); rewrite E in H; exact H.
Qed.

Lemma delete_aux_any_fuel (f0 fuel : nat) (t : tree) len key x :
  delete_aux f0 t len key = Done x ->
  delete_aux fuel t len key = Exhausted
  \/ delete_aux fuel t len key = Done x.
Proof.
  intros H.
  apply (delete_aux_mono f0 (Nat.max fuel f0)) in H; [|lia].
  destruct (delete_aux fuel t len key) eqn:E; auto; right;
    rewrite (delete_aux_persists fuel (Nat.max fuel f0)) in H;
    try lia; try (rewrite E; discriminate); rewrite E in H; exact H.
Qed.

Lemma mutations_classified (self : AVLTree I) (key : Z) (item : I) (fuel : nat) :
  reachable self ->
  (__setitem__ fuel self key item = Exhausted
   \/ (exists self', __setitem__ fuel self key item = Done self')
   \/ (__setitem__ fuel self key item = Failed ValueError self
       /\ __contains__ self key = true))
  /\ (__delitem__ fuel self key = Exhausted
      \/ (exists self', __delitem__ fuel self key = Done self')
      \/ (__delitem__ fuel self key = Failed ValueError self
          /\ __contains__ self key = false)).
Proof.
  intros R. pose proof (reachable_invariant self R) as Inv.
  pose proof Inv as (B & Sz & D & Hl).
  destruct (In_dec_keys (root self) key) as [Hin|Hin].
  - split.
    + right. right. split; [|apply contains_iff; auto].
      unfold __setitem__. rewrite insert_aux_present; auto.
      destruct self; reflexivity.
    + destruct (delitem_total self key Inv Hin) as (f0 & self' & H).
      unfold __delitem__ in *. apply store_done in H.
      destruct (delete_aux_any_fuel f0 fuel _ _ _ _ H) as [E|E]; rewrite E.
      * left. reflexivity.
      * right. left. eexists. reflexivity.
  - split.
    + destruct (setitem_total self key item Inv Hin) as (f0 & self' & H).
      unfold __setitem__ in *. apply store_done in H.
      destruct (insert_aux_any_fuel f0 fuel _ _ _ _ _ H) as [E|E]; rewrite E.
      * left. reflexivity.
      * right. left. eexists. reflexivity.
    + right. right. split; [|apply contains_false_iff; auto].
      unfold __delitem__. rewrite delete_aux_absent; auto.
      destruct self; reflexivity.
Qed.

(** X22: in every reachable state no [AttributeError] and no [ValueError]
    of a rotation leaves an insertion or a deletion, whatever the recursion
    allowance; and with a large enough allowance an insertion returns for an
    absent key and raises [ValueError], leaving the tree as it was, for a
    present one, while a deletion returns for a present key and raises
    [ValueError], leaving the tree as it was, for an absent one. *)
Theorem mutations_never_crash (self : AVLTree I) (key : Z) (item : I) :
  reachable self ->
  (forall fuel e,
     __setitem__ fuel self key item <> Crashed e
     /\ __delitem__ fuel self key <> Crashed e)
  /\ exists fuel0, forall fuel, (fuel0 <= fuel)%nat ->
       if __contains__ self key
       then __setitem__ fuel self key item = Failed ValueError self
            /\ exists self', __delitem__ fuel self key = Done self'
       else (exists self', __setitem__ fuel self key item = Done self')
            /\ __delitem__ fuel self key = Failed ValueError self.
Proof.
  intros R. split.
  - intros fuel e.
    destruct (mutations_classified self key item fuel R) as (A & B).
    split.
    + destruct A as [A|[(s & A)|(A & _)]]; rewrite A; discriminate.
    + destruct B as [B|[(s & B)|(B & _)]]; rewrite B; discriminate.
  - pose proof (reachable_invariant self R) as Inv.
    pose proof Inv as (B & _).
    destruct (__contains__ self key) eqn:C.
    + pose proof C as Hin. apply (contains_iff self key B) in Hin.
      destruct (delitem_total self key Inv Hin) as (f0 & self' & H).
      exists f0. intros fuel Hf. split.
      * unfold __setitem__. rewrite insert_aux_present; auto.
        destruct self; reflexivity.
      * exists self'. eapply delitem_mono; eauto.
    + pose proof C as Hin. apply (contains_false_iff self key B) in Hin.
      destruct (setitem_total self key item Inv Hin) as (f0 & self' & H).
      exists f0. intros fuel Hf. split.
      * exists self'. eapply setitem_mono; eauto.
      * unfold __delitem__. rewrite delete_aux_absent; auto.
        destruct self; reflexivity.
Qed.

(** X23: whatever the height and size fields hold, a tree returned by
    [left_rotate], [right_rotate] or [rebalance] has the in-order
    (key, item) sequence and the number of nodes of the argument, and
    correct size fields everywhere when the argument's two subtrees had
    them; a rotation of a node without the child to promote raises
    [ValueError]. *)
Theorem rotations_keep_in_order_sequence (fuel : nat) (t : tree) :
  (forall t',
     left_rotate fuel t = Done t' \/ right_rotate fuel t = Done t'
     \/ rebalance fuel t = Done t' ->
     elements t' = elements t /\ nodes t' = nodes t
     /\ (sizes_ok (left_of t) -> sizes_ok (right_of t) -> sizes_ok t'))
  /\ (right_of t = Absent -> left_rotate fuel t = Crashed ValueError)
  /\ (left_of t = Absent -> right_rotate fuel t = Crashed ValueError).
Proof.
  split; [|split].
  - intros t' H.
    assert (Hr : rebalanced t t').
    { destruct H as [H|[H|H]].
      - eapply left_rotate_with_rebalanced; [|exact H].
        intros. eapply rebalance_rebalanced; eauto.
      - eapply right_rotate_with_rebalanced; [|exact H].
        intros. eapply rebalance_rebalanced; eauto.
      - eapply rebalance_rebalanced; eauto. }
    destruct Hr as (E & S). split; [exact E|]. split.
    + rewrite <- !length_elements, E. reflexivity.
    + intros Sl Sr. apply S. split; assumption.
  - intros E. unfold left_rotate, left_rotate_with.
    destruct t as [|l k v h s r]; [reflexivity|]. simpl in E. subst.
    reflexivity.
  - intros E. unfold right_rotate, right_rotate_with.
    destruct t as [|l k v h s r]; [reflexivity|]. simpl in E. subst.
    reflexivity.
Qed.

End Persistence.

(** * Drawing *)

Section DrawingProofs.
Context {I : Type}.
Local Abbreviation tree := (AVLTreeNode I).

Lemma printed_keys_app (a b : list (list Z * option Z)) :
  printed_keys (a ++ b) = printed_keys a ++ printed_keys b.
Proof. unfold printed_keys. apply flat_map_app. Qed.

Lemma draw_aux_keys (t : tree) :
  forall prefix final, printed_keys (draw_aux t prefix final) = preorder t.
Proof.
  induction t as [|l IHl k v h s r IHr]; intros prefix final; [reflexivity|].
  cbn [draw_aux preorder].
  change (printed_keys ((?a, Some k) :: ?rest)) with (k :: printed_keys rest).
  f_equal.
  destruct l as [|ll lk lv lh ls lr].
  - destruct r as [|rl rk rv rh rs rr]; [reflexivity|].
    rewrite printed_keys_app, IHl, IHr. reflexivity.
  - rewrite printed_keys_app, IHl, IHr. reflexivity.
Qed.

Lemma preorder_keys (t : tree) : Permutation (preorder t) (keys t).
Proof.
  induction t as [|l IHl k v h s r IHr]; [constructor|].
  rewrite keys_node. cbn [preorder].
  apply Permutation_cons_app. apply Permutation_app; assumption.
Qed.

Lemma draw_aux_indent (t : tree) :
  forall (d : nat) prefix final,
    List.length prefix = (2 * d)%nat ->
    List.length (drop_last2 prefix ++ final) = (2 * d)%nat ->
    map (fun ln => List.length (fst ln)) (draw_aux t prefix final)
    = map (fun n => (2 * n)%nat) (drawn_depths t d).
Proof.
  induction t as [|l IHl k v h s r IHr]; intros d prefix final Hp Hf.
  - simpl. rewrite Hf. reflexivity.
  - cbn [draw_aux drawn_depths map fst]. rewrite Hf. f_equal.
    assert (Hl : forall a b c e,
               List.length (drop_last2 (prefix ++ [a; b]) ++ [c; e])
               = (2 * S d)%nat).
    { intros. unfold drop_last2.
      rewrite length_app, length_firstn, length_app. simpl. lia. }
    assert (Hq : forall a b, List.length (prefix ++ [a; b]) = (2 * S d)%nat).
    { intros. rewrite length_app. simpl. lia. }
    destruct l as [|ll lk lv lh ls lr].
    + destruct r as [|rl rk rv rh rs rr]; [reflexivity|].
      rewrite !map_app, (IHl (S d)), (IHr (S d)); auto.
    + rewrite !map_app, (IHl (S d)), (IHr (S d)); auto.
Qed.

(** X24: [draw] prints one line for every node, carrying its key, in
    pre-order, so every key of the tree is printed once; each line starts
    with two characters for every level below the root; for the empty tree
    it prints one empty line. *)
Theorem draw_prints_keys_in_preorder (self : AVLTree I) :
  printed_keys (draw self) = preorder (root self)
  /\ Permutation (printed_keys (draw self)) (keys (root self))
  /\ map (fun ln => List.length (fst ln)) (draw self)
     = map (fun n => (2 * n)%nat) (drawn_depths (root self) 0)
  /\ (is_empty self = true -> draw self = [([], None)]).
Proof.
  unfold draw. rewrite draw_aux_keys.
  split; [reflexivity|]. split; [apply preorder_keys|]. split.
  - apply draw_aux_indent; reflexivity.
  - unfold is_empty. destruct (root self); [reflexivity|discriminate].
Qed.

End DrawingProofs.

Section PastTheEnd.
Context {I : Type}.
Local Abbreviation tree := (AVLTreeNode I).

(** A range that reaches rank [count t] stops in [lookup]. *)
Lemma range_aux_n_past (n : nat) :
  forall (t : tree) i res,
    sizes_ok t -> is_node t -> 0 <= i -> (0 < n)%nat ->
    count t < i + Z.of_nat n ->
    range_aux_n n t i res = (t, Err AttributeError).
Proof.
  induction n as [|n IH]; intros t i res Hs N Hi Hn Hc; [lia|].
  destruct t as [|l k v h s r]; [destruct N|].
  cbn [range_aux_n].
  destruct (Z_lt_dec i (count (Node l k v h s r))) as [Hlt|Hge].
  - destruct (lookup_in_range (Node l k v h s r) i Hs)
      as (fl & fk & fv & fh & fs & fr & E & _); [lia|].
    rewrite E. apply IH; auto; lia.
  - rewrite lookup_out_of_range; auto. lia.
Qed.

(** X25: in every reachable state of N nodes, a range extraction with
    0 <= i <= j and j equal to N or N + 1 passes the assertion and leaves
    the tree as it was; on the empty tree it returns the empty list, and
    on a non-empty tree it returns no list: it stops with an exception
    other than the [ValueError] of the assertion. *)
Theorem range_between_past_the_end (self : AVLTree I) (i j : Z) :
  reachable self -> 0 <= i -> i <= j ->
  __len__ self <= j <= __len__ self + 1 ->
  fst (range_between self i j) = self
  /\ (is_empty self = true -> snd (range_between self i j) = Ok [])
  /\ (is_empty self = false ->
      exists e, snd (range_between self i j) = Err e /\ e <> ValueError).
Proof.
  intros R Hi Hij Hj. destruct (reachable_invariant self R) as (_ & Sz & _ & Hl).
  split; [apply range_between_frame; exact Sz|].
  unfold __len__ in Hj. rewrite Hl in Hj.
  unfold range_between, is_empty. rewrite (size_fixed _ Sz).
  replace (((i >=? 0) && (i <=? count (root self) + 1))
           && ((j >=? 0) && (j <=? count (root self) + 1)) && (j >=? i))
    with true.
  2:{ symmetry. rewrite !andb_true_iff. pose proof (count_nonneg (root self)).
      repeat split; lia. }
  unfold range_aux.
  destruct self as [t len]. cbn [root length] in *.
  destruct t as [|l k v h s r].
  - split; [|discriminate]. intros _.
    destruct (Z.to_nat (j + 1 - i)); reflexivity.
  - split; [discriminate|]. intros _.
    rewrite range_aux_n_past; auto; try exact Logic.I; try lia.
    exists AttributeError. split; [reflexivity|discriminate].
Qed.

End PastTheEnd.

Lemma range_between_past_the_end_witness :
  reachable tree1 /\ 0 <= 2 /\ 2 <= 6
  /\ __len__ tree1 <= 6 <= __len__ tree1 + 1
  /\ fst (range_between tree1 2 6) = tree1
  /\ (is_empty tree1 = true -> snd (range_between tree1 2 6) = Ok [])
  /\ (is_empty tree1 = false ->
      exists e, snd (range_between tree1 2 6) = Err e /\ e <> ValueError).
Proof.
  assert (H1 : 0 <= 2) by lia. assert (H2 : 2 <= 6) by lia.
  assert (H3 : __len__ tree1 <= 6 <= __len__ tree1 + 1) by (simpl; lia).
  split; [exact tree1_reachable|]. split; [exact H1|]. split; [exact H2|].
  split; [exact H3|].
  apply (range_between_past_the_end tree1 2 6 tree1_reachable H1 H2 H3).
Defined.

(** * Insertion in ascending order *)

Section Ascending.
Context {I : Type}.
Local Abbreviation tree := (AVLTreeNode I).

Lemma exact_height (t : tree) : exact t -> get_height t = true_height t.
Proof.
  induction t as [|l IHl k v h s r IHr]; [reflexivity|].
  intros (Hh & _ & El & Er). cbn [get_height true_height].
  rewrite <- (IHl El), <- (IHr Er). exact Hh.
Qed.

Lemma exact_height_nonneg (t : tree) : exact t -> 0 <= get_height t.
Proof.
  induction t as [|l IHl k v h s r IHr]; cbn [exact get_height]; [lia|].
  intros (Hh & _ & El & Er). specialize (IHl El). lia.
Qed.

Lemma exact_consistent (t : tree) :
  exact t -> heights_consistent t = true /\ avl_balanced t = true.
Proof.
  induction t as [|l IHl k v h s r IHr]; [split; reflexivity|].
  intros (Hh & Hb & El & Er).
  destruct (IHl El) as (Cl & Al). destruct (IHr Er) as (Cr & Ar).
  cbn [heights_consistent avl_balanced].
  rewrite Cl, Cr, Al, Ar, <- (exact_height l El), <- (exact_height r Er).
  rewrite !andb_true_r. split.
  - apply Z.eqb_eq. exact Hh.
  - apply Z.leb_le. lia.
Qed.

(** Inserting a key above all keys of an exact tree: the tree returned is
    exact; its height is the old one, or one more, and then it is a leaf
    or leans to the right. *)
Lemma insert_aux_above (fuel : nat) (t : tree) :
  forall len key item t' len',
    insert_aux fuel t len key item = Done (t', len') ->
    exact t -> Forall (fun x => x < key) (keys t) ->
    exact t'
    /\ (get_height t' = get_height t
        \/ (get_height t' = get_height t + 1
            /\ (0 < get_balance t' \/ is_leaf t' = true))).
Proof.
  induction t as [|l IHl k v h s r IHr]; intros len key item t' len' H E F.
  - cbn [insert_aux] in H. apply return_rebalance_done in H.
    destruct H as (H & _). unfold new_node in H.
    cbn [update_height set_height left_of right_of get_height] in H.
    rewrite update_size_eq in H.
    destruct fuel as [|fuel]; [discriminate|].
    rewrite rebalance_balanced in H by (simpl; lia).
    rewrite update_size_eq in H. inversion H; subst t'.
    split; [simpl; repeat split; lia|]. right. simpl. auto.
  - destruct E as (Hh & Hb & El & Er).
    rewrite keys_node in F. apply Forall_app in F. destruct F as (_ & F).
    inversion F as [|? ? Hk Fr]; subst.
    cbn [insert_aux] in H.
    replace (key >? k) with true in H by lia.
    destruct (insert_aux fuel r len key item) as [[r' n]|e [r' n]| |] eqn:Er';
      try discriminate.
    destruct (IHr _ _ _ _ _ Er' Er Fr) as (Er1 & Q).
    apply return_rebalance_done in H. destruct H as (H & _).
    cbn [update_height set_height left_of right_of] in H.
    rewrite update_size_eq in H.
    destruct fuel as [|fuel]; [discriminate|].
    pose proof (exact_height_nonneg l El) as Hl0.
    pose proof (exact_height_nonneg r Er) as Hr0.
    cbn [get_height].
    destruct (Z_le_dec (get_height r' - get_height l) 1) as [Hle|Hgt].
    + rewrite rebalance_balanced in H by lia.
      rewrite update_size_eq in H. inversion H; subst t'.
      split.
      * cbn [exact get_height]. repeat split; auto; lia.
      * cbn [get_height get_balance]. lia.
    + assert (Hr' : get_height r' = get_height r + 1) by lia.
      assert (Hrl : get_height r = get_height l + 1) by lia.
      destruct Q as [Q|(_ & Q)]; [lia|].
      destruct r' as [|rl rk rv rh rs rr]; [simpl in Hr'; lia|].
      destruct Er1 as (Hrh & Hrb & Erl & Err).
      cbn [get_height] in Hr'.
      destruct Q as [Q|Q].
      2:{ destruct rl, rr; simpl in Q; try discriminate. simpl in Hrh. lia. }
      cbn [get_balance] in Q.
      destruct (rebalance_right_simple l k v
                  (Z.max (get_height l) rh + 1)
                  (size_of l + size_of (Node rl rk rv rh rs rr) + 1)
                  rl rk rv rh rs rr) as (s1 & s2 & Hstep); [lia|lia|].
      cbn [get_height] in H. rewrite Hstep in H.
      destruct fuel as [|fuel]; [discriminate|].
      rewrite rebalance_balanced in H by (cbn [get_height]; lia).
      rewrite update_size_eq in H. inversion H; subst t'.
      split.
      * cbn [exact get_height]. repeat split; auto; lia.
      * left. cbn [get_height]. lia.
Qed.

(** Insertions of ascending keys, all above the keys of the tree. *)
Lemma inserts_above (kvs : list (Z * I)) :
  forall self,
    invariant self -> exact (root self) ->
    StronglySorted Z.lt (map fst kvs) ->
    (forall a b, In a (keys (root self)) -> In b (map fst kvs) -> a < b) ->
    exists fuel self',
      run_from fuel self (inserts kvs) = Done self'
      /\ invariant self' /\ exact (root self')
      /\ elements (root self') = elements (root self) ++ kvs.
Proof.
  induction kvs as [|[k v] kvs IH]; intros self Inv E S Habove.
  - exists O, self. split; [reflexivity|]. rewrite app_nil_r. auto.
  - simpl in S. apply ascending_cons_inv in S. destruct S as (S & Fk).
    assert (Fs : Forall (fun x => x < k) (keys (root self))).
    { apply Forall_forall. intros a Ha. apply Habove; simpl; auto. }
    destruct (setitem_total self k v Inv) as (f1 & s1 & H1).
    { intros Hin. rewrite Forall_forall in Fs. specialize (Fs _ Hin). lia. }
    destruct (setitem_done _ _ _ _ _ Inv H1) as (Inv1 & _ & _).
    pose proof Inv as (B & Sz & D & Hl).
    pose proof H1 as H1'. unfold __setitem__ in H1'. apply store_done in H1'.
    destruct (insert_aux_above _ _ _ _ _ _ _ H1' E Fs) as (E1 & _).
    apply insert_aux_done in H1'; auto.
    destruct H1' as (_ & _ & _ & l1 & l2 & El & El' & _ & F2).
    assert (l2 = []).
    { destruct l2 as [|p l2]; [reflexivity|]. exfalso.
      inversion F2; subst. rewrite Forall_forall in Fs.
      assert (fst p < k); [|lia]. apply Fs. unfold keys. rewrite El.
      apply in_map. apply in_or_app. right. left. reflexivity. }
    subst l2. rewrite app_nil_r in El.
    destruct (IH s1 Inv1 E1 S) as (f2 & s' & H2 & Inv' & E' & Es).
    { intros a b Ha Hb. unfold keys in Ha. rewrite El', map_app in Ha.
      apply in_app_or in Ha. destruct Ha as [Ha|[<-|[]]].
      - apply Habove; [|simpl; auto]. unfold keys. rewrite El. exact Ha.
      - rewrite Forall_forall in Fk. apply Fk. exact Hb. }
    exists (Nat.max f1 f2), s'. split; [|split; [exact Inv'|split; [exact E'|]]].
    + unfold inserts. cbn [map]. rewrite (run_from_cons _ self s1).
      * eapply run_from_mono; [|exact H2]. lia.
      * simpl. eapply setitem_mono; [|exact H1]. lia.
    + rewrite Es, El', El, <- app_assoc. reflexivity.
Qed.

(** X26: inserting pairs in strictly ascending key order into an empty
    tree returns a tree in which every height field is 1 + the larger of
    the children's fields and every node satisfies the AVL balance
    condition on true heights; its in-order sequence is the list
    inserted. *)
Theorem ascending_inserts_keep_avl (kvs : list (Z * I)) :
  StronglySorted Z.lt (map fst kvs) ->
  exists fuel self,
    (forall fuel', (fuel <= fuel')%nat -> run fuel' (inserts kvs) = Done self)
    /\ heights_consistent (root self) = true
    /\ avl_balanced (root self) = true
    /\ elements (root self) = kvs.
Proof.
  intros S.
  destruct (inserts_above kvs init init_invariant Logic.I S)
    as (f & self & H & _ & E & Es).
  { intros a b []. }
  destruct (exact_consistent _ E) as (C & A).
  exists f, self. split; [|auto].
  intros f' Hf. eapply run_mono; eauto.
Qed.

End Ascending.

Lemma ascending_inserts_keep_avl_witness :
  StronglySorted Z.lt (map fst [(10, 1); (20, 2); (30, 3)])
  /\ exists fuel self,
      (forall fuel', (fuel <= fuel')%nat ->
         run fuel' (inserts [(10, 1); (20, 2); (30, 3)]) = Done self)
      /\ heights_consistent (root self) = true
      /\ avl_balanced (root self) = true
      /\ elements (root self) = [(10, 1); (20, 2); (30, 3)].
Proof.
  assert (S : StronglySorted Z.lt (map fst [(10, 1); (20, 2); (30, 3)])).
  { simpl. repeat constructor. }
  split; [exact S|].
  apply (ascending_inserts_keep_avl [(10, 1); (20, 2); (30, 3)] S).
Defined.

(** ** Instances of the further properties *)

Lemma rotated3_reachable : reachable rotated3.
Proof. apply (run_reachable 3 descending3). reflexivity. Qed.

Lemma tree1_bst : bst (root tree1).
Proof. unfold bst. simpl. repeat constructor. Qed.

Lemma three_bst : bst three.
Proof. unfold bst. simpl. repeat constructor. Qed.

Lemma base_tree1_bst : BinarySearchTree.bst (BinarySearchTree.root base_tree1).
Proof. unfold BinarySearchTree.bst. simpl. repeat constructor. Qed.

Lemma insert_adds_binding_witness :
  reachable tree1 /\ __contains__ tree1 7 = false
  /\ exists fuel self',
      (forall fuel', (fuel <= fuel')%nat ->
                     __setitem__ fuel' tree1 7 7 = Done self')
      /\ __getitem__ self' 7 = Some 7
      /\ __contains__ self' 7 = true
      /\ __len__ self' = __len__ tree1 + 1
      /\ (forall k, k <> 7 -> __getitem__ self' k = __getitem__ tree1 k).
Proof.
  split; [exact tree1_reachable|]. split; [reflexivity|].
  apply (insert_adds_binding tree1 7 7); [exact tree1_reachable|reflexivity].
Defined.

Lemma rebalance_returns_same_contents_witness :
  is_node chain3 /\ dominated (left_of chain3) /\ dominated (right_of chain3)
  /\ exists fuel t',
      (forall fuel', (fuel <= fuel')%nat -> rebalance fuel' chain3 = Done t')
      /\ elements t' = elements chain3
      /\ nodes t' = nodes chain3
      /\ -1 <= get_balance t' <= 1
      /\ dominated (left_of t') /\ dominated (right_of t').
Proof.
  assert (N : is_node chain3) by exact Logic.I.
  assert (Dl : dominated (left_of chain3)) by exact Logic.I.
  assert (Dr : dominated (right_of chain3)) by (simpl; repeat split; lia).
  split; [exact N|]. split; [exact Dl|]. split; [exact Dr|].
  apply (rebalance_returns_same_contents chain3 N Dl Dr).
Defined.

Lemma cached_sizes_count_subtrees_witness :
  reachable tree1
  /\ sizes_ok (root tree1) /\ size (root tree1) = (root tree1, __len__ tree1).
Proof.
  split; [exact tree1_reachable|].
  apply (cached_sizes_count_subtrees tree1). exact tree1_reachable.
Defined.

Lemma cached_heights_bound_true_heights_witness :
  reachable rotated3
  /\ dominated (root rotated3) /\ height_covers (root rotated3)
  /\ true_height (root rotated3) <= get_height (root rotated3).
Proof.
  split; [exact rotated3_reachable|].
  apply (cached_heights_bound_true_heights rotated3). exact rotated3_reachable.
Defined.

Lemma getitem_returns_stored_item_witness :
  bst (root tree1)
  /\ (forall v, __getitem__ tree1 4 = Some v
                <-> In (4, v) (elements (root tree1)))
  /\ (forall node, get_tree_node_by_key tree1 4 = Some node ->
                   key_of node = Some 4)
  /\ (get_tree_node_by_key tree1 4 = None <-> ~ In 4 (keys (root tree1))).
Proof.
  split; [exact tree1_bst|].
  apply (getitem_returns_stored_item tree1 4). exact tree1_bst.
Defined.

Lemma get_minimal_is_least_witness :
  is_node three
  /\ exists k v h s r rest,
      get_minimal three = Node Absent k v h s r
      /\ elements three = (k, v) :: rest
      /\ (bst three -> forall x, In x (keys three) -> k <= x).
Proof.
  split; [exact Logic.I|].
  apply (get_minimal_is_least three). exact Logic.I.
Defined.

Lemma get_maximal_is_greatest_witness :
  is_node three
  /\ exists l k v h s front,
      get_maximal three = Node l k v h s Absent
      /\ elements three = front ++ [(k, v)]
      /\ (bst three -> forall x, In x (keys three) -> x <= k).
Proof.
  split; [exact Logic.I|].
  apply (get_maximal_is_greatest three). exact Logic.I.
Defined.

Lemma get_successor_is_next_key_witness :
  bst three
  /\ (Node Absent 8 8 1 1 Absent = Absent -> get_successor three = Absent)
  /\ (is_node (Node Absent 8 8 1 1 Absent) ->
      exists sk sv sh ss sr,
        get_successor three = Node Absent sk sv sh ss sr
        /\ In (sk, sv) (elements three)
        /\ 5 < sk
        /\ (forall x, In x (keys three) -> 5 < x -> sk <= x)).
Proof.
  split; [exact three_bst|].
  apply (get_successor_is_next_key
           (Node Absent 3 3 1 1 Absent) 5 5 2 3 (Node Absent 8 8 1 1 Absent)).
  exact three_bst.
Defined.

Lemma lookup_out_of_range_raises_witness :
  reachable tree1 /\ (5 < 0 \/ __len__ tree1 <= 5)
  /\ lookup_root tree1 5 = (tree1, Err AttributeError).
Proof.
  assert (H : 5 < 0 \/ __len__ tree1 <= 5) by (right; simpl; lia).
  split; [exact tree1_reachable|]. split; [exact H|].
  apply (lookup_out_of_range_raises tree1 5 tree1_reachable H).
Defined.

Lemma range_between_value_error_iff_witness :
  reachable tree1
  /\ (snd (range_between tree1 0 7) = Err ValueError
      <-> 0 < 0 \/ 7 < 0 \/ __len__ tree1 + 1 < 7)
  /\ fst (range_between tree1 0 7) = tree1.
Proof.
  split; [exact tree1_reachable|].
  apply (range_between_value_error_iff tree1 0 7). exact tree1_reachable.
Defined.

Lemma iterator_walks_in_order_witness :
  (3 <= nodes (root tree1))%nat
  /\ exists it',
      next_n 3 (__iter__ tree1) = Some (firstn 3 (keys (root tree1)), it')
      /\ (3%nat = nodes (root tree1) -> __next__ it' = None).
Proof.
  assert (H : (3 <= nodes (root tree1))%nat) by (simpl; lia).
  split; [exact H|].
  apply (iterator_walks_in_order tree1 3 H).
Defined.

Lemma contains_agrees_with_iteration_witness :
  reachable tree1
  /\ exists ks,
      drain (S (nodes (root tree1))) (__iter__ tree1) = Some ks
      /\ (__contains__ tree1 4 = true <-> In 4 ks).
Proof.
  split; [exact tree1_reachable|].
  apply (contains_agrees_with_iteration tree1 4). exact tree1_reachable.
Defined.

Lemma insert_then_delete_restores_contents_witness :
  reachable tree1 /\ __contains__ tree1 7 = false
  /\ exists fuel s1 s2,
      (forall fuel', (fuel <= fuel')%nat ->
         __setitem__ fuel' tree1 7 7 = Done s1
         /\ __delitem__ fuel' s1 7 = Done s2)
      /\ elements (root s2) = elements (root tree1)
      /\ __len__ s2 = __len__ tree1
      /\ (forall k, __getitem__ s2 k = __getitem__ tree1 k).
Proof.
  split; [exact tree1_reachable|]. split; [reflexivity|].
  apply (insert_then_delete_restores_contents tree1 7 7);
    [exact tree1_reachable|reflexivity].
Defined.

Lemma delete_then_insert_restores_contents_witness :
  reachable tree1 /\ __getitem__ tree1 4 = Some 4
  /\ exists fuel s1 s2,
      (forall fuel', (fuel <= fuel')%nat ->
         __delitem__ fuel' tree1 4 = Done s1
         /\ __setitem__ fuel' s1 4 4 = Done s2)
      /\ elements (root s2) = elements (root tree1)
      /\ __len__ s2 = __len__ tree1.
Proof.
  split; [exact tree1_reachable|]. split; [reflexivity|].
  apply (delete_then_insert_restores_contents tree1 4 4);
    [exact tree1_reachable|reflexivity].
Defined.

Lemma inserts_sort_the_pairs_witness :
  NoDup (map fst [(5, 50); (3, 30); (8, 80)])
  /\ exists fuel self,
      (forall fuel', (fuel <= fuel')%nat ->
         run fuel' (inserts [(5, 50); (3, 30); (8, 80)]) = Done self)
      /\ Permutation (elements (root self)) [(5, 50); (3, 30); (8, 80)]
      /\ StronglySorted Z.lt (keys (root self))
      /\ __len__ self = Z.of_nat (List.length [(5, 50); (3, 30); (8, 80)]).
Proof.
  assert (ND : NoDup (map fst [(5, 50); (3, 30); (8, 80)])).
  { simpl. repeat constructor; simpl; intros H; decompose [or] H; lia. }
  split; [exact ND|].
  apply (inserts_sort_the_pairs [(5, 50); (3, 30); (8, 80)] ND).
Defined.

Lemma inserted_key_has_its_rank_witness :
  reachable tree1
  /\ exists self',
      __setitem__ 3 tree1 7 7 = Done self'
      /\ exists node,
          lookup_root self' (rank_of 7 (keys (root tree1))) = (self', Ok node)
          /\ key_of node = Some 7 /\ item_of node = Some 7.
Proof.
  split; [exact tree1_reachable|].
  eexists. split; [vm_compute; reflexivity|].
  apply (inserted_key_has_its_rank 3 tree1 _ 7 7);
    [exact tree1_reachable|vm_compute; reflexivity].
Defined.

Lemma length_counts_operations_witness :
  run 3 scenario1 = Done tree1
  /\ __len__ tree1 = insertions scenario1 - deletions scenario1
  /\ __len__ tree1 = count (root tree1).
Proof.
  assert (H : run 3 scenario1 = Done tree1) by reflexivity.
  split; [exact H|].
  apply (length_counts_operations 3 scenario1 tree1 H).
Defined.

Lemma range_between_lists_lookups_witness :
  reachable tree1 /\ 0 <= 1 /\ 1 <= 3 /\ 3 < __len__ tree1
  /\ range_between tree1 1 3 = (tree1, Ok [3; 4; 5])
  /\ tree1 = tree1
  /\ Z.of_nat (List.length [3; 4; 5]) = 3 - 1 + 1
  /\ (forall rank, 1 <= rank <= 3 ->
        exists node,
          lookup_root tree1 rank = (tree1, Ok node)
          /\ is_node node
          /\ nth_error [3; 4; 5] (Z.to_nat (rank - 1)) = item_of node).
Proof.
  assert (H1 : 0 <= 1) by lia. assert (H2 : 1 <= 3) by lia.
  assert (H3 : 3 < __len__ tree1) by (simpl; lia).
  assert (H4 : range_between tree1 1 3 = (tree1, Ok [3; 4; 5]))
    by reflexivity.
  split; [exact tree1_reachable|]. split; [exact H1|]. split; [exact H2|].
  split; [exact H3|]. split; [exact H4|].
  apply (range_between_lists_lookups tree1 tree1 1 3 [3; 4; 5]
           tree1_reachable H1 H2 H3 H4).
Defined.

(** Scenario 1 leaves the base class with a tree of three levels: key 7
    is inserted with five frames, and with three the call runs out of
    them. *)
Lemma base_insert_out_of_frames :
  BinarySearchTree.levels (BinarySearchTree.root base_tree1) = 3%nat
  /\ BinarySearchTree.__setitem__ 3 base_tree1 7 7
     = Failed RecursionError base_tree1.
Proof. split; reflexivity. Qed.

Lemma base_insert_adds_binding_witness :
  BinarySearchTree.bst (BinarySearchTree.root base_tree1)
  /\ ((BinarySearchTree.levels (BinarySearchTree.root base_tree1) + 2 <= 5)%nat ->
      (In 7 (BinarySearchTree.keys (BinarySearchTree.root base_tree1)) ->
       BinarySearchTree.__setitem__ 5 base_tree1 7 7
       = Failed ValueError base_tree1)
      /\ (~ In 7 (BinarySearchTree.keys (BinarySearchTree.root base_tree1)) ->
          exists b', BinarySearchTree.__setitem__ 5 base_tree1 7 7 = Done b'))
  /\ (forall e b',
        BinarySearchTree.__setitem__ 5 base_tree1 7 7 = Failed e b' ->
        b' = base_tree1 /\ (e = ValueError \/ e = RecursionError))
  /\ (forall b',
        BinarySearchTree.__setitem__ 5 base_tree1 7 7 = Done b' ->
        ~ In 7 (BinarySearchTree.keys (BinarySearchTree.root base_tree1))
        /\ BinarySearchTree.length b' = BinarySearchTree.length base_tree1 + 1
        /\ BinarySearchTree.bst (BinarySearchTree.root b')
        /\ (forall k v,
              In (k, v) (BinarySearchTree.elements (BinarySearchTree.root b'))
              <-> (k, v) = (7, 7)
                  \/ In (k, v)
                       (BinarySearchTree.elements
                          (BinarySearchTree.root base_tree1)))).
Proof.
  split; [exact base_tree1_bst|].
  apply (base_insert_adds_binding 5 base_tree1 7 7). exact base_tree1_bst.
Defined.

Lemma base_delete_removes_key_witness :
  BinarySearchTree.bst (BinarySearchTree.root base_tree1)
  /\ (~ In 5 (BinarySearchTree.keys (BinarySearchTree.root base_tree1)) ->
      BinarySearchTree.__delitem__ base_tree1 5 = Failed ValueError base_tree1)
  /\ (In 5 (BinarySearchTree.keys (BinarySearchTree.root base_tree1)) ->
      exists b',
        BinarySearchTree.__delitem__ base_tree1 5 = Done b'
        /\ BinarySearchTree.length b' = BinarySearchTree.length base_tree1 - 1
        /\ BinarySearchTree.bst (BinarySearchTree.root b')
        /\ (forall k v,
              In (k, v) (BinarySearchTree.elements (BinarySearchTree.root b'))
              <-> k <> 5
                  /\ In (k, v)
                       (BinarySearchTree.elements
                          (BinarySearchTree.root base_tree1)))).
Proof.
  split; [exact base_tree1_bst|].
  apply (base_delete_removes_key base_tree1 5). exact base_tree1_bst.
Defined.

Lemma mutations_never_crash_witness :
  reachable tree1
  /\ (forall fuel e,
        __setitem__ fuel tree1 5 5 <> Crashed e
        /\ __delitem__ fuel tree1 5 <> Crashed e)
  /\ exists fuel0, forall fuel, (fuel0 <= fuel)%nat ->
       if __contains__ tree1 5
       then __setitem__ fuel tree1 5 5 = Failed ValueError tree1
            /\ exists self', __delitem__ fuel tree1 5 = Done self'
       else (exists self', __setitem__ fuel tree1 5 5 = Done self')
            /\ __delitem__ fuel tree1 5 = Failed ValueError tree1.
Proof.
  split; [exact tree1_reachable|].
  apply (mutations_never_crash tree1 5 5). exact tree1_reachable.
Defined.
